(** * ShareProof: wire conversion and validation (types/share_proof.go)

    A shallow embedding of [ShareProof.ToProto], [ShareProofFromProto],
    [ShareProof.Validate] and [ShareProof.VerifyProof], with Go's run-time
    panics, its wrapping [int32] arithmetic and the calls to the two external
    verifiers made explicit; and of the generated codec of two p2p wire
    messages, [ProtocolVersion] and [DefaultNodeInfoOther]
    (proto/tendermint/p2p/types.pb.go), with the varint helpers they share. *)

From Stdlib Require Import ZArith Lia String.
From stdpp Require Import base list.

Local Open Scope Z_scope.

(** ** Go values *)

(** [[]byte]. A nil and an empty byte slice both are the empty list. *)
Abbreviation bytes := (list Byte.byte) (only parsing).

(** [tmbytes.HexBytes] is declared as [[]byte]; [Bytes()] is the identity. *)
Abbreviation HexBytes := bytes (only parsing).
Definition HexBytes_Bytes (bz : HexBytes) : bytes := bz.

(** A slice that the code re-slices. Go checks a slice expression against the
    capacity of the slice, not its length, so the elements of the backing
    array that lie between the length and the capacity are kept. *)
Record slice (A : Type) : Type := mkSlice { items : list A; spare : list A }.
Arguments mkSlice {A} items spare.
Arguments items {A} s.
Arguments spare {A} s.

Definition len {A} (s : slice A) : nat := length (items s).
Definition cap {A} (s : slice A) : nat := length (items s ++ spare s).

(** A slice literal, or one that was made to measure: no spare capacity. *)
Definition slice_of {A} (l : list A) : slice A := mkSlice l [].

(** *** int32 *)

Definition MinInt32 : Z := - 2 ^ 31.
Definition MaxInt32 : Z := 2 ^ 31 - 1.

Definition is_int32 (z : Z) : Prop := MinInt32 <= z <= MaxInt32.

(** Two's complement wrap-around of a mathematical integer to [int32]. *)
Definition wrap32 (z : Z) : Z := (z + 2 ^ 31) mod 2 ^ 32 - 2 ^ 31.

Definition int32_add (a b : Z) : Z := wrap32 (a + b).
Definition int32_sub (a b : Z) : Z := wrap32 (a - b).

(** The conversion [int32(n)] of a length. *)
Definition int32_of_len (n : nat) : Z := wrap32 (Z.of_nat n).

(** *** Panics *)

Inductive panic : Type :=
| slice_bounds_out_of_range (lo hi : Z) (capacity : nat)
| index_out_of_range (i : nat) (length : nat)
| nil_pointer_dereference.

Inductive outcome (A : Type) : Type :=
| Returned (a : A)
| Panicked (p : panic).
Arguments Returned {A} a.
Arguments Panicked {A} p.

Definition outcome_bind {A B} (k : A -> outcome B) (o : outcome A) : outcome B :=
  match o with
  | Returned a => k a
  | Panicked p => Panicked p
  end.

#[global] Instance outcome_mret : MRet outcome := @Returned.
#[global] Instance outcome_mbind : MBind outcome := @outcome_bind.

(** [l[i]] as an operand. *)
Definition index {A} (l : list A) (i : nat) : outcome A :=
  match l !! i with
  | Some x => Returned x
  | None => Panicked (index_out_of_range i (length l))
  end.

(** [l[i] = x]. *)
Definition assign {A} (l : list A) (i : nat) (x : A) : outcome (list A) :=
  if decide (i < length l)%nat then Returned (<[i := x]> l)
  else Panicked (index_out_of_range i (length l)).

(** [s[lo:hi]] with [int32] operands: the elements a callee can read. *)
Definition reslice {A} (s : slice A) (lo hi : Z) : outcome (list A) :=
  if (0 <=? lo) && (lo <=? hi) && (hi <=? Z.of_nat (cap s))
  then Returned (take (Z.to_nat (hi - lo)) (drop (Z.to_nat lo) (items s ++ spare s)))
  else Panicked (slice_bounds_out_of_range lo hi (cap s)).

(** Reading a field through a pointer. *)
Definition deref {A} (p : option A) : outcome A :=
  match p with
  | Some a => Returned a
  | None => Panicked nil_pointer_dereference
  end.

(** The structs that the pointers of a slice point to, the nil ones left
    out. *)
Definition pointees {A} (ps : list (option A)) : list A := omap id ps.

(** ** Messages and structs *)

(** [tendermint/proto/tendermint/crypto]. *)
Module crypto.
Record Proof : Type := mkProof
  { Total : Z; Index : Z; LeafHash : bytes; Aunts : list bytes }.
End crypto.

(** [tendermint/crypto/merkle]. *)
Module merkle.
Record Proof : Type := mkProof
  { Total : Z; Index : Z; LeafHash : bytes; Aunts : list bytes }.
End merkle.

(** [tendermint/proto/tendermint/types]. The elements of [ShareProofs] and of
    [Proofs] are pointers in Go ([[]*NMTProof], [[]*crypto.Proof]): each is
    nil or points to a struct. *)
Module tmproto.
Record NMTProof : Type := mkNMTProof
  { Start : Z; End : Z; Nodes : list bytes }.

Record RowProof : Type := mkRowProof
  { RowRoots : list bytes;
    Proofs : list (option crypto.Proof);
    StartRow : N;
    EndRow : N }.

Record ShareProof : Type := mkShareProof
  { Data : slice bytes;
    ShareProofs : list (option NMTProof);
    NamespaceId : bytes;
    RowProof_ : option RowProof }.
End tmproto.

Record RowProof : Type := mkRowProof
  { RowRoots : list HexBytes;
    Proofs : list (option merkle.Proof);
    StartRow : N;
    EndRow : N }.

Record ShareProof : Type := mkShareProof
  { Data : slice bytes;
    ShareProofs : list (option tmproto.NMTProof);
    NamespaceID : bytes;
    RowProof_ : RowProof }.

(** Go's [error] values. [errors.New] allocates a fresh value at each call, so
    an error is told apart by where it was made: by one of the [errors.New]
    calls of [ShareProof.Validate] (with its text), or inside
    [RowProof.Validate], whose error values are the type [E]. *)
Inductive error (E : Type) : Type :=
| errors_New (text : string)
| RowProof_error (e : E).
Arguments errors_New {E} text.
Arguments RowProof_error {E} e.

(** ** Wire conversion *)

(** Modelled from the spec: [merkle.Proof.ToProto] is not among the sources;
    the wire conversion is "a lossless structural mapping", here field by
    field on the four fields that [ShareProofFromProto] copies the other way,
    with a nil proof mapped to a nil message. *)
Definition merkle_Proof_ToProto (p : option merkle.Proof) : option crypto.Proof :=
  (fun m => crypto.mkProof (merkle.Total m) (merkle.Index m)
                           (merkle.LeafHash m) (merkle.Aunts m)) <$> p.

(** The body of [for i := range sp.RowProof.RowRoots], run for the indices
    [idx] on the two slices under construction. *)
Fixpoint ToProto_loop (rp : RowProof) (idx : list nat)
    (rowRoots : list bytes) (rowProofs : list (option crypto.Proof))
    : outcome (list bytes * list (option crypto.Proof)) :=
  match idx with
  | [] => Returned (rowRoots, rowProofs)
  | i :: rest =>
      root_i ← index (RowRoots rp) i;
      rowRoots ← assign rowRoots i (HexBytes_Bytes root_i);
      proof_i ← index (Proofs rp) i;
      rowProofs ← assign rowProofs i (merkle_Proof_ToProto proof_i);
      ToProto_loop rp rest rowRoots rowProofs
  end.

Definition ToProto (sp : ShareProof) : outcome tmproto.ShareProof :=
  let rp := RowProof_ sp in
  let rowRoots := replicate (length (RowRoots rp)) ([] : bytes) in
  let rowProofs := replicate (length (Proofs rp)) (None : option crypto.Proof) in
  '(rowRoots, rowProofs) ← ToProto_loop rp (seq 0 (length (RowRoots rp))) rowRoots rowProofs;
  mret (tmproto.mkShareProof
          (Data sp)
          (ShareProofs sp)
          (NamespaceID sp)
          (Some (tmproto.mkRowProof rowRoots rowProofs (StartRow rp) (EndRow rp)))).

(** The body of [for i := range pb.RowProof.Proofs]. Reading a field of
    [pb.RowProof.Proofs[i]] dereferences that pointer. *)
Fixpoint ShareProofFromProto_loop (rp : tmproto.RowProof) (idx : list nat)
    (rowRoots : list HexBytes) (rowProofs : list (option merkle.Proof))
    : outcome (list HexBytes * list (option merkle.Proof)) :=
  match idx with
  | [] => Returned (rowRoots, rowProofs)
  | i :: rest =>
      root_i ← index (tmproto.RowRoots rp) i;
      rowRoots ← assign rowRoots i root_i;
      proof_i ← index (tmproto.Proofs rp) i;
      match proof_i with
      | None => Panicked nil_pointer_dereference
      | Some m =>
          rowProofs ← assign rowProofs i
                        (Some (merkle.mkProof (crypto.Total m) (crypto.Index m)
                                              (crypto.LeafHash m) (crypto.Aunts m)));
          ShareProofFromProto_loop rp rest rowRoots rowProofs
      end
  end.

Definition ShareProofFromProto {E} (pb : tmproto.ShareProof)
    : outcome (ShareProof * option (error E)) :=
  match tmproto.RowProof_ pb with
  | None => Panicked nil_pointer_dereference
  | Some rp =>
      let rowRoots := replicate (length (tmproto.RowRoots rp)) ([] : HexBytes) in
      let rowProofs := replicate (length (tmproto.Proofs rp)) (None : option merkle.Proof) in
      '(rowRoots, rowProofs) ←
        ShareProofFromProto_loop rp (seq 0 (length (tmproto.Proofs rp))) rowRoots rowProofs;
      mret (mkShareProof
              (tmproto.Data pb)
              (tmproto.ShareProofs pb)
              (tmproto.NamespaceId pb)
              (mkRowProof rowRoots rowProofs (tmproto.StartRow rp) (tmproto.EndRow rp)),
            None)
  end.

(** ** The verifiers' callers

    [Validate] and [VerifyProof] call two collaborators: the namespaced
    Merkle tree's [VerifyInclusion] and [RowProof.Validate]. The world a call
    runs in holds what the caller owns (the proof and the root it passes) and
    the record of the collaborator calls made so far. *)

Inductive call : Type :=
| nmt_VerifyInclusion (start end_ : Z) (nodes : list bytes)
                      (nID : bytes) (leaves : list bytes) (root : HexBytes)
| RowProof_Validate_call (rp : RowProof) (root : bytes).

Record World : Type := mkWorld
  { caller_proof : ShareProof;
    caller_root : bytes;
    trace : list call }.

Definition M (A : Type) : Type := World -> outcome A * World.

Definition ret {A} (a : A) : M A := fun w => (Returned a, w).

Definition bind {A B} (m : M A) (k : A -> M B) : M B :=
  fun w =>
    match m w with
    | (Returned a, w') => k a w'
    | (Panicked p, w') => (Panicked p, w')
    end.

Definition lift {A} (o : outcome A) : M A := fun w => (o, w).

Definition record (c : call) : M unit :=
  fun w => (Returned tt, mkWorld (caller_proof w) (caller_root w) (trace w ++ [c])).

Declare Scope go_scope.
Delimit Scope go_scope with go.
Notation "x <- m ;; k" := (bind m (fun x => k))
  (at level 100, m at next level, right associativity) : go_scope.
Notation "m ;; k" := (bind m (fun _ => k))
  (at level 100, right associativity) : go_scope.

(** The texts of the four [errors.New] calls of [Validate]. *)
Definition text_counts : string :=
  "invalid number of proofs, row roots, or data. they all must be the same to verify the proof".
Definition text_negative : string := "proof index cannot be negative".
Definition text_total : string := "proof total must be positive".
Definition text_inconsistent : string := "proof is not internally consistent".

Section Validation.

Context {E : Type}.

(** [nmt.NewInclusionProof(start, end, nodes, true).VerifyInclusion(
    consts.NewBaseHashFunc(), nID, leaves, root)]: the row-inclusion verifier,
    a collaborator that answers with a boolean. *)
Variable VerifyInclusion :
  Z -> Z -> list bytes -> bytes -> list bytes -> HexBytes -> bool.

(** [RowProof.Validate(root)]: nil, or the error it made. *)
Variable RowProof_Validate : RowProof -> bytes -> option E.

Local Open Scope go_scope.

Definition call_VerifyInclusion (start end_ : Z) (nodes : list bytes)
    (nID : bytes) (leaves : list bytes) (root : HexBytes) : M bool :=
  record (nmt_VerifyInclusion start end_ nodes nID leaves root) ;;
  ret (VerifyInclusion start end_ nodes nID leaves root).

Definition call_RowProof_Validate (rp : RowProof) (root : bytes) : M (option E) :=
  record (RowProof_Validate_call rp root) ;;
  ret (RowProof_Validate rp root).

(** [for i, proof := range sp.ShareProofs] of [VerifyProof], from index [i]
    with the cursor at [cursor]. The row is first read at [proof.Start]. *)
Fixpoint VerifyProof_loop (sp : ShareProof) (i : nat) (cursor : Z)
    (proofs : list (option tmproto.NMTProof)) : M bool :=
  match proofs with
  | [] => ret true
  | proof :: rest =>
      proof <- lift (deref proof) ;;
      let sharesUsed := int32_sub (tmproto.End proof) (tmproto.Start proof) in
      leaves <- lift (reslice (Data sp) cursor (int32_add sharesUsed cursor)) ;;
      rowRoot <- lift (index (RowRoots (RowProof_ sp)) i) ;;
      valid <- call_VerifyInclusion (tmproto.Start proof) (tmproto.End proof)
                 (tmproto.Nodes proof) (NamespaceID sp) leaves rowRoot ;;
      if negb valid then ret false
      else VerifyProof_loop sp (S i) (int32_add cursor sharesUsed) rest
  end.

Definition VerifyProof (sp : ShareProof) : M bool :=
  VerifyProof_loop sp 0%nat 0 (ShareProofs sp).

(** The first loop of [Validate]: the running [int32] sum, from [n] on.
    Reading [proof.End] dereferences the row. *)
Fixpoint numberOfSharesInProofs_loop (n : Z) (proofs : list (option tmproto.NMTProof))
    : outcome Z :=
  match proofs with
  | [] => Returned n
  | proof :: rest =>
      proof ← deref proof;
      numberOfSharesInProofs_loop
        (int32_add n (int32_sub (tmproto.End proof) (tmproto.Start proof))) rest
  end.

Definition numberOfSharesInProofs (sp : ShareProof) : outcome Z :=
  numberOfSharesInProofs_loop 0 (ShareProofs sp).

(** The second loop of [Validate], which returns from inside the loop. *)
Fixpoint check_ranges (proofs : list (option tmproto.NMTProof))
    : outcome (option (error E)) :=
  match proofs with
  | [] => Returned None
  | proof :: rest =>
      proof ← deref proof;
      if tmproto.Start proof <? 0 then Returned (Some (errors_New text_negative))
      else if int32_sub (tmproto.End proof) (tmproto.Start proof) <=? 0
           then Returned (Some (errors_New text_total))
           else check_ranges rest
  end.

Definition Validate (sp : ShareProof) (root : bytes) : M (option (error E)) :=
  n <- lift (numberOfSharesInProofs sp) ;;
  if negb (length (RowRoots (RowProof_ sp)) =? length (ShareProofs sp))%nat
     || negb (int32_of_len (len (Data sp)) =? n)
  then ret (Some (errors_New text_counts))
  else
    bad <- lift (check_ranges (ShareProofs sp)) ;;
    match bad with
    | Some err => ret (Some err)
    | None =>
        valid <- VerifyProof sp ;;
        if negb valid then ret (Some (errors_New text_inconsistent))
        else
          err <- call_RowProof_Validate (RowProof_ sp) root ;;
          match err with
          | Some e => ret (Some (RowProof_error e))
          | None => ret None
          end
    end.

(** *** The vocabulary of the specification *)

(** Step 1 of [Validate] passes: its first loop returns, and the condition of
    its first [if] is false. *)
Definition counts_agree (sp : ShareProof) : bool :=
  match numberOfSharesInProofs sp with
  | Returned n =>
      (length (RowRoots (RowProof_ sp)) =? length (ShareProofs sp))%nat
      && (int32_of_len (len (Data sp)) =? n)
  | Panicked _ => false
  end.

(** The sum of [end - start] over the per-row proofs, as a mathematical
    integer. *)
Definition declared_shares (proofs : list tmproto.NMTProof) : Z :=
  foldr (fun proof n => (tmproto.End proof - tmproto.Start proof) + n) 0 proofs.

(** The verifier calls that the walk over the rows prescribes: row [i] gets
    the next [end - start] entries of [Data] after the cursor, and
    [RowRoots[i]]. *)
Fixpoint row_calls (sp : ShareProof) (i cursor : nat)
    (proofs : list tmproto.NMTProof) : list call :=
  match proofs with
  | [] => []
  | proof :: rest =>
      let n := Z.to_nat (tmproto.End proof - tmproto.Start proof) in
      nmt_VerifyInclusion (tmproto.Start proof) (tmproto.End proof)
        (tmproto.Nodes proof) (NamespaceID sp)
        (take n (drop cursor (items (Data sp))))
        (default [] (RowRoots (RowProof_ sp) !! i))
      :: row_calls sp (S i) (cursor + n) rest
  end.

(** What the row-inclusion verifier answers to a call. *)
Definition verdict (c : call) : bool :=
  match c with
  | nmt_VerifyInclusion start end_ nodes nID leaves root =>
      VerifyInclusion start end_ nodes nID leaves root
  | RowProof_Validate_call _ _ => true
  end.

(** The calls up to and including the first one that fails. *)
Fixpoint through_first_failure (cs : list call) : list call :=
  match cs with
  | [] => []
  | c :: rest => if verdict c then c :: through_first_failure rest else [c]
  end.

(** What the walk asks for at row [i] with the cursor at [cursor]: the call
    to the row-inclusion verifier on [Data[cursor : cursor + (end - start)]]
    and [RowRoots[i]]; or, when the row is nil, the slice is out of the range
    of [Data], or there is no [RowRoots[i]], the panic that ends the walk
    there. The arithmetic is [int32]'s. *)
Definition row_step (sp : ShareProof) (i : nat) (cursor : Z)
    (row : option tmproto.NMTProof) : outcome call :=
  proof ← deref row;
  leaves ← reslice (Data sp) cursor
             (int32_add (int32_sub (tmproto.End proof) (tmproto.Start proof)) cursor);
  rowRoot ← index (RowRoots (RowProof_ sp)) i;
  mret (nmt_VerifyInclusion (tmproto.Start proof) (tmproto.End proof)
          (tmproto.Nodes proof) (NamespaceID sp) leaves rowRoot).

(** Where the cursor is after a row. *)
Definition cursor_after (cursor : Z) (row : option tmproto.NMTProof) : Z :=
  match row with
  | Some proof =>
      int32_add cursor (int32_sub (tmproto.End proof) (tmproto.Start proof))
  | None => cursor
  end.

(** The rows in order, each with the cursor where the rows before it left
    it. *)
Fixpoint row_plan (sp : ShareProof) (i : nat) (cursor : Z)
    (rows : list (option tmproto.NMTProof)) : list (outcome call) :=
  match rows with
  | [] => []
  | row :: rest =>
      row_step sp i cursor row :: row_plan sp (S i) (cursor_after cursor row) rest
  end.

(** The walk over the rows: it goes from row to row as long as the verifier
    accepts; it returns false at the first call that the verifier rejects,
    panics at the first row that cannot be called, and returns true at the
    end. *)
Fixpoint walk_result (plan : list (outcome call)) : outcome bool :=
  match plan with
  | [] => Returned true
  | Panicked p :: _ => Panicked p
  | Returned c :: rest => if verdict c then walk_result rest else Returned false
  end.

(** The calls that the walk makes on its way. *)
Fixpoint walk_calls (plan : list (outcome call)) : list call :=
  match plan with
  | Returned c :: rest => c :: (if verdict c then walk_calls rest else [])
  | _ => []
  end.

End Validation.

Definition is_VerifyInclusion_call (c : call) : Prop :=
  match c with
  | nmt_VerifyInclusion _ _ _ _ _ _ => True
  | RowProof_Validate_call _ _ => False
  end.

(** The shares that a call hands to the row-inclusion verifier. *)
Definition leaves_of (c : call) : list bytes :=
  match c with
  | nmt_VerifyInclusion _ _ _ _ leaves _ => leaves
  | RowProof_Validate_call _ _ => []
  end.

(** The rows fit: no row is nil, every range has [start <= end], the
    declared share counts add up to no more than [len(Data)] and to no more
    than the largest [int32], and there is a row root for every per-row
    proof. *)
Definition rows_fit (sp : ShareProof) : Prop :=
  Forall is_Some (ShareProofs sp)
  /\ Forall (fun proof => tmproto.Start proof <= tmproto.End proof)
       (pointees (ShareProofs sp))
  /\ declared_shares (pointees (ShareProofs sp)) <= Z.of_nat (len (Data sp))
  /\ declared_shares (pointees (ShareProofs sp)) <= MaxInt32
  /\ (length (ShareProofs sp) <= length (RowRoots (RowProof_ sp)))%nat.

(** The specification's names for the errors of [Validate]. *)
Inductive ProofError : Type :=
| CountMismatch
| InvalidRange
| InconsistentProof
| RowProofInvalid.

Definition kind_of {E} (err : error E) : option ProofError :=
  match err with
  | RowProof_error _ => Some RowProofInvalid
  | errors_New text =>
      if String.eqb text text_counts then Some CountMismatch
      else if String.eqb text text_negative || String.eqb text text_total
           then Some InvalidRange
           else if String.eqb text text_inconsistent then Some InconsistentProof
                else None
  end.

(** The struct-to-struct copies of the two conversion loops. *)
Definition merkle_of (m : crypto.Proof) : merkle.Proof :=
  merkle.mkProof (crypto.Total m) (crypto.Index m) (crypto.LeafHash m) (crypto.Aunts m).

(** A well-formed wire message: the [RowProof] field is present, and it has
    as many row roots as proofs. *)
Definition well_formed (pb : tmproto.ShareProof) : Prop :=
  exists rp,
    tmproto.RowProof_ pb = Some rp
    /\ length (tmproto.RowRoots rp) = length (tmproto.Proofs rp).

(** No element of the repeated [Proofs] field is nil (the wire decoder
    allocates every element that it appends). *)
Definition proofs_present (pb : tmproto.ShareProof) : Prop :=
  forall rp, tmproto.RowProof_ pb = Some rp -> Forall is_Some (tmproto.Proofs rp).

(** ** Sample inputs *)

(** A row-inclusion verifier that accepts everything, a [RowProof.Validate]
    that accepts everything, and one that rejects everything. *)
Definition accept_all : Z -> Z -> list bytes -> bytes -> list bytes -> HexBytes -> bool :=
  fun _ _ _ _ _ _ => true.
Definition rows_accepted : RowProof -> bytes -> option string := fun _ _ => None.
Definition rows_rejected : RowProof -> bytes -> option string :=
  fun _ _ => Some "row proof rejected"%string.

Definition namespace : bytes := [Byte.x01; Byte.x02].
Definition share0 : bytes := [Byte.x01; Byte.x02; Byte.xa0].
Definition share1 : bytes := [Byte.x01; Byte.x02; Byte.xa1].
Definition share2 : bytes := [Byte.x01; Byte.x02; Byte.xa2].
Definition rowRoot0 : bytes := [Byte.xb0].
Definition rowRoot1 : bytes := [Byte.xb1].
Definition dataRoot : bytes := [Byte.xd0].

Definition path0 : crypto.Proof := crypto.mkProof 2 0 [Byte.xc0] [[Byte.xc1]].
Definition path1 : crypto.Proof := crypto.mkProof 2 1 [Byte.xc1] [[Byte.xc0]].

Definition two_row_proof : RowProof :=
  mkRowProof [rowRoot0; rowRoot1] [Some (merkle_of path0); Some (merkle_of path1)] 0 1.

Definition no_row_proof : RowProof := mkRowProof [] [] 0 0.

(** Two rows: shares 0 and 1 in the first, share 2 in the second. *)
Definition two_rows : ShareProof :=
  mkShareProof (slice_of [share0; share1; share2])
    [Some (tmproto.mkNMTProof 0 2 []); Some (tmproto.mkNMTProof 0 1 [])]
    namespace two_row_proof.

Definition zero_rows : ShareProof :=
  mkShareProof (slice_of []) [] namespace no_row_proof.

(** Four rows of [2^30] declared shares each, and no data. *)
Definition overflowing_rows : ShareProof :=
  mkShareProof (slice_of [])
    (replicate 4 (Some (tmproto.mkNMTProof 0 1073741824 [])))
    namespace
    (mkRowProof (replicate 4 rowRoot0) (replicate 4 (Some (merkle_of path0))) 0 3).

(** One row that ends before it starts, by the whole width of [int32]. *)
Definition backwards_row : ShareProof :=
  mkShareProof (slice_of [share0])
    [Some (tmproto.mkNMTProof 2147483647 (-2147483648) [])]
    namespace
    (mkRowProof [rowRoot0] [Some (merkle_of path0)] 0 0).

(** One declared share and no data; one declared row and no row root. *)
Definition short_data : ShareProof :=
  mkShareProof (slice_of []) [Some (tmproto.mkNMTProof 0 1 [])] namespace
    (mkRowProof [rowRoot0] [Some (merkle_of path0)] 0 0).
Definition missing_root : ShareProof :=
  mkShareProof (slice_of [share0]) [Some (tmproto.mkNMTProof 0 1 [])] namespace no_row_proof.

(** One share of data and no row at all; one row whose range is empty. *)
Definition one_share_no_rows : ShareProof :=
  mkShareProof (slice_of [share0]) [] namespace no_row_proof.
Definition empty_range : ShareProof :=
  mkShareProof (slice_of []) [Some (tmproto.mkNMTProof 1 1 [])] namespace
    (mkRowProof [rowRoot0] [Some (merkle_of path0)] 0 0).

(** A row that is nil, with a row root and a share for it; a row that the
    verifier is asked about, followed by a nil row; and one share in a slice
    that has room for three. *)
Definition nil_row : ShareProof :=
  mkShareProof (slice_of [share0]) [None] namespace
    (mkRowProof [rowRoot0] [Some (merkle_of path0)] 0 0).
Definition nil_second_row : ShareProof :=
  mkShareProof (slice_of [share0]) [Some (tmproto.mkNMTProof 0 1 []); None]
    namespace two_row_proof.
Definition spare_data : ShareProof :=
  mkShareProof (mkSlice [share0] [share1; share2])
    [Some (tmproto.mkNMTProof 0 2 [])] namespace
    (mkRowProof [rowRoot0] [Some (merkle_of path0)] 0 0).

(** A verifier that rejects everything. *)
Definition reject_all : Z -> Z -> list bytes -> bytes -> list bytes -> HexBytes -> bool :=
  fun _ _ _ _ _ _ => false.

Definition world_of (sp : ShareProof) (root : bytes) : World := mkWorld sp root [].

(** Wire messages: a well-formed one, one with a proof and no row root, one
    that decodes although its counts disagree, and one with a row root and a
    nil proof. *)
Definition pb_two_rows : tmproto.ShareProof :=
  tmproto.mkShareProof (slice_of [share0; share1; share2])
    [Some (tmproto.mkNMTProof 0 2 []); Some (tmproto.mkNMTProof 0 1 [])]
    namespace
    (Some (tmproto.mkRowProof [rowRoot0; rowRoot1] [Some path0; Some path1] 0 1)).




Definition pb_nil_proof : tmproto.ShareProof :=
  tmproto.mkShareProof (slice_of []) [] namespace
    (Some (tmproto.mkRowProof [rowRoot0] [None] 0 0)).

(** ** The p2p wire types (proto/tendermint/p2p/types.pb.go)

    The generated codec of [ProtocolVersion] and [DefaultNodeInfoOther]:
    their size, their encoder, their decoder and the varint helpers they
    share. A byte is an integer in [0, 256), a [uint64] an integer in
    [0, 2^64), an [int] a 64-bit signed integer. The receiver of a method is
    a pointer that is not nil. *)

(** The run-time panics of this code. Its indices are [int] values that it
    computes by subtraction, so an index that is out of range can be
    negative. *)
Inductive fault : Type :=
| index_fault (i : Z) (length : nat)
| slice_fault (lo hi : Z) (capacity : nat)
| makeslice_fault (size : Z).

(** What a call comes to: it returns, or it panics on an index. *)
Inductive run (A : Type) : Type :=
| Done (a : A)
| Fault (f : fault).
Arguments Done {A} a.
Arguments Fault {A} f.

Definition run_bind {A B} (k : A -> run B) (r : run A) : run B :=
  match r with
  | Done a => k a
  | Fault f => Fault f
  end.

#[global] Instance run_mret : MRet run := @Done.
#[global] Instance run_mbind : MBind run := @run_bind.

(** [dAtA[i]] as an operand, and [dAtA[i] = b], with an [int] index. *)
Definition load (dAtA : list Z) (i : Z) : run Z :=
  match (if 0 <=? i then dAtA !! Z.to_nat i else None) with
  | Some b => Done b
  | None => Fault (index_fault i (length dAtA))
  end.

Definition store (dAtA : list Z) (i : Z) (b : Z) : run (list Z) :=
  if (0 <=? i) && (i <? Z.of_nat (length dAtA))
  then Done (<[Z.to_nat i := b]> dAtA)
  else Fault (index_fault i (length dAtA)).

(** [dAtA[:hi]] and [dAtA[lo:]] of a slice whose capacity is its length. *)
Definition slice_to (dAtA : list Z) (hi : Z) : run (list Z) :=
  if (0 <=? hi) && (hi <=? Z.of_nat (length dAtA))
  then Done (take (Z.to_nat hi) dAtA)
  else Fault (slice_fault 0 hi (length dAtA)).

Definition slice_from (dAtA : list Z) (lo : Z) : run (list Z) :=
  if (0 <=? lo) && (lo <=? Z.of_nat (length dAtA))
  then Done (drop (Z.to_nat lo) dAtA)
  else Fault (slice_fault lo (Z.of_nat (length dAtA)) (length dAtA)).

Definition is_byte (b : Z) : Prop := 0 <= b < 2 ^ 8.
Definition is_uint64 (x : Z) : Prop := 0 <= x < 2 ^ 64.

Definition uint8 (z : Z) : Z := z mod 2 ^ 8.

(** [x << s] on [uint64]: the bits shifted out are lost. *)
Definition uint64_shl (x s : Z) : Z := Z.shiftl x s mod 2 ^ 64.

(** Two's complement wrap-around to [int], and [+] and [<<] on [int]. *)
Definition wrap64 (z : Z) : Z := (z + 2 ^ 63) mod 2 ^ 64 - 2 ^ 63.
Definition int_add (a b : Z) : Z := wrap64 (a + b).
Definition int_shl (x s : Z) : Z := wrap64 (Z.shiftl x s).

(** [bits.Len64]: the number of bits needed to write [x]; 0 for 0. *)
Definition Len64 (x : Z) : Z := if x =? 0 then 0 else Z.log2 x + 1.

Definition sovTypes (x : Z) : Z := (Len64 (Z.lor x 1) + 6) / 7.

(** The loop [for v >= 1<<7] of [encodeVarintTypes], which leaves the buffer,
    the offset and what remains of [v]. It runs once per seven bits of [v],
    so a fuel of [log2 v] is never used up. *)
Fixpoint encodeVarintTypes_loop (fuel : nat) (dAtA : list Z) (offset v : Z)
    : run (list Z * Z * Z) :=
  match fuel with
  | S fuel =>
      if v >=? 2 ^ 7 then
        dAtA ← store dAtA offset (uint8 (Z.lor (Z.land v 127) 128));
        encodeVarintTypes_loop fuel dAtA (offset + 1) (Z.shiftr v 7)
      else Done (dAtA, offset, v)
  | O => Done (dAtA, offset, v)
  end.

(** [encodeVarintTypes] writes into the caller's buffer; the buffer as it is
    after the call is returned with the result. [offset] is an [int]: where
    [- 2^63 <= offset - sovTypes v], as for every offset that is not negative,
    Go's subtraction does not wrap around, and it is written here without the
    wrap. *)
Definition encodeVarintTypes (dAtA : list Z) (offset v : Z) : run (list Z * Z) :=
  let offset := offset - sovTypes v in
  let base := offset in
  '(dAtA, offset, v) ← encodeVarintTypes_loop (Z.to_nat (Z.log2 v)) dAtA offset v;
  dAtA ← store dAtA offset (uint8 v);
  mret (dAtA, base).

Record ProtocolVersion : Type := mkProtocolVersion
  { P2P : Z; Block : Z; App : Z }.

Definition ProtocolVersion_Size (m : ProtocolVersion) : Z :=
  let n := 0 in
  let n := if negb (P2P m =? 0) then n + (1 + sovTypes (P2P m)) else n in
  let n := if negb (Block m =? 0) then n + (1 + sovTypes (Block m)) else n in
  let n := if negb (App m =? 0) then n + (1 + sovTypes (App m)) else n in
  n.

(** The errors of the codec: the three package variables, [io]'s, and the
    [fmt.Errorf] calls with their format and arguments. *)
Inductive codec_error : Type :=
| ErrInvalidLengthTypes
| ErrIntOverflowTypes
| ErrUnexpectedEndOfGroupTypes
| io_ErrUnexpectedEOF
| fmt_Errorf (format : string) (args : list Z).

(** [MarshalToSizedBuffer] fills the buffer from its end: [App], then
    [Block], then [P2P], each only when it is not zero. *)
Definition ProtocolVersion_MarshalToSizedBuffer (m : ProtocolVersion) (dAtA : list Z)
    : run (list Z * Z * option codec_error) :=
  let i := Z.of_nat (length dAtA) in
  '(dAtA, i) ←
    (if negb (App m =? 0) then
       '(dAtA, i) ← encodeVarintTypes dAtA i (App m);
       let i := i - 1 in
       dAtA ← store dAtA i 24;
       mret (dAtA, i)
     else mret (dAtA, i));
  '(dAtA, i) ←
    (if negb (Block m =? 0) then
       '(dAtA, i) ← encodeVarintTypes dAtA i (Block m);
       let i := i - 1 in
       dAtA ← store dAtA i 16;
       mret (dAtA, i)
     else mret (dAtA, i));
  '(dAtA, i) ←
    (if negb (P2P m =? 0) then
       '(dAtA, i) ← encodeVarintTypes dAtA i (P2P m);
       let i := i - 1 in
       dAtA ← store dAtA i 8;
       mret (dAtA, i)
     else mret (dAtA, i));
  mret (dAtA, Z.of_nat (length dAtA) - i, None).

(** [Marshal]: the buffer is made to measure, [dAtA[:size]] shares its
    backing array, and what was written through it is what is returned. *)
Definition ProtocolVersion_Marshal (m : ProtocolVersion)
    : run (list Z * option codec_error) :=
  let size := ProtocolVersion_Size m in
  let dAtA := replicate (Z.to_nat size) 0 in
  buffer ← slice_to dAtA size;
  '(dAtA, n, err) ← ProtocolVersion_MarshalToSizedBuffer m buffer;
  match err with
  | Some err => mret ([], Some err)
  | None => dAtA ← slice_to dAtA n; mret (dAtA, None)
  end.

(** The values of [shift] for which a varint loop reads a byte: 0, 7, ...,
    63. At the next one, 70, the loop returns [ErrIntOverflowTypes]. *)
Definition shifts : list Z := [0; 7; 14; 21; 28; 35; 42; 49; 56; 63].

(** The varint loop that accumulates a [uint64]
    ([x |= uint64(b&0x7F) << shift]), as it stands four times in
    [ProtocolVersion.Unmarshal] and once in [skipTypes]: what has been
    accumulated, the index, and the error if the loop returned one. *)
Fixpoint read_uint64 (shifts : list Z) (dAtA : list Z) (iNdEx x : Z)
    : run (Z * Z * option codec_error) :=
  match shifts with
  | [] => mret (x, iNdEx, Some ErrIntOverflowTypes)
  | shift :: rest =>
      if iNdEx >=? Z.of_nat (length dAtA)
      then mret (x, iNdEx, Some io_ErrUnexpectedEOF)
      else
        b ← load dAtA iNdEx;
        let iNdEx := iNdEx + 1 in
        let x := Z.lor x (uint64_shl (Z.land b 127) shift) in
        if b <? 128 then mret (x, iNdEx, None)
        else read_uint64 rest dAtA iNdEx x
  end.

(** The varint loop of [skipTypes], case 0, which only steps over the
    bytes. *)
Fixpoint skip_varint (shifts : list Z) (dAtA : list Z) (iNdEx : Z)
    : run (Z * option codec_error) :=
  match shifts with
  | [] => mret (iNdEx, Some ErrIntOverflowTypes)
  | shift :: rest =>
      if iNdEx >=? Z.of_nat (length dAtA)
      then mret (iNdEx, Some io_ErrUnexpectedEOF)
      else
        let iNdEx := iNdEx + 1 in
        b ← load dAtA (iNdEx - 1);
        if b <? 128 then mret (iNdEx, None)
        else skip_varint rest dAtA iNdEx
  end.

(** The varint loop of [skipTypes], case 2, which accumulates an [int]
    ([length |= (int(b) & 0x7F) << shift]). *)
Fixpoint read_length (shifts : list Z) (dAtA : list Z) (iNdEx length : Z)
    : run (Z * Z * option codec_error) :=
  match shifts with
  | [] => mret (length, iNdEx, Some ErrIntOverflowTypes)
  | shift :: rest =>
      if iNdEx >=? Z.of_nat (List.length dAtA)
      then mret (length, iNdEx, Some io_ErrUnexpectedEOF)
      else
        b ← load dAtA iNdEx;
        let iNdEx := iNdEx + 1 in
        let length := Z.lor length (int_shl (Z.land b 127) shift) in
        if b <? 128 then mret (length, iNdEx, None)
        else read_length rest dAtA iNdEx length
  end.

(** One turn of the loop [for iNdEx < l] of [skipTypes]; [again] is the rest
    of the loop. *)
Definition skipTypes_turn (again : Z -> Z -> run (Z * option codec_error))
    (dAtA : list Z) (iNdEx depth : Z) : run (Z * option codec_error) :=
  '(wire, iNdEx, err) ← read_uint64 shifts dAtA iNdEx 0;
  match err with
  | Some err => mret (0, Some err)
  | None =>
      let wireType := Z.land wire 7 in
      '(iNdEx, depth, err) ←
        (if wireType =? 0 then
           '(iNdEx, err) ← skip_varint shifts dAtA iNdEx;
           mret (iNdEx, depth, err)
         else if wireType =? 1 then mret (int_add iNdEx 8, depth, None)
         else if wireType =? 2 then
           '(length, iNdEx, err) ← read_length shifts dAtA iNdEx 0;
           match err with
           | Some err => mret (iNdEx, depth, Some err)
           | None =>
               if length <? 0
               then mret (iNdEx, depth, Some ErrInvalidLengthTypes)
               else mret (int_add iNdEx length, depth, None)
           end
         else if wireType =? 3 then mret (iNdEx, int_add depth 1, None)
         else if wireType =? 4 then
           if depth =? 0
           then mret (iNdEx, depth, Some ErrUnexpectedEndOfGroupTypes)
           else mret (iNdEx, int_add depth (-1), None)
         else if wireType =? 5 then mret (int_add iNdEx 4, depth, None)
         else mret (iNdEx, depth,
                    Some (fmt_Errorf "proto: illegal wireType %d" [wireType])));
      match err with
      | Some err => mret (0, Some err)
      | None =>
          if iNdEx <? 0 then mret (0, Some ErrInvalidLengthTypes)
          else if depth =? 0 then mret (iNdEx, None)
          else again iNdEx depth
      end
  end.

(** The loop itself. Every turn that goes on has moved the index forward, so
    a fuel of [len(dAtA)] is never used up. *)
Fixpoint skipTypes_loop (fuel : nat) (dAtA : list Z) (iNdEx depth : Z)
    : run (Z * option codec_error) :=
  match fuel with
  | O => mret (0, Some io_ErrUnexpectedEOF)
  | S fuel =>
      if iNdEx <? Z.of_nat (length dAtA)
      then skipTypes_turn (skipTypes_loop fuel dAtA) dAtA iNdEx depth
      else mret (0, Some io_ErrUnexpectedEOF)
  end.

Definition skipTypes (dAtA : list Z) : run (Z * option codec_error) :=
  skipTypes_loop (length dAtA) dAtA 0 0.

(** One turn of the loop [for iNdEx < l] of [ProtocolVersion.Unmarshal], on
    the message as it is so far; [again] is the rest of the loop. The message
    is written in place, so it is returned as it stands also when the call
    returns an error. *)
Definition ProtocolVersion_Unmarshal_turn
    (again : ProtocolVersion -> Z -> run (ProtocolVersion * option codec_error))
    (m : ProtocolVersion) (dAtA : list Z) (iNdEx : Z)
    : run (ProtocolVersion * option codec_error) :=
  let l := Z.of_nat (length dAtA) in
  let preIndex := iNdEx in
  '(wire, iNdEx, err) ← read_uint64 shifts dAtA iNdEx 0;
  match err with
  | Some err => mret (m, Some err)
  | None =>
      let fieldNum := wrap32 (Z.shiftr wire 3) in
      let wireType := Z.land wire 7 in
      if wireType =? 4 then
        mret (m, Some (fmt_Errorf
                 "proto: ProtocolVersion: wiretype end group for non-group" []))
      else if fieldNum <=? 0 then
        mret (m, Some (fmt_Errorf
                 "proto: ProtocolVersion: illegal tag %d (wire type %d)"
                 [fieldNum; wire]))
      else if fieldNum =? 1 then
        if negb (wireType =? 0) then
          mret (m, Some (fmt_Errorf
                   "proto: wrong wireType = %d for field P2P" [wireType]))
        else
          '(x, iNdEx, err) ← read_uint64 shifts dAtA iNdEx 0;
          let m := mkProtocolVersion x (Block m) (App m) in
          match err with
          | Some err => mret (m, Some err)
          | None => again m iNdEx
          end
      else if fieldNum =? 2 then
        if negb (wireType =? 0) then
          mret (m, Some (fmt_Errorf
                   "proto: wrong wireType = %d for field Block" [wireType]))
        else
          '(x, iNdEx, err) ← read_uint64 shifts dAtA iNdEx 0;
          let m := mkProtocolVersion (P2P m) x (App m) in
          match err with
          | Some err => mret (m, Some err)
          | None => again m iNdEx
          end
      else if fieldNum =? 3 then
        if negb (wireType =? 0) then
          mret (m, Some (fmt_Errorf
                   "proto: wrong wireType = %d for field App" [wireType]))
        else
          '(x, iNdEx, err) ← read_uint64 shifts dAtA iNdEx 0;
          let m := mkProtocolVersion (P2P m) (Block m) x in
          match err with
          | Some err => mret (m, Some err)
          | None => again m iNdEx
          end
      else
        let iNdEx := preIndex in
        rest ← slice_from dAtA iNdEx;
        '(skippy, err) ← skipTypes rest;
        match err with
        | Some err => mret (m, Some err)
        | None =>
            if (skippy <? 0) || (int_add iNdEx skippy <? 0)
            then mret (m, Some ErrInvalidLengthTypes)
            else if int_add iNdEx skippy >? l
                 then mret (m, Some io_ErrUnexpectedEOF)
                 else again m (int_add iNdEx skippy)
        end
  end.

(** The loop itself, and what follows it. Every turn that goes on has moved
    the index forward, so a fuel of [len(dAtA)] is never used up. *)
Fixpoint ProtocolVersion_Unmarshal_loop (fuel : nat) (m : ProtocolVersion)
    (dAtA : list Z) (iNdEx : Z) : run (ProtocolVersion * option codec_error) :=
  let l := Z.of_nat (length dAtA) in
  let after_loop :=
    if iNdEx >? l then mret (m, Some io_ErrUnexpectedEOF) else mret (m, None) in
  match fuel with
  | O => after_loop
  | S fuel =>
      if iNdEx <? l
      then ProtocolVersion_Unmarshal_turn
             (fun m iNdEx => ProtocolVersion_Unmarshal_loop fuel m dAtA iNdEx)
             m dAtA iNdEx
      else after_loop
  end.

Definition ProtocolVersion_Unmarshal (m : ProtocolVersion) (dAtA : list Z)
    : run (ProtocolVersion * option codec_error) :=
  ProtocolVersion_Unmarshal_loop (length dAtA) m dAtA 0.

(** [MarshalTo] writes through [dAtA[:size]], which Go checks against the
    capacity of the caller's slice; the caller's slice as it is after the
    call is returned with the result. *)
Definition ProtocolVersion_MarshalTo (m : ProtocolVersion) (dAtA : slice Z)
    : run (slice Z * Z * option codec_error) :=
  let size := ProtocolVersion_Size m in
  let backing := items dAtA ++ spare dAtA in
  buffer ← slice_to backing size;
  '(buffer, n, err) ← ProtocolVersion_MarshalToSizedBuffer m buffer;
  let backing := buffer ++ drop (Z.to_nat size) backing in
  mret (mkSlice (take (len dAtA) backing) (drop (len dAtA) backing), n, err).
(** The bytes [encodeVarintTypes] writes for [v]: seven bits at a time from
    the low end, every byte but the last with its top bit set. *)
Fixpoint varint_bytes (fuel : nat) (v : Z) : list Z :=
  match fuel with
  | S fuel =>
      if v >=? 2 ^ 7
      then uint8 (Z.lor (Z.land v 127) 128) :: varint_bytes fuel (Z.shiftr v 7)
      else [uint8 v]
  | O => [uint8 v]
  end.

Definition varint (v : Z) : list Z := varint_bytes (Z.to_nat (Z.log2 v)) v.

(** A field on the wire: nothing when it is zero, else its tag byte and its
    varint; and the three fields of a [ProtocolVersion] in the order of
    their numbers. *)
Definition field_bytes (tag v : Z) : list Z :=
  if v =? 0 then [] else tag :: varint v.

Definition encoding (m : ProtocolVersion) : list Z :=
  field_bytes 8 (P2P m) ++ field_bytes 16 (Block m) ++ field_bytes 24 (App m).

(** The message in which the fields of [m] that are not zero replace those
    of [m0]. *)
Definition overlay (m0 m : ProtocolVersion) : ProtocolVersion :=
  mkProtocolVersion
    (if P2P m =? 0 then P2P m0 else P2P m)
    (if Block m =? 0 then Block m0 else Block m)
    (if App m =? 0 then App m0 else App m).

Definition well_typed (m : ProtocolVersion) : Prop :=
  is_uint64 (P2P m) /\ is_uint64 (Block m) /\ is_uint64 (App m).

Fixpoint shifts_from (shift : Z) (n : nat) : list Z :=
  match n with
  | O => []
  | S n => shift :: shifts_from (shift + 7) n
  end.

(** Sample messages and inputs of the p2p codec. *)
Definition version : ProtocolVersion := mkProtocolVersion 8 11 1.
Definition wide_version : ProtocolVersion := mkProtocolVersion 300 0 (2 ^ 64 - 1).
Definition no_version : ProtocolVersion := mkProtocolVersion 0 0 0.

(** *** DefaultNodeInfoOther

    A message of two [string] fields. A Go string is the sequence of its
    bytes. *)

Record DefaultNodeInfoOther : Type := mkDefaultNodeInfoOther
  { TxIndex : list Z; RPCAddress : list Z }.

Definition DefaultNodeInfoOther_Size (m : DefaultNodeInfoOther) : Z :=
  let n := 0 in
  let l := Z.of_nat (length (TxIndex m)) in
  let n := if l >? 0 then int_add n (int_add (int_add 1 l) (sovTypes l)) else n in
  let l := Z.of_nat (length (RPCAddress m)) in
  let n := if l >? 0 then int_add n (int_add (int_add 1 l) (sovTypes l)) else n in
  n.

(** [copy(dAtA[i:], s)]: as many bytes as the shorter of the two has, written
    through to the caller's buffer. *)
Definition copy_at (dAtA : list Z) (i : Z) (s : list Z) : run (list Z) :=
  dst ← slice_from dAtA i;
  mret (take (Z.to_nat i) dAtA ++ take (length dst) s ++ drop (length s) dst).

(** [MarshalToSizedBuffer] fills the buffer from its end: [RPCAddress], then
    [TxIndex], each only when it is not empty. *)
Definition DefaultNodeInfoOther_MarshalToSizedBuffer (m : DefaultNodeInfoOther)
    (dAtA : list Z) : run (list Z * Z * option codec_error) :=
  let i := Z.of_nat (length dAtA) in
  '(dAtA, i) ←
    (if Z.of_nat (length (RPCAddress m)) >? 0 then
       let i := i - Z.of_nat (length (RPCAddress m)) in
       dAtA ← copy_at dAtA i (RPCAddress m);
       '(dAtA, i) ← encodeVarintTypes dAtA i (Z.of_nat (length (RPCAddress m)));
       let i := i - 1 in
       dAtA ← store dAtA i 18;
       mret (dAtA, i)
     else mret (dAtA, i));
  '(dAtA, i) ←
    (if Z.of_nat (length (TxIndex m)) >? 0 then
       let i := i - Z.of_nat (length (TxIndex m)) in
       dAtA ← copy_at dAtA i (TxIndex m);
       '(dAtA, i) ← encodeVarintTypes dAtA i (Z.of_nat (length (TxIndex m)));
       let i := i - 1 in
       dAtA ← store dAtA i 10;
       mret (dAtA, i)
     else mret (dAtA, i));
  mret (dAtA, Z.of_nat (length dAtA) - i, None).

Definition DefaultNodeInfoOther_Marshal (m : DefaultNodeInfoOther)
    : run (list Z * option codec_error) :=
  let size := DefaultNodeInfoOther_Size m in
  dAtA ← (if 0 <=? size then Done (replicate (Z.to_nat size) 0)
          else Fault (makeslice_fault size));
  buffer ← slice_to dAtA size;
  '(dAtA, n, err) ← DefaultNodeInfoOther_MarshalToSizedBuffer m buffer;
  match err with
  | Some err => mret ([], Some err)
  | None => dAtA ← slice_to dAtA n; mret (dAtA, None)
  end.

(** [dAtA[lo:hi]] of a slice whose capacity is its length. *)
Definition slice_range (dAtA : list Z) (lo hi : Z) : run (list Z) :=
  if (0 <=? lo) && (lo <=? hi) && (hi <=? Z.of_nat (length dAtA))
  then Done (take (Z.to_nat (hi - lo)) (drop (Z.to_nat lo) dAtA))
  else Fault (slice_fault lo hi (length dAtA)).

(** The code that reads a [string] field, as it stands twice in
    [DefaultNodeInfoOther.Unmarshal]: the string, the index after it, and the
    error if the code returned one. *)
Definition read_string (dAtA : list Z) (iNdEx : Z)
    : run (list Z * Z * option codec_error) :=
  let l := Z.of_nat (length dAtA) in
  '(stringLen, iNdEx, err) ← read_uint64 shifts dAtA iNdEx 0;
  match err with
  | Some err => mret ([], iNdEx, Some err)
  | None =>
      let intStringLen := wrap64 stringLen in
      if intStringLen <? 0 then mret ([], iNdEx, Some ErrInvalidLengthTypes)
      else
        let postIndex := int_add iNdEx intStringLen in
        if postIndex <? 0 then mret ([], iNdEx, Some ErrInvalidLengthTypes)
        else if postIndex >? l then mret ([], iNdEx, Some io_ErrUnexpectedEOF)
        else
          s ← slice_range dAtA iNdEx postIndex;
          mret (s, postIndex, None)
  end.

(** One turn of the loop [for iNdEx < l] of [DefaultNodeInfoOther.Unmarshal];
    [again] is the rest of the loop. A field is assigned only once its string
    has been read. *)
Definition DefaultNodeInfoOther_Unmarshal_turn
    (again : DefaultNodeInfoOther -> Z
             -> run (DefaultNodeInfoOther * option codec_error))
    (m : DefaultNodeInfoOther) (dAtA : list Z) (iNdEx : Z)
    : run (DefaultNodeInfoOther * option codec_error) :=
  let l := Z.of_nat (length dAtA) in
  let preIndex := iNdEx in
  '(wire, iNdEx, err) ← read_uint64 shifts dAtA iNdEx 0;
  match err with
  | Some err => mret (m, Some err)
  | None =>
      let fieldNum := wrap32 (Z.shiftr wire 3) in
      let wireType := Z.land wire 7 in
      if wireType =? 4 then
        mret (m, Some (fmt_Errorf
                 "proto: DefaultNodeInfoOther: wiretype end group for non-group" []))
      else if fieldNum <=? 0 then
        mret (m, Some (fmt_Errorf
                 "proto: DefaultNodeInfoOther: illegal tag %d (wire type %d)"
                 [fieldNum; wire]))
      else if fieldNum =? 1 then
        if negb (wireType =? 2) then
          mret (m, Some (fmt_Errorf
                   "proto: wrong wireType = %d for field TxIndex" [wireType]))
        else
          '(s, iNdEx, err) ← read_string dAtA iNdEx;
          match err with
          | Some err => mret (m, Some err)
          | None => again (mkDefaultNodeInfoOther s (RPCAddress m)) iNdEx
          end
      else if fieldNum =? 2 then
        if negb (wireType =? 2) then
          mret (m, Some (fmt_Errorf
                   "proto: wrong wireType = %d for field RPCAddress" [wireType]))
        else
          '(s, iNdEx, err) ← read_string dAtA iNdEx;
          match err with
          | Some err => mret (m, Some err)
          | None => again (mkDefaultNodeInfoOther (TxIndex m) s) iNdEx
          end
      else
        let iNdEx := preIndex in
        rest ← slice_from dAtA iNdEx;
        '(skippy, err) ← skipTypes rest;
        match err with
        | Some err => mret (m, Some err)
        | None =>
            if (skippy <? 0) || (int_add iNdEx skippy <? 0)
            then mret (m, Some ErrInvalidLengthTypes)
            else if int_add iNdEx skippy >? l
                 then mret (m, Some io_ErrUnexpectedEOF)
                 else again m (int_add iNdEx skippy)
        end
  end.

(** The loop itself, and what follows it. Every turn that goes on has moved
    the index forward, so a fuel of [len(dAtA)] is never used up. *)
Fixpoint DefaultNodeInfoOther_Unmarshal_loop (fuel : nat) (m : DefaultNodeInfoOther)
    (dAtA : list Z) (iNdEx : Z) : run (DefaultNodeInfoOther * option codec_error) :=
  let l := Z.of_nat (length dAtA) in
  let after_loop :=
    if iNdEx >? l then mret (m, Some io_ErrUnexpectedEOF) else mret (m, None) in
  match fuel with
  | O => after_loop
  | S fuel =>
      if iNdEx <? l
      then DefaultNodeInfoOther_Unmarshal_turn
             (fun m iNdEx => DefaultNodeInfoOther_Unmarshal_loop fuel m dAtA iNdEx)
             m dAtA iNdEx
      else after_loop
  end.

Definition DefaultNodeInfoOther_Unmarshal (m : DefaultNodeInfoOther) (dAtA : list Z)
    : run (DefaultNodeInfoOther * option codec_error) :=
  DefaultNodeInfoOther_Unmarshal_loop (length dAtA) m dAtA 0.

(** A [string] field on the wire: nothing when the string is empty, else its
    tag byte, the varint of its length and its bytes; and the two fields of a
    [DefaultNodeInfoOther] in the order of their numbers. *)
Definition string_field_bytes (tag : Z) (s : list Z) : list Z :=
  if Z.of_nat (length s) >? 0
  then tag :: varint (Z.of_nat (length s)) ++ s
  else [].

Definition other_encoding (m : DefaultNodeInfoOther) : list Z :=
  string_field_bytes 10 (TxIndex m) ++ string_field_bytes 18 (RPCAddress m).

(** The message in which the fields of [m] that are not empty replace those
    of [m0]. *)
Definition other_overlay (m0 m : DefaultNodeInfoOther) : DefaultNodeInfoOther :=
  mkDefaultNodeInfoOther
    (if Z.of_nat (length (TxIndex m)) >? 0 then TxIndex m else TxIndex m0)
    (if Z.of_nat (length (RPCAddress m)) >? 0 then RPCAddress m else RPCAddress m0).

(** The strings of the message, with the bytes that frame them on the wire,
    fit a Go slice. *)
Definition fits_int (m : DefaultNodeInfoOther) : Prop :=
  Z.of_nat (length (TxIndex m)) + Z.of_nat (length (RPCAddress m)) + 22 < 2 ^ 63.

Definition no_other : DefaultNodeInfoOther := mkDefaultNodeInfoOther [] [].
Definition other : DefaultNodeInfoOther :=
  mkDefaultNodeInfoOther [111; 110] [116; 99; 112; 58; 47; 47; 48; 46; 48; 46; 48; 46; 48].

(** ** Wire conversion: facts *)

Lemma assign_fill {A} (filled : list A) (d x : A) (m : nat) :
  assign (filled ++ replicate (S m) d) (length filled) x
  = Returned ((filled ++ [x]) ++ replicate m d).
Proof.
  unfold assign. rewrite length_app, length_replicate.
  destruct (decide (length filled < length filled + S m)%nat) as [_|Hn]; [|lia].
  f_equal. rewrite insert_app_r_alt by lia.
  replace (length filled - length filled)%nat with 0%nat by lia.
  simpl. by rewrite <- app_assoc.
Qed.

Lemma index_lookup {A} (l : list A) (i : nat) (x : A) :
  l !! i = Some x -> index l i = Returned x.
Proof. intros H. unfold index. by rewrite H. Qed.

(** The decoding loop fills the two slices from the left: after the indices
    [k, ..., k+n-1] the first [k+n] slots hold the copies and the rest are
    still zero. *)
Lemma ShareProofFromProto_loop_fills (rp : tmproto.RowProof) (ps : list crypto.Proof) :
  tmproto.Proofs rp = Some <$> ps ->
  forall n k,
    (k + n <= length ps)%nat ->
    (k + n <= length (tmproto.RowRoots rp))%nat ->
    ShareProofFromProto_loop rp (seq k n)
      (take k (tmproto.RowRoots rp)
         ++ replicate (length (tmproto.RowRoots rp) - k) [])
      ((Some ∘ merkle_of <$> take k ps) ++ replicate (length ps - k) None)
    = Returned
        (take (k + n) (tmproto.RowRoots rp)
           ++ replicate (length (tmproto.RowRoots rp) - (k + n)) [],
         (Some ∘ merkle_of <$> take (k + n) ps)
           ++ replicate (length ps - (k + n)) None).
Proof.
  intros Hps n. induction n as [|n IH]; intros k Hk Hr.
  - simpl. by rewrite Nat.add_0_r.
  - destruct (lookup_lt_is_Some_2 (tmproto.RowRoots rp) k) as [r Hrk]; [lia|].
    destruct (lookup_lt_is_Some_2 ps k) as [m Hmk]; [lia|].
    cbn [seq ShareProofFromProto_loop].
    rewrite (index_lookup _ _ _ Hrk). cbn [mbind outcome_mbind outcome_bind].
    replace (length (tmproto.RowRoots rp) - k)%nat
      with (S (length (tmproto.RowRoots rp) - S k)) by lia.
    pose proof (assign_fill (take k (tmproto.RowRoots rp)) [] r
                  (length (tmproto.RowRoots rp) - S k)) as Ha.
    rewrite length_take_le in Ha by lia. rewrite Ha. clear Ha.
    cbn [mbind outcome_mbind outcome_bind].
    rewrite (index_lookup (tmproto.Proofs rp) k (Some m))
      by (rewrite Hps, list_lookup_fmap, Hmk; done).
    cbn [mbind outcome_mbind outcome_bind].
    replace (length ps - k)%nat with (S (length ps - S k)) by lia.
    pose proof (assign_fill (Some ∘ merkle_of <$> take k ps) None
                  (Some (merkle_of m)) (length ps - S k)) as Hb.
    rewrite length_fmap, length_take_le in Hb by lia.
    change (merkle.mkProof (crypto.Total m) (crypto.Index m)
              (crypto.LeafHash m) (crypto.Aunts m)) with (merkle_of m).
    rewrite Hb. clear Hb.
    cbn [mbind outcome_mbind outcome_bind].
    rewrite <- (take_S_r _ _ _ Hrk).
    change [Some (merkle_of m)] with (Some ∘ merkle_of <$> [m]).
    rewrite <- fmap_app, <- (take_S_r _ _ _ Hmk).
    rewrite (IH (S k)) by lia.
    by replace (S k + n)%nat with (k + S n)%nat by lia.
Qed.

(** The encoding loop, likewise. *)
Lemma ToProto_loop_fills (rp : RowProof) :
  forall n k,
    (k + n <= length (RowRoots rp))%nat ->
    (k + n <= length (Proofs rp))%nat ->
    ToProto_loop rp (seq k n)
      (take k (RowRoots rp) ++ replicate (length (RowRoots rp) - k) [])
      ((merkle_Proof_ToProto <$> take k (Proofs rp))
         ++ replicate (length (Proofs rp) - k) None)
    = Returned
        (take (k + n) (RowRoots rp)
           ++ replicate (length (RowRoots rp) - (k + n)) [],
         (merkle_Proof_ToProto <$> take (k + n) (Proofs rp))
           ++ replicate (length (Proofs rp) - (k + n)) None).
Proof.
  induction n as [|n IH]; intros k Hr Hp.
  - simpl. by rewrite Nat.add_0_r.
  - destruct (lookup_lt_is_Some_2 (RowRoots rp) k) as [r Hrk]; [lia|].
    destruct (lookup_lt_is_Some_2 (Proofs rp) k) as [m Hmk]; [lia|].
    cbn [seq ToProto_loop].
    rewrite (index_lookup _ _ _ Hrk). cbn [mbind outcome_mbind outcome_bind].
    replace (length (RowRoots rp) - k)%nat
      with (S (length (RowRoots rp) - S k)) by lia.
    pose proof (assign_fill (take k (RowRoots rp)) [] r
                  (length (RowRoots rp) - S k)) as Ha.
    rewrite length_take_le in Ha by lia.
    unfold HexBytes_Bytes. rewrite Ha. clear Ha.
    cbn [mbind outcome_mbind outcome_bind].
    rewrite (index_lookup _ _ _ Hmk). cbn [mbind outcome_mbind outcome_bind].
    replace (length (Proofs rp) - k)%nat
      with (S (length (Proofs rp) - S k)) by lia.
    pose proof (assign_fill (merkle_Proof_ToProto <$> take k (Proofs rp)) None
                  (merkle_Proof_ToProto m) (length (Proofs rp) - S k)) as Hb.
    rewrite length_fmap, length_take_le in Hb by lia.
    rewrite Hb. clear Hb.
    cbn [mbind outcome_mbind outcome_bind].
    rewrite <- (take_S_r _ _ _ Hrk).
    change [merkle_Proof_ToProto m] with (merkle_Proof_ToProto <$> [m]).
    rewrite <- fmap_app, <- (take_S_r _ _ _ Hmk).
    rewrite (IH (S k)) by lia.
    by replace (S k + n)%nat with (k + S n)%nat by lia.
Qed.

Lemma merkle_Proof_ToProto_merkle_of (m : crypto.Proof) :
  merkle_Proof_ToProto (Some (merkle_of m)) = Some m.
Proof. by destruct m. Qed.

(** What the decoder returns on a message whose [RowProof] is present, whose
    proofs are all present and no more numerous than the row roots. *)
Lemma ShareProofFromProto_returns {E} (pb : tmproto.ShareProof)
    (rp : tmproto.RowProof) (ps : list crypto.Proof) :
  tmproto.RowProof_ pb = Some rp ->
  tmproto.Proofs rp = Some <$> ps ->
  (length ps <= length (tmproto.RowRoots rp))%nat ->
  ShareProofFromProto (E := E) pb
  = Returned
      (mkShareProof (tmproto.Data pb) (tmproto.ShareProofs pb) (tmproto.NamespaceId pb)
         (mkRowProof
            (take (length ps) (tmproto.RowRoots rp)
               ++ replicate (length (tmproto.RowRoots rp) - length ps) [])
            (Some ∘ merkle_of <$> ps)
            (tmproto.StartRow rp) (tmproto.EndRow rp)),
       None).
Proof.
  intros Hrp Hps Hle. unfold ShareProofFromProto. rewrite Hrp.
  pose proof (ShareProofFromProto_loop_fills rp ps Hps (length ps) 0) as Hloop.
  rewrite !Nat.sub_0_r in Hloop. simpl in Hloop.
  assert (length (tmproto.Proofs rp) = length ps) as Hlen
    by (by rewrite Hps, length_fmap).
  rewrite Hlen, Hloop by lia.
  cbn [mbind outcome_mbind outcome_bind mret outcome_mret].
  by rewrite Nat.sub_diag, firstn_all, app_nil_r.
Qed.

(** What the encoder returns when there is a proof for every row root. *)
Lemma ToProto_returns (sp : ShareProof) :
  (length (RowRoots (RowProof_ sp)) <= length (Proofs (RowProof_ sp)))%nat ->
  ToProto sp
  = Returned
      (tmproto.mkShareProof (Data sp) (ShareProofs sp) (NamespaceID sp)
         (Some (tmproto.mkRowProof
                  (RowRoots (RowProof_ sp))
                  ((merkle_Proof_ToProto
                      <$> take (length (RowRoots (RowProof_ sp))) (Proofs (RowProof_ sp)))
                     ++ replicate (length (Proofs (RowProof_ sp))
                                   - length (RowRoots (RowProof_ sp))) None)
                  (StartRow (RowProof_ sp)) (EndRow (RowProof_ sp))))).
Proof.
  intros Hle. unfold ToProto.
  pose proof (ToProto_loop_fills (RowProof_ sp)
                (length (RowRoots (RowProof_ sp))) 0) as Hloop.
  rewrite !Nat.sub_0_r in Hloop. simpl in Hloop.
  rewrite Hloop by lia.
  cbn [mbind outcome_mbind outcome_bind mret outcome_mret].
  by rewrite Nat.sub_diag, firstn_all, app_nil_r.
Qed.

(** C7, amended. Round trip: for every well-formed wire message [pb] (the
    RowProof present, as many row roots as proofs) in which no proof is nil,
    [ShareProofFromProto pb] returns a proof [sp] with a nil error, and
    [ToProto sp] returns [pb] itself: the fields [Data], [ShareProofs],
    [NamespaceId], [RowProof.RowRoots], [RowProof.Proofs], [StartRow] and
    [EndRow] are all reproduced. *)
Theorem ToProto_ShareProofFromProto_roundtrip {E} (pb : tmproto.ShareProof) :
  well_formed pb ->
  proofs_present pb ->
  exists sp,
    ShareProofFromProto (E := E) pb = Returned (sp, None)
    /\ ToProto sp = Returned pb.
Proof.
  intros (rp & Hrp & Hlen) Hall. specialize (Hall rp Hrp).
  assert (exists ps, tmproto.Proofs rp = Some <$> ps) as [ps Hps].
  { clear Hlen. induction Hall as [|o l [m ->] _ [ps ->]].
    - by exists [].
    - by exists (m :: ps). }
  assert (length ps = length (tmproto.RowRoots rp)) as Heq
    by (by rewrite Hlen, Hps, length_fmap).
  eexists. split.
  - apply (ShareProofFromProto_returns pb rp ps Hrp Hps). lia.
  - rewrite ToProto_returns; cbn [RowProof_ RowRoots Proofs]; 
      rewrite Heq, Nat.sub_diag, firstn_all, app_nil_r, ?length_fmap; [|lia].
    f_equal. cbn [Data ShareProofs NamespaceID StartRow EndRow].
    rewrite Heq, Nat.sub_diag, app_nil_r, <- Heq.
    rewrite <- (length_fmap (Some ∘ merkle_of) ps), firstn_all.
    rewrite <- list_fmap_compose.
    rewrite (list_fmap_ext _ Some ps)
      by (intros; apply merkle_Proof_ToProto_merkle_of).
    rewrite <- Hps. destruct pb as [d s n r]. simpl in *. subst r. by destruct rp.
Qed.

Lemma pb_two_rows_well_formed : well_formed pb_two_rows.
Proof. eexists. split; reflexivity. Defined.

Lemma pb_two_rows_proofs_present : proofs_present pb_two_rows.
Proof. intros rp [= <-]. repeat constructor; by eexists. Defined.

Lemma roundtrip_pb_two_rows :
  (well_formed pb_two_rows /\ proofs_present pb_two_rows)
  /\ exists sp,
      ShareProofFromProto (E := string) pb_two_rows = Returned (sp, None)
      /\ ToProto sp = Returned pb_two_rows.
Proof.
  split; [split; [exact pb_two_rows_well_formed|exact pb_two_rows_proofs_present]|].
  exact (ToProto_ShareProofFromProto_roundtrip pb_two_rows
           pb_two_rows_well_formed pb_two_rows_proofs_present).
Defined.

(** A well-formed message (the RowProof present, one row root and one proof)
    on which there is no round trip: its proof is nil, and the decoder
    panics when it reads the proof's fields. *)
Lemma ShareProofFromProto_panics_on_nil_proof :
  well_formed pb_nil_proof
  /\ ShareProofFromProto (E := string) pb_nil_proof
     = Panicked nil_pointer_dereference.
Proof. split; [eexists; split; reflexivity|reflexivity]. Qed.


(** ** Validation: facts *)

Lemma wrap32_small (z : Z) : is_int32 z -> wrap32 z = z.
Proof.
  unfold is_int32, MinInt32, MaxInt32, wrap32. intros H.
  rewrite Z.mod_small; lia.
Qed.

Lemma wrap32_add_l (a b : Z) : wrap32 (wrap32 a + b) = wrap32 (a + b).
Proof.
  unfold wrap32. f_equal.
  replace ((a + 2 ^ 31) mod 2 ^ 32 - 2 ^ 31 + b + 2 ^ 31)
    with ((a + 2 ^ 31) mod 2 ^ 32 + b) by lia.
  rewrite Z.add_mod_idemp_l by lia. f_equal. lia.
Qed.

Lemma wrap32_add_r (a b : Z) : wrap32 (a + wrap32 b) = wrap32 (a + b).
Proof. by rewrite (Z.add_comm a), wrap32_add_l, Z.add_comm. Qed.

(** Two integers wrap to the same [int32] exactly when they are congruent
    modulo [2^32]. *)
Lemma wrap32_congruent (a b : Z) :
  wrap32 a = wrap32 b <-> (a - b) mod 2 ^ 32 = 0.
Proof.
  unfold wrap32.
  replace (a - b) with ((a + 2 ^ 31) - (b + 2 ^ 31)) by lia.
  rewrite <- Z.cong_iff_0. split; intros H; lia.
Qed.

Lemma pointees_fmap_Some {A} (xs : list A) : pointees (Some <$> xs) = xs.
Proof.
  induction xs as [|x xs IH]; [done|].
  unfold pointees in *. cbn [fmap list_fmap omap list_omap id]. by f_equal.
Qed.

Lemma Forall_is_Some_fmap {A} (l : list (option A)) :
  Forall is_Some l -> exists xs, l = Some <$> xs.
Proof.
  induction 1 as [|o l [x ->] _ [xs ->]]; [by exists []|by exists (x :: xs)].
Qed.

Lemma Forall_is_Some_pointees {A} (l : list (option A)) :
  Forall is_Some l -> l = Some <$> pointees l.
Proof.
  intros H. destruct (Forall_is_Some_fmap l H) as [xs ->].
  by rewrite pointees_fmap_Some.
Qed.

Lemma fmap_Some_is_Some {A} (xs : list A) : Forall is_Some (Some <$> xs).
Proof. induction xs; constructor; [by eexists|done]. Qed.

(** The running sum of the first loop is the declared share count, wrapped. *)
Lemma numberOfSharesInProofs_loop_sum (proofs : list tmproto.NMTProof) :
  forall acc,
    numberOfSharesInProofs_loop (wrap32 acc) (Some <$> proofs)
    = Returned (wrap32 (acc + declared_shares proofs)).
Proof.
  induction proofs as [|proof rest IH]; intros acc; simpl.
  - by rewrite Z.add_0_r.
  - unfold int32_add, int32_sub. rewrite wrap32_add_l, wrap32_add_r, IH.
    do 2 f_equal. lia.
Qed.

(** The first loop panics at the first row that is nil. *)
Lemma numberOfSharesInProofs_loop_nil (proofs : list (option tmproto.NMTProof)) :
  forall n,
    ~ Forall is_Some proofs ->
    numberOfSharesInProofs_loop n proofs = Panicked nil_pointer_dereference.
Proof.
  induction proofs as [|[proof|] rest IH]; intros n Hnil; simpl.
  - destruct Hnil. constructor.
  - apply IH. intros Hrest. apply Hnil. constructor; [by eexists|done].
  - done.
Qed.

Lemma numberOfSharesInProofs_wrapped (sp : ShareProof) :
  Forall is_Some (ShareProofs sp) ->
  numberOfSharesInProofs sp
  = Returned (wrap32 (declared_shares (pointees (ShareProofs sp)))).
Proof.
  intros Hall. unfold numberOfSharesInProofs.
  rewrite (Forall_is_Some_pointees _ Hall) at 1.
  change 0 with (wrap32 0) at 1. by rewrite numberOfSharesInProofs_loop_sum.
Qed.

Lemma numberOfSharesInProofs_nil (sp : ShareProof) :
  ~ Forall is_Some (ShareProofs sp) ->
  numberOfSharesInProofs sp = Panicked nil_pointer_dereference.
Proof. apply numberOfSharesInProofs_loop_nil. Qed.

(** When the first loop returns, no row is nil. *)
Lemma numberOfSharesInProofs_returned (sp : ShareProof) (n : Z) :
  numberOfSharesInProofs sp = Returned n -> Forall is_Some (ShareProofs sp).
Proof.
  intros Hn. destruct (decide (Forall is_Some (ShareProofs sp))) as [|Hnil]; [done|].
  by rewrite (numberOfSharesInProofs_nil sp Hnil) in Hn.
Qed.

Lemma counts_agree_no_nil (sp : ShareProof) :
  counts_agree sp = true -> Forall is_Some (ShareProofs sp).
Proof.
  unfold counts_agree.
  destruct (numberOfSharesInProofs sp) as [n|p] eqn:Hn; [|done].
  intros _. by apply (numberOfSharesInProofs_returned sp n).
Qed.

(** On rows none of which is nil, the range loop returns. *)
Lemma check_ranges_returns {E} (proofs : list (option tmproto.NMTProof)) :
  Forall is_Some proofs ->
  exists bad : option (error E), check_ranges proofs = Returned bad.
Proof.
  induction 1 as [|row rest [proof ->] _ IH]; simpl; [by eexists|].
  destruct (_ <? 0); [by eexists|].
  destruct (_ <=? 0); [by eexists|done].
Qed.

(** Every error that the range loop returns is a range error. *)
Lemma check_ranges_kind {E} (proofs : list (option tmproto.NMTProof)) (err : error E) :
  check_ranges proofs = Returned (Some err) -> kind_of err = Some InvalidRange.
Proof.
  induction proofs as [|[proof|] rest IH]; simpl; [done| |done].
  destruct (_ <? 0); [by intros [= <-]|].
  destruct (_ <=? 0); [by intros [= <-]|done].
Qed.

Lemma world_eta (w : World) :
  mkWorld (caller_proof w) (caller_root w) (trace w ++ []) = w.
Proof. destruct w. simpl. by rewrite app_nil_r. Qed.

Lemma declared_shares_nonneg (proofs : list tmproto.NMTProof) :
  Forall (fun proof => tmproto.Start proof <= tmproto.End proof) proofs ->
  0 <= declared_shares proofs.
Proof. induction 1; simpl; lia. Qed.

(** A slice expression that stays within the length yields the entries of
    the slice itself. *)
Lemma reslice_within {A} (s : slice A) (cursor n : nat) :
  (cursor + n <= len s)%nat ->
  reslice s (Z.of_nat cursor) (Z.of_nat n + Z.of_nat cursor)
  = Returned (take n (drop cursor (items s))).
Proof.
  unfold len, reslice, cap. intros H. rewrite length_app.
  replace ((0 <=? Z.of_nat cursor)
           && (Z.of_nat cursor <=? Z.of_nat n + Z.of_nat cursor)
           && (Z.of_nat n + Z.of_nat cursor
               <=? Z.of_nat (length (items s) + length (spare s))))
    with true by (symmetry; rewrite !andb_true_iff, !Z.leb_le; lia).
  f_equal.
  replace (Z.to_nat (Z.of_nat n + Z.of_nat cursor - Z.of_nat cursor)) with n by lia.
  rewrite Nat2Z.id, drop_app_le by lia.
  apply take_app_le. rewrite length_drop. lia.
Qed.

Section ValidationFacts.

(** The two collaborators: [V] is the row-inclusion verifier
    ([VerifyInclusion]) and [R] is [RowProof.Validate]. *)
Context {E : Type}.
Variable V : Z -> Z -> list bytes -> bytes -> list bytes -> HexBytes -> bool.
Variable R : RowProof -> bytes -> option E.

(** A run of the row loop is a function of its arguments alone: whatever the
    world it starts in, it ends with the same result, leaves what the caller
    owns as it was, and adds the same calls, all of them to the row-inclusion
    verifier. *)
Lemma VerifyProof_loop_run (sp : ShareProof) (proofs : list (option tmproto.NMTProof)) :
  forall i cursor,
  exists r cs,
    Forall is_VerifyInclusion_call cs
    /\ forall w,
        VerifyProof_loop V sp i cursor proofs w
        = (r, mkWorld (caller_proof w) (caller_root w) (trace w ++ cs)).
Proof.
  induction proofs as [|row rest IH]; intros i cursor.
  - exists (Returned true), []. split; [constructor|].
    intros w. simpl. unfold ret. by rewrite world_eta.
  - cbn [VerifyProof_loop]. unfold bind, lift.
    destruct row as [proof|]; cbn [deref].
    2:{ exists (Panicked nil_pointer_dereference), []. split; [constructor|].
        intros w. by rewrite world_eta. }
    destruct (reslice (Data sp) cursor _) as [leaves|p].
    2:{ exists (Panicked p), []. split; [constructor|].
        intros w. by rewrite world_eta. }
    destruct (index (RowRoots (RowProof_ sp)) i) as [rowRoot|p].
    2:{ exists (Panicked p), []. split; [constructor|].
        intros w. by rewrite world_eta. }
    unfold call_VerifyInclusion, bind, record, ret. cbn [trace caller_proof caller_root].
    destruct (V _ _ _ _ leaves rowRoot) eqn:Hv; cbn [negb].
    + destruct (IH (S i) (int32_add cursor
                  (int32_sub (tmproto.End proof) (tmproto.Start proof))))
        as (r & cs & Hcs & Hrun).
      exists r, (nmt_VerifyInclusion (tmproto.Start proof) (tmproto.End proof)
                   (tmproto.Nodes proof) (NamespaceID sp) leaves rowRoot :: cs).
      split; [by constructor|].
      intros w. rewrite Hrun. cbn [trace caller_proof caller_root].
      by rewrite <- app_assoc.
    + exists (Returned false),
        [nmt_VerifyInclusion (tmproto.Start proof) (tmproto.End proof)
           (tmproto.Nodes proof) (NamespaceID sp) leaves rowRoot].
      split; [by repeat constructor|].
      intros w. reflexivity.
Qed.

Lemma VerifyProof_run (sp : ShareProof) :
  exists r cs,
    Forall is_VerifyInclusion_call cs
    /\ forall w,
        VerifyProof V sp w
        = (r, mkWorld (caller_proof w) (caller_root w) (trace w ++ cs)).
Proof. apply VerifyProof_loop_run. Qed.

(** [Validate], read off step by step. *)
Lemma Validate_unfold (sp : ShareProof) (root : bytes) (w : World) :
  Validate V R sp root w
  = match numberOfSharesInProofs sp with
    | Panicked p => (Panicked p, w)
    | Returned _ =>
        if counts_agree sp then
          match check_ranges (ShareProofs sp) with
          | Panicked p => (Panicked p, w)
          | Returned (Some err) => (Returned (Some err), w)
          | Returned None =>
              match VerifyProof V sp w with
              | (Returned true, w') =>
                  (Returned (RowProof_error <$> R (RowProof_ sp) root),
                   mkWorld (caller_proof w') (caller_root w')
                     (trace w' ++ [RowProof_Validate_call (RowProof_ sp) root]))
              | (Returned false, w') =>
                  (Returned (Some (errors_New text_inconsistent)), w')
              | (Panicked p, w') => (Panicked p, w')
              end
          end
        else (Returned (Some (errors_New text_counts)), w)
    end.
Proof.
  unfold Validate, counts_agree, bind at 1, lift at 1.
  destruct (numberOfSharesInProofs sp) as [n|p]; [|done].
  destruct (_ =? _)%nat; cbn [negb orb andb]; [|done].
  destruct (_ =? _); cbn [negb]; [|done].
  unfold bind at 1, lift at 1.
  destruct (check_ranges _) as [[err|]|p]; [done| |done].
  unfold bind. destruct (VerifyProof V sp w) as [[[|]|p] w']; cbn [negb]; try done.
  unfold call_RowProof_Validate, bind, record, ret.
  by destruct (R _ _).
Qed.

(** Once the count check has passed, the range loop does not panic. *)
Lemma Validate_unfold_counts_agree (sp : ShareProof) (root : bytes) (w : World) :
  counts_agree sp = true ->
  exists bad,
    check_ranges (E := E) (ShareProofs sp) = Returned bad
    /\ Validate V R sp root w
       = match bad with
         | Some err => (Returned (Some err), w)
         | None =>
             match VerifyProof V sp w with
             | (Returned true, w') =>
                 (Returned (RowProof_error <$> R (RowProof_ sp) root),
                  mkWorld (caller_proof w') (caller_root w')
                    (trace w' ++ [RowProof_Validate_call (RowProof_ sp) root]))
             | (Returned false, w') =>
                 (Returned (Some (errors_New text_inconsistent)), w')
             | (Panicked p, w') => (Panicked p, w')
             end
         end.
Proof.
  intros Hc. pose proof (counts_agree_no_nil sp Hc) as Hall.
  destruct (check_ranges_returns (E := E) _ Hall) as [bad Hbad].
  exists bad. split; [done|].
  rewrite Validate_unfold, Hc, Hbad.
  unfold counts_agree in Hc. destruct (numberOfSharesInProofs sp); [|done].
  by destruct bad.
Qed.

(** C1. [Validate] runs its four steps in the order count consistency, range
    sanity, [VerifyProof], [RowProof.Validate]. It returns nil exactly when
    all four pass. A failing step ends the run: a first loop that panics (on
    a nil row), a count mismatch or a bad range ends it with no verifier
    called; a false (or panicking) [VerifyProof] returns before
    [RowProof.Validate] is called; and [RowProof.Validate] is called last,
    after all the calls of [VerifyProof], which are calls to the
    row-inclusion verifier only. *)
Theorem Validate_four_steps_in_order (sp : ShareProof) (root : bytes) (w : World) :
  (fst (Validate V R sp root w) = Returned None
   <-> counts_agree sp = true
       /\ check_ranges (E := E) (ShareProofs sp) = Returned None
       /\ fst (VerifyProof V sp w) = Returned true
       /\ R (RowProof_ sp) root = None)
  /\ (forall p, numberOfSharesInProofs sp = Panicked p ->
      Validate V R sp root w = (Panicked p, w))
  /\ (forall n, numberOfSharesInProofs sp = Returned n ->
      counts_agree sp = false ->
      Validate V R sp root w = (Returned (Some (errors_New text_counts)), w))
  /\ (counts_agree sp = true ->
      forall err, check_ranges (ShareProofs sp) = Returned (Some err) ->
      Validate V R sp root w = (Returned (Some err), w))
  /\ (counts_agree sp = true ->
      check_ranges (E := E) (ShareProofs sp) = Returned None ->
      forall w',
        (VerifyProof V sp w = (Returned false, w') ->
         Validate V R sp root w = (Returned (Some (errors_New text_inconsistent)), w'))
        /\ (forall p, VerifyProof V sp w = (Panicked p, w') ->
            Validate V R sp root w = (Panicked p, w'))
        /\ (VerifyProof V sp w = (Returned true, w') ->
            Validate V R sp root w
            = (Returned (RowProof_error <$> R (RowProof_ sp) root),
               mkWorld (caller_proof w') (caller_root w')
                 (trace w' ++ [RowProof_Validate_call (RowProof_ sp) root]))))
  /\ (forall r w', VerifyProof V sp w = (r, w') ->
      exists cs, trace w' = trace w ++ cs /\ Forall is_VerifyInclusion_call cs).
Proof.
  split; [|split; [|split; [|split; [|split]]]].
  - split.
    + intros H. destruct (counts_agree sp) eqn:Hc.
      2:{ rewrite Validate_unfold, Hc in H.
          destruct (numberOfSharesInProofs sp); simpl in H; congruence. }
      destruct (Validate_unfold_counts_agree sp root w Hc) as (bad & Hbad & Hrun).
      rewrite Hrun in H. destruct bad; [simpl in H; congruence|].
      destruct (VerifyProof V sp w) as [[[|]|p] w']; simpl in *; try congruence.
      destruct (R _ _); simpl in *; [congruence|done].
    + intros (Hc & Hbad & Hv & HR).
      destruct (Validate_unfold_counts_agree sp root w Hc) as (bad & Hbad' & ->).
      rewrite Hbad in Hbad'. injection Hbad' as <-.
      destruct (VerifyProof V sp w) as [[[|]|p] w']; simpl in *; try congruence.
      by rewrite HR.
  - intros p Hp. by rewrite Validate_unfold, Hp.
  - intros n Hn Hc. by rewrite Validate_unfold, Hn, Hc.
  - intros Hc err Herr.
    destruct (Validate_unfold_counts_agree sp root w Hc) as (bad & Hbad & ->).
    rewrite Herr in Hbad. by injection Hbad as <-.
  - intros Hc Hnone w'.
    destruct (Validate_unfold_counts_agree sp root w Hc) as (bad & Hbad & ->).
    rewrite Hnone in Hbad. injection Hbad as <-.
    split; [|split].
    + by intros ->.
    + by intros p ->.
    + by intros ->.
  - intros r w' Hrun.
    destruct (VerifyProof_run sp) as (r0 & cs & Hcs & Hall).
    rewrite Hall in Hrun. injection Hrun as _ <-. by exists cs.
Qed.

(** The row loop is the walk over its plan. *)
Lemma VerifyProof_loop_plan (sp : ShareProof) (rows : list (option tmproto.NMTProof)) :
  forall (i : nat) (cursor : Z) (w : World),
    VerifyProof_loop V sp i cursor rows w
    = (walk_result V (row_plan sp i cursor rows),
       mkWorld (caller_proof w) (caller_root w)
         (trace w ++ walk_calls V (row_plan sp i cursor rows))).
Proof.
  induction rows as [|row rest IH]; intros i cursor w.
  - simpl. unfold ret. by rewrite world_eta.
  - cbn [VerifyProof_loop row_plan]. unfold row_step, bind at 1, lift at 1.
    destruct row as [proof|]; cbn [deref mbind outcome_mbind outcome_bind].
    2:{ cbn [walk_result walk_calls]. by rewrite world_eta. }
    unfold bind at 1, lift at 1.
    destruct (reslice (Data sp) cursor _) as [leaves|p];
      cbn [mbind outcome_mbind outcome_bind].
    2:{ cbn [walk_result walk_calls]. by rewrite world_eta. }
    unfold bind at 1, lift at 1.
    destruct (index (RowRoots (RowProof_ sp)) i) as [rowRoot|p];
      cbn [mbind outcome_mbind outcome_bind mret outcome_mret].
    2:{ cbn [walk_result walk_calls]. by rewrite world_eta. }
    unfold bind at 1. unfold call_VerifyInclusion, bind, record, ret.
    unfold mret, outcome_mret.
    cbn [walk_result walk_calls verdict cursor_after].
    destruct (V _ _ _ _ leaves rowRoot); cbn [negb].
    + rewrite IH. cbn [caller_proof caller_root trace]. by rewrite <- app_assoc.
    + reflexivity.
Qed.

Lemma walk_all_calls (cs : list call) :
  walk_result V (Returned <$> cs) = Returned (forallb (verdict V) cs)
  /\ walk_calls V (Returned <$> cs) = through_first_failure V cs.
Proof.
  induction cs as [|c cs [IHr IHc]]; [done|].
  cbn [fmap list_fmap walk_result walk_calls forallb through_first_failure].
  change (list_fmap call (outcome call) Returned cs) with (Returned <$> cs).
  rewrite IHr, IHc. by destruct (verdict V c).
Qed.

(** With rows that fit, no row of the plan panics, and the calls are those
    of [row_calls]: the arithmetic does not wrap and the slices stay within
    [Data]. *)
Lemma row_plan_fits (sp : ShareProof) (proofs : list tmproto.NMTProof) :
  forall (i cursor : nat),
    Forall (fun proof => tmproto.Start proof <= tmproto.End proof) proofs ->
    Z.of_nat cursor + declared_shares proofs <= Z.of_nat (len (Data sp)) ->
    Z.of_nat cursor + declared_shares proofs <= MaxInt32 ->
    (i + length proofs <= length (RowRoots (RowProof_ sp)))%nat ->
    row_plan sp i (Z.of_nat cursor) (Some <$> proofs)
    = Returned <$> row_calls sp i cursor proofs.
Proof.
  induction proofs as [|proof rest IH]; intros i cursor Hall Hdata Hmax Hroots; [done|].
  apply Forall_cons in Hall as [Hle Hall].
  pose proof (declared_shares_nonneg rest Hall) as Hrest.
  cbn [declared_shares foldr] in Hdata, Hmax.
  fold (declared_shares rest) in Hdata, Hmax.
  cbn [length] in Hroots.
  cbn [fmap list_fmap row_plan row_calls cursor_after].
  change (list_fmap tmproto.NMTProof (option tmproto.NMTProof) Some rest)
    with (Some <$> rest).
  change (list_fmap call (outcome call) Returned) with (fmap (M := list) (@Returned call)).
  set (n := Z.to_nat (tmproto.End proof - tmproto.Start proof)).
  assert (tmproto.End proof - tmproto.Start proof = Z.of_nat n) as Hn
    by (unfold n; lia).
  unfold row_step, int32_sub, int32_add. cbn [deref mbind outcome_mbind outcome_bind].
  rewrite Hn.
  rewrite (wrap32_small (Z.of_nat n))
    by (unfold is_int32, MinInt32, MaxInt32 in *; lia).
  rewrite !wrap32_small by (unfold is_int32, MinInt32, MaxInt32 in *; lia).
  rewrite reslice_within by lia. cbn [mbind outcome_mbind outcome_bind].
  destruct (lookup_lt_is_Some_2 (RowRoots (RowProof_ sp)) i) as [rowRoot Hi]; [lia|].
  rewrite (index_lookup _ _ _ Hi), Hi.
  cbn [mbind outcome_mbind outcome_bind mret outcome_mret].
  change (default [] (Some rowRoot)) with rowRoot.
  f_equal.
  replace (Z.of_nat cursor + Z.of_nat n) with (Z.of_nat (cursor + n)) by lia.
  apply IH; try done; lia.
Qed.

(** With rows that fit, the loop makes the prescribed calls one after the
    other and stops at the first that fails. *)
Lemma VerifyProof_loop_walks (sp : ShareProof) (proofs : list tmproto.NMTProof) :
  forall (i cursor : nat) (w : World),
    Forall (fun proof => tmproto.Start proof <= tmproto.End proof) proofs ->
    Z.of_nat cursor + declared_shares proofs <= Z.of_nat (len (Data sp)) ->
    Z.of_nat cursor + declared_shares proofs <= MaxInt32 ->
    (i + length proofs <= length (RowRoots (RowProof_ sp)))%nat ->
    VerifyProof_loop V sp i (Z.of_nat cursor) (Some <$> proofs) w
    = (Returned (forallb (verdict V) (row_calls sp i cursor proofs)),
       mkWorld (caller_proof w) (caller_root w)
         (trace w ++ through_first_failure V (row_calls sp i cursor proofs))).
Proof.
  intros i cursor w Hall Hdata Hmax Hroots.
  rewrite VerifyProof_loop_plan, row_plan_fits by done.
  by destruct (walk_all_calls (row_calls sp i cursor proofs)) as [-> ->].
Qed.

Lemma VerifyProof_walks (sp : ShareProof) (w : World) :
  Forall is_Some (ShareProofs sp) ->
  Forall (fun proof => tmproto.Start proof <= tmproto.End proof)
    (pointees (ShareProofs sp)) ->
  declared_shares (pointees (ShareProofs sp)) <= Z.of_nat (len (Data sp)) ->
  declared_shares (pointees (ShareProofs sp)) <= MaxInt32 ->
  (length (ShareProofs sp) <= length (RowRoots (RowProof_ sp)))%nat ->
  VerifyProof V sp w
  = (Returned (forallb (verdict V) (row_calls sp 0 0 (pointees (ShareProofs sp)))),
     mkWorld (caller_proof w) (caller_root w)
       (trace w
          ++ through_first_failure V (row_calls sp 0 0 (pointees (ShareProofs sp))))).
Proof.
  intros Hsome Hall Hdata Hmax Hroots. unfold VerifyProof.
  rewrite (Forall_is_Some_pointees _ Hsome) at 1.
  rewrite (Forall_is_Some_pointees _ Hsome), length_fmap in Hroots.
  change 0 with (Z.of_nat 0) at 1.
  apply VerifyProof_loop_walks; try done; simpl; lia.
Qed.

(** C2, amended. For every ShareProof, [VerifyProof] is the walk over the
    rows in order, with a cursor into [Data] that starts at 0: at row [i] it
    asks the row-inclusion verifier about [start], [end], the nodes, the
    proof's namespace, [Data[cursor : cursor + (end - start)]] and
    [RowRoots[i]], and moves the cursor on by [end - start]; it returns false
    at the first call that the verifier rejects, without going on to the
    rows after it, and true when the verifier has accepted every row. It has
    no checks of its own: when it comes to a row that is nil, whose slice is
    out of the range of [Data], or for which there is no [RowRoots[i]], it
    panics there, after the calls for the rows before. When the rows fit it
    does not panic, and its calls are those of [row_calls]. *)
Theorem VerifyProof_walks_rows (sp : ShareProof) (w : World) :
  VerifyProof V sp w
  = (walk_result V (row_plan sp 0 0 (ShareProofs sp)),
     mkWorld (caller_proof w) (caller_root w)
       (trace w ++ walk_calls V (row_plan sp 0 0 (ShareProofs sp))))
  /\ (rows_fit sp ->
      VerifyProof V sp w
      = (Returned (forallb (verdict V) (row_calls sp 0 0 (pointees (ShareProofs sp)))),
         mkWorld (caller_proof w) (caller_root w)
           (trace w
              ++ through_first_failure V
                   (row_calls sp 0 0 (pointees (ShareProofs sp)))))).
Proof.
  split; [apply VerifyProof_loop_plan|].
  intros (Hsome & Hall & Hdata & Hmax & Hroots). by apply VerifyProof_walks.
Qed.

(** C6. A proof with zero rows (no per-row proofs, no row roots, no data) is
    not rejected by the checks of [Validate] itself: the count check passes,
    the range loop passes vacuously, [VerifyProof] returns true without
    calling the verifier, and [Validate] returns exactly what
    [RowProof.Validate] returns. *)
Theorem Validate_zero_rows (sp : ShareProof) (root : bytes) (w : World) :
  ShareProofs sp = [] ->
  RowRoots (RowProof_ sp) = [] ->
  items (Data sp) = [] ->
  counts_agree sp = true
  /\ check_ranges (E := E) (ShareProofs sp) = Returned None
  /\ VerifyProof V sp w = (Returned true, w)
  /\ Validate V R sp root w
     = (Returned (RowProof_error <$> R (RowProof_ sp) root),
        mkWorld (caller_proof w) (caller_root w)
          (trace w ++ [RowProof_Validate_call (RowProof_ sp) root])).
Proof.
  intros Hp Hr Hd.
  assert (counts_agree sp = true) as Hc.
  { unfold counts_agree, numberOfSharesInProofs, len. by rewrite Hp, Hr, Hd. }
  assert (VerifyProof V sp w = (Returned true, w)) as Hv.
  { unfold VerifyProof. by rewrite Hp. }
  repeat split; try done.
  - by rewrite Hp.
  - destruct (Validate_unfold_counts_agree sp root w Hc) as (bad & Hbad & ->).
    rewrite Hp in Hbad. injection Hbad as <-. by rewrite Hv.
Qed.

(** C8. When the count check, the range check and [VerifyProof] pass, an
    error of [RowProof.Validate] is what [Validate] returns: an error of the
    kind RowProofInvalid, different from each error that [Validate] makes
    itself; and when [RowProof.Validate] returns nil, so does [Validate]. *)
Theorem Validate_propagates_RowProof (sp : ShareProof) (root : bytes) (w : World) :
  counts_agree sp = true ->
  check_ranges (E := E) (ShareProofs sp) = Returned None ->
  fst (VerifyProof V sp w) = Returned true ->
  (forall e, R (RowProof_ sp) root = Some e ->
     fst (Validate V R sp root w) = Returned (Some (RowProof_error e))
     /\ kind_of (RowProof_error e) = Some RowProofInvalid
     /\ forall text, RowProof_error e <> errors_New text)
  /\ (R (RowProof_ sp) root = None ->
      fst (Validate V R sp root w) = Returned None).
Proof.
  intros Hc Hr Hv.
  destruct (Validate_unfold_counts_agree sp root w Hc) as (bad & Hbad & ->).
  rewrite Hr in Hbad. injection Hbad as <-.
  destruct (VerifyProof V sp w) as [[[|]|p] w']; simpl in Hv; try congruence.
  split.
  - intros e ->. by repeat split.
  - by intros ->.
Qed.

(** *** The structural checks, as far as the arithmetic does not wrap *)

Lemma counts_agree_iff (sp : ShareProof) :
  counts_agree sp = true
  <-> Forall is_Some (ShareProofs sp)
      /\ length (RowRoots (RowProof_ sp)) = length (ShareProofs sp)
      /\ (Z.of_nat (len (Data sp)) - declared_shares (pointees (ShareProofs sp)))
         mod 2 ^ 32 = 0.
Proof.
  split.
  - intros Hc. pose proof (counts_agree_no_nil sp Hc) as Hall.
    split; [done|]. unfold counts_agree, int32_of_len in Hc.
    rewrite (numberOfSharesInProofs_wrapped sp Hall) in Hc.
    by rewrite andb_true_iff, Nat.eqb_eq, Z.eqb_eq, wrap32_congruent in Hc.
  - intros (Hall & Hlen & Hmod). unfold counts_agree, int32_of_len.
    rewrite (numberOfSharesInProofs_wrapped sp Hall).
    by rewrite andb_true_iff, Nat.eqb_eq, Z.eqb_eq, wrap32_congruent.
Qed.

(** X1. The count check passes exactly when no row is nil, there are as many
    row roots as per-row proofs, and [len(Data)] is congruent modulo [2^32]
    to the declared share count. *)
Theorem count_check_modulo (sp : ShareProof) :
  counts_agree sp = true
  <-> Forall is_Some (ShareProofs sp)
      /\ length (RowRoots (RowProof_ sp)) = length (ShareProofs sp)
      /\ (Z.of_nat (len (Data sp)) - declared_shares (pointees (ShareProofs sp)))
         mod 2 ^ 32 = 0.
Proof. apply counts_agree_iff. Qed.

(** X2. Count laws. A proof none of whose rows is nil, and whose number of
    row roots differs from its number of per-row proofs, or whose
    [len(Data)] differs from the declared share count when both are [int32]
    values, gets the count error, and no verifier is called. *)
Theorem Validate_count_law (sp : ShareProof) (root : bytes) (w : World) :
  Forall is_Some (ShareProofs sp) ->
  length (RowRoots (RowProof_ sp)) <> length (ShareProofs sp)
  \/ (is_int32 (Z.of_nat (len (Data sp)))
      /\ is_int32 (declared_shares (pointees (ShareProofs sp)))
      /\ Z.of_nat (len (Data sp)) <> declared_shares (pointees (ShareProofs sp))) ->
  Validate V R sp root w = (Returned (Some (errors_New text_counts)), w)
  /\ kind_of (E := E) (errors_New text_counts) = Some CountMismatch.
Proof.
  intros Hall H. split; [|reflexivity].
  rewrite Validate_unfold, (numberOfSharesInProofs_wrapped sp Hall).
  destruct (counts_agree sp) eqn:Hc; [|done].
  exfalso. apply counts_agree_iff in Hc as (_ & Hlen & Hmod).
  destruct H as [H|(Hd & Hs & Hne)]; [done|].
  apply Z.mod_divide in Hmod as [q Hq]; [|lia].
  unfold is_int32, MinInt32, MaxInt32 in *. lia.
Qed.

Lemma check_ranges_rejects (proofs : list tmproto.NMTProof) :
  Exists (fun proof =>
            tmproto.Start proof < 0
            \/ (tmproto.End proof <= tmproto.Start proof
                /\ is_int32 (tmproto.End proof - tmproto.Start proof))) proofs ->
  exists err : error E, check_ranges (Some <$> proofs) = Returned (Some err).
Proof.
  induction 1 as [proof rest H|proof rest _ IH]; simpl.
  - destruct (Z.ltb_spec (tmproto.Start proof) 0); [by eexists|].
    destruct H as [H|[Hle Hint]]; [lia|].
    unfold int32_sub. rewrite (wrap32_small _ Hint).
    destruct (Z.leb_spec (tmproto.End proof - tmproto.Start proof) 0); [by eexists|lia].
  - destruct (_ <? 0); [by eexists|].
    destruct (_ <=? 0); [by eexists|done].
Qed.

(** X3. Range law. When the count check passes and some row has a negative start,
    or an end that is not after its start with [end - start] an [int32]
    value, [Validate] returns a range error and no verifier is called. *)
Theorem Validate_range_law (sp : ShareProof) (root : bytes) (w : World) :
  counts_agree sp = true ->
  Exists (fun proof =>
            tmproto.Start proof < 0
            \/ (tmproto.End proof <= tmproto.Start proof
                /\ is_int32 (tmproto.End proof - tmproto.Start proof)))
    (pointees (ShareProofs sp)) ->
  exists err,
    Validate V R sp root w = (Returned (Some err), w)
    /\ kind_of err = Some InvalidRange.
Proof.
  intros Hc Hbad. destruct (check_ranges_rejects _ Hbad) as [err Herr].
  rewrite <- (Forall_is_Some_pointees _ (counts_agree_no_nil sp Hc)) in Herr.
  exists err. split; [|by apply (check_ranges_kind (ShareProofs sp))].
  destruct (Validate_unfold_counts_agree sp root w Hc) as (bad & Hbad' & ->).
  rewrite Herr in Hbad'. by injection Hbad' as <-.
Qed.

(** X4. The range step passes when every row has [0 <= start < end] and its end
    is an [int32] value. *)
Theorem check_ranges_passes (proofs : list tmproto.NMTProof) :
  Forall (fun proof =>
            0 <= tmproto.Start proof < tmproto.End proof
            /\ tmproto.End proof <= MaxInt32) proofs ->
  check_ranges (E := E) (Some <$> proofs) = Returned None.
Proof.
  induction 1 as [|proof rest [[H0 Hlt] Hmax] _ IH]; simpl; [done|].
  destruct (Z.ltb_spec (tmproto.Start proof) 0); [lia|].
  unfold int32_sub. rewrite wrap32_small
    by (unfold is_int32, MinInt32, MaxInt32 in *; lia).
  destruct (Z.leb_spec (tmproto.End proof - tmproto.Start proof) 0); [lia|done].
Qed.

(** X5. Without nil rows and without wrap-around there is no panic: when no
    row is nil, every row has [start <= end] and the declared share counts
    add up to an [int32] value, [Validate] returns, whatever else the proof
    holds. *)
Theorem Validate_returns_without_overflow (sp : ShareProof) (root : bytes) (w : World) :
  Forall is_Some (ShareProofs sp) ->
  Forall (fun proof => tmproto.Start proof <= tmproto.End proof)
    (pointees (ShareProofs sp)) ->
  declared_shares (pointees (ShareProofs sp)) <= MaxInt32 ->
  exists err cs,
    Validate V R sp root w
    = (Returned err, mkWorld (caller_proof w) (caller_root w) (trace w ++ cs)).
Proof.
  intros Hsome Hall Hmax.
  destruct (counts_agree sp) eqn:Hc.
  2:{ rewrite Validate_unfold, Hc, (numberOfSharesInProofs_wrapped sp Hsome).
      eexists _, []. by rewrite world_eta. }
  destruct (Validate_unfold_counts_agree sp root w Hc) as (bad & _ & ->).
  destruct bad.
  { eexists _, []. by rewrite world_eta. }
  apply counts_agree_iff in Hc as (_ & Hlen & Hmod).
  pose proof (declared_shares_nonneg _ Hall) as H0.
  assert (declared_shares (pointees (ShareProofs sp)) <= Z.of_nat (len (Data sp)))
    as Hdata.
  { apply Z.mod_divide in Hmod as [q Hq]; [|lia].
    unfold MaxInt32 in Hmax. lia. }
  rewrite VerifyProof_walks by (try done; lia).
  destruct (forallb _ _); cbn [caller_proof caller_root trace].
  - eexists _, _. by rewrite <- app_assoc.
  - by eexists _, _.
Qed.

(** *** Where the [int32] arithmetic wraps around *)

(** C3, at the input that breaks it. [overflowing_rows] declares four rows of
    [2^30] shares each and carries no data: [len(Data) = 0] differs from the
    declared [2^32], yet the [int32] sum wraps to 0, the count check passes,
    and [Validate] does not return the count error. *)
Theorem count_check_wraps_around (root : bytes) (w : World) :
  declared_shares (pointees (ShareProofs overflowing_rows)) = 2 ^ 32
  /\ len (Data overflowing_rows) = 0%nat
  /\ numberOfSharesInProofs overflowing_rows = Returned 0
  /\ counts_agree overflowing_rows = true
  /\ fst (Validate V R overflowing_rows root w)
     <> Returned (Some (errors_New text_counts)).
Proof.
  repeat split; try reflexivity.
  rewrite Validate_unfold.
  replace (numberOfSharesInProofs overflowing_rows) with (Returned 0) by reflexivity.
  replace (counts_agree overflowing_rows) with true by reflexivity.
  replace (check_ranges (E := E) (ShareProofs overflowing_rows))
    with (Returned (@None (error E))) by reflexivity.
  simpl. discriminate.
Qed.

(** C5, at the input that breaks it. On [overflowing_rows] both structural
    checks pass, and the first slice expression of [VerifyProof],
    [Data[0:1073741824]] on a slice of capacity 0, panics: [Validate] ends
    in a run-time panic, before any verifier is called. *)
Theorem Validate_slices_Data_out_of_range (root : bytes) (w : World) :
  Validate V R overflowing_rows root w
  = (Panicked (slice_bounds_out_of_range 0 1073741824 0), w).
Proof.
  rewrite Validate_unfold.
  replace (numberOfSharesInProofs overflowing_rows) with (Returned 0) by reflexivity.
  replace (counts_agree overflowing_rows) with true by reflexivity.
  replace (check_ranges (E := E) (ShareProofs overflowing_rows))
    with (Returned (@None (error E))) by reflexivity.
  reflexivity.
Qed.

(** C4, at the input that breaks it. The one row of [backwards_row] has
    [end <= start], but [end - start] wraps around to 1: the count check and
    the range check pass, the row-inclusion verifier is called with the
    backwards range, and whatever [Validate] then returns is not a range
    error. *)
Theorem range_check_wraps_around (root : bytes) (w : World) :
  Forall (fun proof => tmproto.End proof <= tmproto.Start proof)
    (pointees (ShareProofs backwards_row))
  /\ counts_agree backwards_row = true
  /\ check_ranges (E := E) (ShareProofs backwards_row) = Returned None
  /\ exists r cs,
      Validate V R backwards_row root w
      = (r, mkWorld (caller_proof w) (caller_root w)
              (trace w
                 ++ nmt_VerifyInclusion 2147483647 (-2147483648) []
                      namespace [share0] rowRoot0 :: cs))
      /\ forall err, r = Returned (Some err) -> kind_of err <> Some InvalidRange.
Proof.
  split; [repeat constructor; simpl; lia|].
  split; [reflexivity|]. split; [reflexivity|].
  rewrite Validate_unfold.
  replace (numberOfSharesInProofs backwards_row) with (Returned 1) by reflexivity.
  replace (counts_agree backwards_row) with true by reflexivity.
  replace (check_ranges (E := E) (ShareProofs backwards_row))
    with (Returned (@None (error E))) by reflexivity.
  unfold VerifyProof. rewrite VerifyProof_loop_plan.
  replace (row_plan backwards_row 0 0 (ShareProofs backwards_row))
    with [Returned (nmt_VerifyInclusion 2147483647 (-2147483648) []
                      namespace [share0] rowRoot0)] by reflexivity.
  cbn [walk_result walk_calls verdict].
  destruct (V _ _ _ _ _ _); cbn [caller_proof caller_root trace].
  - eexists _, [_]. split.
    + by rewrite <- app_assoc.
    + intros err [= Herr]. destruct (R _ _); simpl in Herr; [|discriminate].
      injection Herr as <-. discriminate.
  - eexists _, []. split; [reflexivity|].
    intros err [= <-]. discriminate.
Qed.

End ValidationFacts.



(** ** Decoding does not validate *)


(** ** The theorems at the sample inputs *)

(** [VerifyProof] on its own panics when the data run out, and when the row
    roots run out. *)
Lemma VerifyProof_panics_out_of_range :
  VerifyProof accept_all short_data (world_of short_data dataRoot)
  = (Panicked (slice_bounds_out_of_range 0 1 0), world_of short_data dataRoot)
  /\ VerifyProof accept_all missing_root (world_of missing_root dataRoot)
     = (Panicked (index_out_of_range 0 0), world_of missing_root dataRoot).
Proof. split; reflexivity. Qed.

Lemma two_rows_fit : rows_fit two_rows.
Proof.
  unfold rows_fit. split; [|split; [|split; [|split]]].
  - repeat constructor; by eexists.
  - repeat constructor; simpl; lia.
  - vm_compute. discriminate.
  - vm_compute. discriminate.
  - simpl. lia.
Defined.

(** The walk at three proofs: two rows that fit; a row that the verifier
    rejects, before a nil row that is never read; and a row whose two shares
    lie within the capacity of [Data], one of them beyond its length. *)
Lemma VerifyProof_walks_two_rows :
  (rows_fit two_rows
   /\ VerifyProof accept_all two_rows (world_of two_rows dataRoot)
      = (Returned true,
         mkWorld two_rows dataRoot
           [nmt_VerifyInclusion 0 2 [] namespace [share0; share1] rowRoot0;
            nmt_VerifyInclusion 0 1 [] namespace [share2] rowRoot1]))
  /\ VerifyProof reject_all nil_second_row (world_of nil_second_row dataRoot)
     = (Returned false,
        mkWorld nil_second_row dataRoot
          [nmt_VerifyInclusion 0 1 [] namespace [share0] rowRoot0])
  /\ VerifyProof accept_all nil_second_row (world_of nil_second_row dataRoot)
     = (Panicked nil_pointer_dereference,
        mkWorld nil_second_row dataRoot
          [nmt_VerifyInclusion 0 1 [] namespace [share0] rowRoot0])
  /\ VerifyProof accept_all spare_data (world_of spare_data dataRoot)
     = (Returned true,
        mkWorld spare_data dataRoot
          [nmt_VerifyInclusion 0 2 [] namespace [share0; share1] rowRoot0]).
Proof.
  split; [split; [exact two_rows_fit|]|split; [|split]].
  - exact (proj2 (VerifyProof_walks_rows accept_all two_rows
                    (world_of two_rows dataRoot)) two_rows_fit).
  - exact (proj1 (VerifyProof_walks_rows reject_all nil_second_row
                    (world_of nil_second_row dataRoot))).
  - exact (proj1 (VerifyProof_walks_rows accept_all nil_second_row
                    (world_of nil_second_row dataRoot))).
  - exact (proj1 (VerifyProof_walks_rows accept_all spare_data
                    (world_of spare_data dataRoot))).
Defined.

Lemma Validate_zero_rows_rejected :
  (ShareProofs zero_rows = [] /\ RowRoots (RowProof_ zero_rows) = []
   /\ items (Data zero_rows) = [])
  /\ Validate accept_all rows_rejected zero_rows dataRoot (world_of zero_rows dataRoot)
     = (Returned (Some (RowProof_error "row proof rejected"%string)),
        mkWorld zero_rows dataRoot [RowProof_Validate_call no_row_proof dataRoot]).
Proof.
  split; [by repeat split|].
  exact (proj2 (proj2 (proj2
           (Validate_zero_rows accept_all rows_rejected zero_rows dataRoot
              (world_of zero_rows dataRoot) eq_refl eq_refl eq_refl)))).
Defined.

Lemma Validate_two_rows_propagates :
  (counts_agree two_rows = true
   /\ check_ranges (E := string) (ShareProofs two_rows) = Returned None
   /\ fst (VerifyProof accept_all two_rows (world_of two_rows dataRoot)) = Returned true)
  /\ fst (Validate accept_all rows_rejected two_rows dataRoot (world_of two_rows dataRoot))
     = Returned (Some (RowProof_error "row proof rejected"%string))
  /\ fst (Validate accept_all rows_accepted two_rows dataRoot (world_of two_rows dataRoot))
     = Returned None.
Proof.
  split; [by repeat split|]. split.
  - exact (proj1 (proj1
             (Validate_propagates_RowProof accept_all rows_rejected two_rows dataRoot
                (world_of two_rows dataRoot) eq_refl eq_refl eq_refl)
             _ eq_refl)).
  - exact (proj2
             (Validate_propagates_RowProof accept_all rows_accepted two_rows dataRoot
                (world_of two_rows dataRoot) eq_refl eq_refl eq_refl)
             eq_refl).
Defined.


Lemma Validate_counts_missing_root :
  (Forall is_Some (ShareProofs missing_root)
   /\ (length (RowRoots (RowProof_ missing_root)) <> length (ShareProofs missing_root)
       \/ (is_int32 (Z.of_nat (len (Data missing_root)))
           /\ is_int32 (declared_shares (pointees (ShareProofs missing_root)))
           /\ Z.of_nat (len (Data missing_root))
              <> declared_shares (pointees (ShareProofs missing_root)))))
  /\ Validate accept_all rows_accepted missing_root dataRoot
       (world_of missing_root dataRoot)
     = (Returned (Some (errors_New text_counts)), world_of missing_root dataRoot).
Proof.
  assert (Forall is_Some (ShareProofs missing_root)) as Hsome
    by (repeat constructor; by eexists).
  assert (length (RowRoots (RowProof_ missing_root))
          <> length (ShareProofs missing_root)) as Hlen by (simpl; lia).
  split; [split; [exact Hsome|left; exact Hlen]|].
  exact (proj1 (Validate_count_law accept_all rows_accepted missing_root dataRoot
                  (world_of missing_root dataRoot) Hsome (or_introl Hlen))).
Defined.

Lemma empty_range_is_bad :
  Exists (fun proof =>
            tmproto.Start proof < 0
            \/ (tmproto.End proof <= tmproto.Start proof
                /\ is_int32 (tmproto.End proof - tmproto.Start proof)))
    (pointees (ShareProofs empty_range)).
Proof.
  constructor. right. simpl. unfold is_int32, MinInt32, MaxInt32. lia.
Defined.

Lemma Validate_ranges_empty_range :
  (counts_agree empty_range = true
   /\ Exists (fun proof =>
                tmproto.Start proof < 0
                \/ (tmproto.End proof <= tmproto.Start proof
                    /\ is_int32 (tmproto.End proof - tmproto.Start proof)))
        (pointees (ShareProofs empty_range)))
  /\ exists err,
      Validate accept_all rows_accepted empty_range dataRoot
        (world_of empty_range dataRoot)
      = (Returned (Some err), world_of empty_range dataRoot)
      /\ kind_of err = Some InvalidRange.
Proof.
  split; [split; [reflexivity|exact empty_range_is_bad]|].
  exact (Validate_range_law accept_all rows_accepted empty_range dataRoot
           (world_of empty_range dataRoot) eq_refl empty_range_is_bad).
Defined.

Lemma two_rows_ranges_sane :
  Forall (fun proof =>
            0 <= tmproto.Start proof < tmproto.End proof
            /\ tmproto.End proof <= MaxInt32) (pointees (ShareProofs two_rows)).
Proof. repeat constructor; simpl; unfold MaxInt32; lia. Defined.

Lemma check_ranges_two_rows :
  Forall (fun proof =>
            0 <= tmproto.Start proof < tmproto.End proof
            /\ tmproto.End proof <= MaxInt32) (pointees (ShareProofs two_rows))
  /\ check_ranges (E := string) (ShareProofs two_rows) = Returned None.
Proof.
  split; [exact two_rows_ranges_sane|].
  exact (check_ranges_passes (pointees (ShareProofs two_rows)) two_rows_ranges_sane).
Defined.

Lemma Validate_returns_on_two_rows :
  (Forall is_Some (ShareProofs two_rows)
   /\ Forall (fun proof => tmproto.Start proof <= tmproto.End proof)
        (pointees (ShareProofs two_rows))
   /\ declared_shares (pointees (ShareProofs two_rows)) <= MaxInt32)
  /\ exists err cs,
      Validate accept_all rows_accepted two_rows dataRoot (world_of two_rows dataRoot)
      = (Returned err, mkWorld two_rows dataRoot ([] ++ cs)).
Proof.
  pose proof two_rows_fit as (Hsome & Hall & _ & Hmax & _).
  split; [by repeat split|].
  exact (Validate_returns_without_overflow accept_all rows_accepted two_rows dataRoot
           (world_of two_rows dataRoot) Hsome Hall Hmax).
Defined.

(** ** Wire conversion: when it returns and when it panics *)

(** Whatever the decoding loop returns, it has read a row root and a non-nil
    proof at every index it went through. *)
Lemma ShareProofFromProto_loop_returned (rp : tmproto.RowProof) (idx : list nat) :
  forall rowRoots rowProofs res,
    ShareProofFromProto_loop rp idx rowRoots rowProofs = Returned res ->
    Forall (fun i => (i < length (tmproto.RowRoots rp))%nat
                     /\ exists m, tmproto.Proofs rp !! i = Some (Some m)) idx.
Proof.
  induction idx as [|i rest IH]; intros rowRoots rowProofs res; [by constructor|].
  cbn [ShareProofFromProto_loop]. unfold index.
  destruct (tmproto.RowRoots rp !! i) as [r|] eqn:Hr;
    cbn [mbind outcome_mbind outcome_bind]; [|discriminate].
  destruct (assign rowRoots i r) as [rowRoots'|];
    cbn [mbind outcome_mbind outcome_bind]; [|discriminate].
  destruct (tmproto.Proofs rp !! i) as [[m|]|] eqn:Hp;
    cbn [mbind outcome_mbind outcome_bind]; try discriminate.
  destruct (assign rowProofs i _) as [rowProofs'|];
    cbn [mbind outcome_mbind outcome_bind]; [|discriminate].
  intros Hrest. constructor; [|by eapply IH].
  split; [by eapply lookup_lt_Some|by exists m].
Qed.

(** X6. [ShareProofFromProto] returns, rather than panics, exactly when the
    [RowProof] of the message is present, it has no more proofs than row
    roots, and none of its proofs is nil. *)
Theorem ShareProofFromProto_returns_iff {E} (pb : tmproto.ShareProof) :
  (exists sp err, ShareProofFromProto (E := E) pb = Returned (sp, err))
  <-> exists rp,
        tmproto.RowProof_ pb = Some rp
        /\ (length (tmproto.Proofs rp) <= length (tmproto.RowRoots rp))%nat
        /\ Forall is_Some (tmproto.Proofs rp).
Proof.
  split.
  - intros (sp & err & H). unfold ShareProofFromProto in H.
    destruct (tmproto.RowProof_ pb) as [rp|]; [|discriminate].
    exists rp. split; [done|].
    destruct (ShareProofFromProto_loop _ _ _ _) as [res|] eqn:Hloop; [|discriminate].
    apply ShareProofFromProto_loop_returned in Hloop.
    rewrite Forall_forall in Hloop. split.
    + destruct (tmproto.Proofs rp) as [|p ps] eqn:Hps; [simpl; lia|].
      destruct (Hloop (length ps)) as [Hlt _]; [|simpl; lia].
      apply elem_of_seq. simpl. lia.
    + apply Forall_lookup. intros i o Hi.
      destruct (Hloop i) as [_ [m Hm]].
      * apply elem_of_seq. apply lookup_lt_Some in Hi. lia.
      * rewrite Hi in Hm. injection Hm as ->. by eexists.
  - intros (rp & Hrp & Hle & Hall).
    destruct (Forall_is_Some_fmap _ Hall) as [ps Hps].
    eexists _, _. apply (ShareProofFromProto_returns pb rp ps Hrp Hps).
    by rewrite Hps, length_fmap in Hle.
Qed.

(** The encoding loop over two runs of indices is the loop over the first,
    then the loop over the second. *)
Lemma ToProto_loop_app (rp : RowProof) (idx1 idx2 : list nat) :
  forall rowRoots rowProofs,
    ToProto_loop rp (idx1 ++ idx2) rowRoots rowProofs
    = ToProto_loop rp idx1 rowRoots rowProofs
      ≫= (fun res => ToProto_loop rp idx2 res.1 res.2).
Proof.
  induction idx1 as [|i rest IH]; intros rowRoots rowProofs; [done|].
  cbn [app ToProto_loop].
  destruct (index (RowRoots rp) i); cbn [mbind outcome_mbind outcome_bind]; [|done].
  destruct (assign rowRoots i _); cbn [mbind outcome_mbind outcome_bind]; [|done].
  destruct (index (Proofs rp) i); cbn [mbind outcome_mbind outcome_bind]; [|done].
  destruct (assign rowProofs i _); cbn [mbind outcome_mbind outcome_bind]; [|done].
  apply IH.
Qed.

(** X7. [ToProto] returns exactly when there is a proof for every row root.
    With more proofs than row roots it returns a message in which the proofs
    beyond the row roots are nil; with fewer it panics on the first row root
    that has no proof. *)
Theorem ToProto_returns_or_panics (sp : ShareProof) :
  ToProto sp
  = if decide (length (RowRoots (RowProof_ sp)) <= length (Proofs (RowProof_ sp)))%nat
    then Returned
           (tmproto.mkShareProof (Data sp) (ShareProofs sp) (NamespaceID sp)
              (Some (tmproto.mkRowProof
                       (RowRoots (RowProof_ sp))
                       ((merkle_Proof_ToProto
                           <$> take (length (RowRoots (RowProof_ sp)))
                                 (Proofs (RowProof_ sp)))
                          ++ replicate (length (Proofs (RowProof_ sp))
                                        - length (RowRoots (RowProof_ sp))) None)
                       (StartRow (RowProof_ sp)) (EndRow (RowProof_ sp)))))
    else Panicked (index_out_of_range (length (Proofs (RowProof_ sp)))
                                      (length (Proofs (RowProof_ sp)))).
Proof.
  destruct (decide _) as [Hle|Hgt]; [by apply ToProto_returns|].
  unfold ToProto. set (rp := RowProof_ sp) in *.
  assert (seq 0 (length (RowRoots rp))
          = seq 0 (length (Proofs rp))
              ++ seq (length (Proofs rp))
                   (S (length (RowRoots rp) - S (length (Proofs rp))))) as Hseq.
  { change (length (Proofs rp)) with (0 + length (Proofs rp))%nat at 2.
    rewrite <- seq_app. f_equal. lia. }
  rewrite Hseq, ToProto_loop_app.
  pose proof (ToProto_loop_fills rp (length (Proofs rp)) 0) as Hloop.
  rewrite !Nat.sub_0_r in Hloop. simpl in Hloop. rewrite Hloop by lia. clear Hloop.
  cbn [mbind outcome_mbind outcome_bind fst snd seq ToProto_loop].
  destruct (lookup_lt_is_Some_2 (RowRoots rp) (length (Proofs rp))) as [r Hr]; [lia|].
  rewrite (index_lookup _ _ _ Hr). cbn [mbind outcome_mbind outcome_bind].
  replace (length (RowRoots rp) - length (Proofs rp))%nat
    with (S (length (RowRoots rp) - S (length (Proofs rp)))) by lia.
  pose proof (assign_fill (take (length (Proofs rp)) (RowRoots rp)) [] r
                (length (RowRoots rp) - S (length (Proofs rp)))) as Ha.
  rewrite length_take_le in Ha by lia. unfold HexBytes_Bytes. rewrite Ha.
  cbn [mbind outcome_mbind outcome_bind].
  unfold index. by rewrite lookup_ge_None_2.
Qed.

Lemma merkle_of_merkle_Proof_ToProto (m : merkle.Proof) :
  merkle_Proof_ToProto (Some m)
  = Some (crypto.mkProof (merkle.Total m) (merkle.Index m)
                         (merkle.LeafHash m) (merkle.Aunts m))
  /\ merkle_of (crypto.mkProof (merkle.Total m) (merkle.Index m)
                               (merkle.LeafHash m) (merkle.Aunts m)) = m.
Proof. by destruct m. Qed.

(** X8. The round trip the other way: a [ShareProof] with as many proofs as
    row roots, none of them nil, is encoded by [ToProto] to a message that
    [ShareProofFromProto] decodes to the same [ShareProof], with a nil
    error. *)
Theorem ShareProofFromProto_ToProto_roundtrip {E} (sp : ShareProof) :
  length (RowRoots (RowProof_ sp)) = length (Proofs (RowProof_ sp)) ->
  Forall is_Some (Proofs (RowProof_ sp)) ->
  exists pb,
    ToProto sp = Returned pb
    /\ ShareProofFromProto (E := E) pb = Returned (sp, None).
Proof.
  intros Hlen Hall. destruct (Forall_is_Some_fmap _ Hall) as [ms Hms].
  eexists. split; [apply ToProto_returns; lia|].
  set (ps := (fun m => crypto.mkProof (merkle.Total m) (merkle.Index m)
                         (merkle.LeafHash m) (merkle.Aunts m)) <$> ms).
  assert (length ms = length (RowRoots (RowProof_ sp))) as Hms_len
    by (by rewrite Hlen, Hms, length_fmap).
  erewrite (ShareProofFromProto_returns _ _ ps); [|reflexivity| |].
  - cbn [tmproto.Data tmproto.ShareProofs tmproto.NamespaceId tmproto.RowRoots
         tmproto.StartRow tmproto.EndRow].
    unfold ps. rewrite length_fmap, Hms_len, firstn_all, Nat.sub_diag, app_nil_r.
    rewrite <- list_fmap_compose.
    rewrite (list_fmap_ext _ Some ms)
      by (intros i m _; simpl; f_equal; apply merkle_of_merkle_Proof_ToProto).
    rewrite <- Hms. destruct sp as [d s n [rr pp sr er]]. reflexivity.
  - cbn [tmproto.Proofs]. rewrite Hlen, Nat.sub_diag, app_nil_r, firstn_all, Hms.
    unfold ps. rewrite <- !list_fmap_compose. by apply list_fmap_ext.
  - cbn [tmproto.RowRoots]. unfold ps. rewrite length_fmap. lia.
Qed.

Lemma two_rows_proofs_present :
  length (RowRoots (RowProof_ two_rows)) = length (Proofs (RowProof_ two_rows))
  /\ Forall is_Some (Proofs (RowProof_ two_rows)).
Proof. split; [reflexivity|]. repeat constructor; by eexists. Defined.

Lemma roundtrip_two_rows :
  (length (RowRoots (RowProof_ two_rows)) = length (Proofs (RowProof_ two_rows))
   /\ Forall is_Some (Proofs (RowProof_ two_rows)))
  /\ exists pb,
      ToProto two_rows = Returned pb
      /\ ShareProofFromProto (E := string) pb = Returned (two_rows, None).
Proof.
  split; [exact two_rows_proofs_present|].
  exact (ShareProofFromProto_ToProto_roundtrip two_rows
           (proj1 two_rows_proofs_present) (proj2 two_rows_proofs_present)).
Defined.

(** ** Validation: what an accepted proof has been through *)

Section AcceptedProofs.

Context {E : Type}.
Variable V : Z -> Z -> list bytes -> bytes -> list bytes -> HexBytes -> bool.
Variable R : RowProof -> bytes -> option E.

Lemma through_first_failure_all (cs : list call) :
  forallb (verdict V) cs = true -> through_first_failure V cs = cs.
Proof.
  induction cs as [|c cs IH]; simpl; [done|].
  destruct (verdict V c); simpl; [|done]. intros H. by rewrite IH.
Qed.

Lemma through_first_failure_length (cs : list call) :
  (length (through_first_failure V cs) <= length cs)%nat.
Proof.
  induction cs as [|c cs IH]; simpl; [done|].
  destruct (verdict V c); simpl; lia.
Qed.

Lemma row_calls_length (sp : ShareProof) (proofs : list tmproto.NMTProof) :
  forall i cursor, length (row_calls sp i cursor proofs) = length proofs.
Proof. induction proofs as [|proof rest IH]; intros; simpl; [done|by rewrite IH]. Qed.

Lemma row_calls_are_VerifyInclusion_calls (sp : ShareProof)
    (proofs : list tmproto.NMTProof) :
  forall i cursor, Forall is_VerifyInclusion_call (row_calls sp i cursor proofs).
Proof. induction proofs as [|proof rest IH]; intros; simpl; by constructor. Qed.

(** The prescribed calls hand over, one after the other, the declared number
    of shares that follow the cursor. *)
Lemma row_calls_leaves (sp : ShareProof) (proofs : list tmproto.NMTProof) :
  forall i cursor,
    Forall (fun proof => tmproto.Start proof <= tmproto.End proof) proofs ->
    concat (leaves_of <$> row_calls sp i cursor proofs)
    = take (Z.to_nat (declared_shares proofs)) (drop cursor (items (Data sp))).
Proof.
  induction proofs as [|proof rest IH]; intros i cursor Hall; [done|].
  apply Forall_cons in Hall as [Hle Hall].
  pose proof (declared_shares_nonneg rest Hall) as Hrest.
  cbn [row_calls fmap list_fmap concat leaves_of declared_shares foldr].
  fold (declared_shares rest).
  change (list_fmap call (list (list Byte.byte)) leaves_of) with (fmap leaves_of).
  rewrite IH by done.
  rewrite Z2Nat.inj_add by lia.
  rewrite <- drop_drop. apply take_take_drop.
Qed.

(** The calls of a walk are no more than the rows of its plan. *)
Lemma walk_calls_length (plan : list (outcome call)) :
  (length (walk_calls V plan) <= length plan)%nat.
Proof.
  induction plan as [|[c|p] rest IH]; simpl; [done| |lia].
  destruct (verdict V c); simpl; lia.
Qed.

Lemma row_plan_length (sp : ShareProof) (rows : list (option tmproto.NMTProof)) :
  forall i cursor, length (row_plan sp i cursor rows) = length rows.
Proof. induction rows as [|row rest IH]; intros; simpl; [done|by rewrite IH]. Qed.

(** X9. Whatever the proof and the root, a run of [Validate] only appends to
    the record of collaborator calls, and appends no more calls than there
    are per-row proofs, plus one: its cost in verifier calls is linear in the
    number of declared rows. *)
Theorem Validate_calls_bounded (sp : ShareProof) (root : bytes) (w : World) :
  exists cs,
    snd (Validate V R sp root w)
    = mkWorld (caller_proof w) (caller_root w) (trace w ++ cs)
    /\ (length cs <= length (ShareProofs sp) + 1)%nat.
Proof.
  rewrite Validate_unfold.
  destruct (numberOfSharesInProofs sp).
  2:{ exists []. split; [by rewrite world_eta|simpl; lia]. }
  destruct (counts_agree sp).
  2:{ exists []. split; [by rewrite world_eta|simpl; lia]. }
  destruct (check_ranges _) as [[err|]|p].
  { exists []. split; [by rewrite world_eta|simpl; lia]. }
  2:{ exists []. split; [by rewrite world_eta|simpl; lia]. }
  unfold VerifyProof. rewrite VerifyProof_loop_plan.
  pose proof (walk_calls_length (row_plan sp 0 0 (ShareProofs sp))) as Hlen.
  rewrite row_plan_length in Hlen.
  destruct (walk_result V _) as [[|]|p]; cbn [snd caller_proof caller_root trace].
  - eexists (_ ++ [_]). split; [by rewrite app_assoc|].
    rewrite length_app. simpl. lia.
  - eexists. split; [done|lia].
  - eexists. split; [done|lia].
Qed.

(** X10. Every error that [Validate] returns is one of the four it makes
    itself or the error that [RowProof.Validate] returned. *)
Theorem Validate_errors (sp : ShareProof) (root : bytes) (w w' : World)
    (err : error E) :
  Validate V R sp root w = (Returned (Some err), w') ->
  err = errors_New text_counts
  \/ err = errors_New text_negative
  \/ err = errors_New text_total
  \/ err = errors_New text_inconsistent
  \/ exists e, R (RowProof_ sp) root = Some e /\ err = RowProof_error e.
Proof.
  rewrite Validate_unfold.
  destruct (numberOfSharesInProofs sp); [|discriminate].
  destruct (counts_agree sp); [|intros [= <- _]; by left].
  destruct (check_ranges (E := E) (ShareProofs sp)) as [[err0|]|p] eqn:Hr;
    [| |discriminate].
  { intros [= <- _]. clear -Hr.
    induction (ShareProofs sp) as [|[proof|] rest IH]; simpl in Hr; [done| |done].
    destruct (_ <? 0); [injection Hr as <-; by right; left|].
    destruct (_ <=? 0); [injection Hr as <-; by right; right; left|by apply IH]. }
  destruct (VerifyProof V sp w) as [[[|]|p] w0]; [| |discriminate].
  - destruct (R (RowProof_ sp) root) as [e|] eqn:He; simpl; [|discriminate].
    intros [= <- _]. repeat right. by exists e.
  - intros [= <- _]. by right; right; right; left.
Qed.

Lemma check_ranges_sane (proofs : list tmproto.NMTProof) :
  Forall (fun proof => tmproto.Start proof <= tmproto.End proof) proofs ->
  declared_shares proofs <= MaxInt32 ->
  check_ranges (E := E) (Some <$> proofs) = Returned None
  <-> Forall (fun proof => 0 <= tmproto.Start proof < tmproto.End proof) proofs.
Proof.
  induction 1 as [|proof rest Hle Hrest IH]; intros Hmax.
  - split; [constructor|done].
  - pose proof (declared_shares_nonneg rest Hrest) as H0.
    cbn [declared_shares foldr] in Hmax. fold (declared_shares rest) in Hmax.
    cbn [fmap list_fmap check_ranges deref mbind outcome_mbind outcome_bind].
    change (list_fmap tmproto.NMTProof (option tmproto.NMTProof) Some rest)
      with (Some <$> rest).
    unfold int32_sub.
    rewrite wrap32_small by (unfold is_int32, MinInt32, MaxInt32 in *; lia).
    rewrite Forall_cons.
    destruct (Z.ltb_spec (tmproto.Start proof) 0); [split; [done|lia]|].
    destruct (Z.leb_spec (tmproto.End proof - tmproto.Start proof) 0);
      [split; [done|lia]|].
    rewrite IH by lia. split; [intros ?; split; [lia|done]|by intros [_ ?]].
Qed.

(** X11. The acceptance criterion, where nothing wraps around. For a proof
    in which every row has [start <= end], and both the declared share count
    and [len(Data)] are at most the largest [int32], [Validate] returns nil
    exactly when no row is nil, there are as many row roots as per-row
    proofs, [len(Data)] is the declared share count, every row has
    [0 <= start < end], the row-inclusion verifier accepts every row on its
    shares and row root, and [RowProof.Validate] returns nil. *)
Theorem Validate_accepts_iff (sp : ShareProof) (root : bytes) (w : World) :
  Forall (fun proof => tmproto.Start proof <= tmproto.End proof)
    (pointees (ShareProofs sp)) ->
  declared_shares (pointees (ShareProofs sp)) <= MaxInt32 ->
  Z.of_nat (len (Data sp)) <= MaxInt32 ->
  fst (Validate V R sp root w) = Returned None
  <-> Forall is_Some (ShareProofs sp)
      /\ length (RowRoots (RowProof_ sp)) = length (ShareProofs sp)
      /\ Z.of_nat (len (Data sp)) = declared_shares (pointees (ShareProofs sp))
      /\ Forall (fun proof => 0 <= tmproto.Start proof < tmproto.End proof)
           (pointees (ShareProofs sp))
      /\ forallb (verdict V) (row_calls sp 0 0 (pointees (ShareProofs sp))) = true
      /\ R (RowProof_ sp) root = None.
Proof.
  intros Hall Hmax Hlen.
  destruct (decide (Forall is_Some (ShareProofs sp))) as [Hsome|Hnil].
  2:{ rewrite Validate_unfold, (numberOfSharesInProofs_nil sp Hnil).
      split; [discriminate|]. by intros (? & _). }
  pose proof (declared_shares_nonneg _ Hall) as H0.
  pose proof (check_ranges_sane _ Hall Hmax) as Hranges.
  rewrite <- (Forall_is_Some_pointees _ Hsome) in Hranges.
  destruct (counts_agree sp) eqn:Hc.
  2:{ rewrite Validate_unfold, Hc, (numberOfSharesInProofs_wrapped sp Hsome).
      split; [discriminate|]. intros (_ & Hr & Hd & _).
      assert (counts_agree sp = true) as Hc'; [|congruence].
      apply counts_agree_iff. split; [done|]. split; [done|].
      by rewrite Hd, Z.sub_diag. }
  destruct (Validate_unfold_counts_agree V R sp root w Hc) as (bad & Hbad & ->).
  apply counts_agree_iff in Hc as (_ & Hroots & Hmod).
  assert (Z.of_nat (len (Data sp)) = declared_shares (pointees (ShareProofs sp)))
    as Hd.
  { apply Z.mod_divide in Hmod as [q Hq]; [|lia]. unfold MaxInt32 in *. lia. }
  rewrite Hbad in Hranges.
  destruct bad as [err|].
  { split; [discriminate|]. intros (_ & _ & _ & Hf & _).
    apply Hranges in Hf. discriminate. }
  rewrite VerifyProof_walks by (try done; lia).
  destruct (forallb _ _).
  - cbn [fst]. split.
    + intros Hres. repeat split; try done; [by apply Hranges|].
      destruct (R _ _); [discriminate|done].
    + by intros (_ & _ & _ & _ & _ & ->).
  - split; [discriminate|]. by intros (_ & _ & _ & _ & ? & _).
Qed.

(** X12. An accepted proof has had all its data verified. For a proof as in
    X11 on which [Validate] returns nil, the run made one row-inclusion call
    per row, then the call to [RowProof.Validate], and the shares handed to
    the row-inclusion verifier, put end to end in the order of the calls,
    are exactly [Data]. *)
Theorem Validate_verifies_all_data (sp : ShareProof) (root : bytes) (w w' : World) :
  Forall (fun proof => tmproto.Start proof <= tmproto.End proof)
    (pointees (ShareProofs sp)) ->
  declared_shares (pointees (ShareProofs sp)) <= MaxInt32 ->
  Z.of_nat (len (Data sp)) <= MaxInt32 ->
  Validate V R sp root w = (Returned None, w') ->
  exists cs,
    trace w' = trace w ++ cs ++ [RowProof_Validate_call (RowProof_ sp) root]
    /\ length cs = length (ShareProofs sp)
    /\ Forall is_VerifyInclusion_call cs
    /\ concat (leaves_of <$> cs) = items (Data sp).
Proof.
  intros Hall Hmax Hlen Hrun.
  pose proof (declared_shares_nonneg _ Hall) as H0.
  destruct (counts_agree sp) eqn:Hc.
  2:{ rewrite Validate_unfold, Hc in Hrun.
      destruct (numberOfSharesInProofs sp); discriminate. }
  destruct (Validate_unfold_counts_agree V R sp root w Hc) as (bad & Hbad & Heq).
  rewrite Heq in Hrun. clear Heq.
  apply counts_agree_iff in Hc as (Hsome & Hroots & Hmod).
  assert (Z.of_nat (len (Data sp)) = declared_shares (pointees (ShareProofs sp)))
    as Hd.
  { apply Z.mod_divide in Hmod as [q Hq]; [|lia]. unfold MaxInt32 in *. lia. }
  destruct bad; [discriminate|].
  rewrite VerifyProof_walks in Hrun by (try done; lia).
  destruct (forallb _ _) eqn:Hv; [|discriminate].
  rewrite (through_first_failure_all _ Hv) in Hrun.
  cbn [caller_proof caller_root trace] in Hrun.
  injection Hrun as _ <-. cbn [trace].
  exists (row_calls sp 0 0 (pointees (ShareProofs sp))).
  split; [by rewrite <- app_assoc|]. split.
  { rewrite row_calls_length. rewrite (Forall_is_Some_pointees _ Hsome) at 2.
    by rewrite length_fmap. }
  split.
  - apply row_calls_are_VerifyInclusion_calls.
  - rewrite row_calls_leaves by done. rewrite drop_0, <- Hd, Nat2Z.id.
    apply firstn_all.
Qed.

(** X29. A nil row makes [Validate] panic in its first loop, before any
    check and any verifier call, whatever the rest of the proof. *)
Theorem Validate_nil_row (sp : ShareProof) (root : bytes) (w : World) :
  ~ Forall is_Some (ShareProofs sp) ->
  Validate V R sp root w = (Panicked nil_pointer_dereference, w).
Proof.
  intros Hnil. by rewrite Validate_unfold, (numberOfSharesInProofs_nil sp Hnil).
Qed.

End AcceptedProofs.

Lemma Validate_errors_one_share_no_rows :
  Validate accept_all rows_accepted one_share_no_rows dataRoot
    (world_of one_share_no_rows dataRoot)
  = (Returned (Some (errors_New text_counts)), world_of one_share_no_rows dataRoot)
  /\ (errors_New (E := string) text_counts = errors_New text_counts
      \/ errors_New (E := string) text_counts = errors_New text_negative
      \/ errors_New (E := string) text_counts = errors_New text_total
      \/ errors_New (E := string) text_counts = errors_New text_inconsistent
      \/ exists e, rows_accepted (RowProof_ one_share_no_rows) dataRoot = Some e
                   /\ errors_New (E := string) text_counts = RowProof_error e).
Proof.
  split; [reflexivity|].
  exact (Validate_errors accept_all rows_accepted one_share_no_rows dataRoot
           (world_of one_share_no_rows dataRoot) (world_of one_share_no_rows dataRoot)
           (errors_New text_counts) eq_refl).
Defined.

Lemma two_rows_no_overflow :
  Forall (fun proof => tmproto.Start proof <= tmproto.End proof)
    (pointees (ShareProofs two_rows))
  /\ declared_shares (pointees (ShareProofs two_rows)) <= MaxInt32
  /\ Z.of_nat (len (Data two_rows)) <= MaxInt32.
Proof.
  split; [repeat constructor; simpl; lia|].
  split; vm_compute; discriminate.
Defined.

Lemma Validate_accepts_two_rows :
  (Forall (fun proof => tmproto.Start proof <= tmproto.End proof)
     (pointees (ShareProofs two_rows))
   /\ declared_shares (pointees (ShareProofs two_rows)) <= MaxInt32
   /\ Z.of_nat (len (Data two_rows)) <= MaxInt32)
  /\ (fst (Validate accept_all rows_accepted two_rows dataRoot
             (world_of two_rows dataRoot)) = Returned None
      <-> Forall is_Some (ShareProofs two_rows)
          /\ length (RowRoots (RowProof_ two_rows)) = length (ShareProofs two_rows)
          /\ Z.of_nat (len (Data two_rows))
             = declared_shares (pointees (ShareProofs two_rows))
          /\ Forall (fun proof => 0 <= tmproto.Start proof < tmproto.End proof)
               (pointees (ShareProofs two_rows))
          /\ forallb (verdict accept_all)
               (row_calls two_rows 0 0 (pointees (ShareProofs two_rows)))
             = true
          /\ rows_accepted (RowProof_ two_rows) dataRoot = None).
Proof.
  split; [exact two_rows_no_overflow|].
  exact (Validate_accepts_iff accept_all rows_accepted two_rows dataRoot
           (world_of two_rows dataRoot)
           (proj1 two_rows_no_overflow)
           (proj1 (proj2 two_rows_no_overflow))
           (proj2 (proj2 two_rows_no_overflow))).
Defined.

Lemma Validate_verifies_all_data_two_rows :
  (Forall (fun proof => tmproto.Start proof <= tmproto.End proof)
     (pointees (ShareProofs two_rows))
   /\ declared_shares (pointees (ShareProofs two_rows)) <= MaxInt32
   /\ Z.of_nat (len (Data two_rows)) <= MaxInt32)
  /\ exists cs,
      [nmt_VerifyInclusion 0 2 [] namespace [share0; share1] rowRoot0;
       nmt_VerifyInclusion 0 1 [] namespace [share2] rowRoot1;
       RowProof_Validate_call two_row_proof dataRoot]
      = [] ++ cs ++ [RowProof_Validate_call (RowProof_ two_rows) dataRoot]
      /\ length cs = length (ShareProofs two_rows)
      /\ Forall is_VerifyInclusion_call cs
      /\ concat (leaves_of <$> cs) = items (Data two_rows).
Proof.
  split; [exact two_rows_no_overflow|].
  exact (Validate_verifies_all_data accept_all rows_accepted two_rows dataRoot
           (world_of two_rows dataRoot)
           (mkWorld two_rows dataRoot
              [nmt_VerifyInclusion 0 2 [] namespace [share0; share1] rowRoot0;
               nmt_VerifyInclusion 0 1 [] namespace [share2] rowRoot1;
               RowProof_Validate_call two_row_proof dataRoot])
           (proj1 two_rows_no_overflow)
           (proj1 (proj2 two_rows_no_overflow))
           (proj2 (proj2 two_rows_no_overflow))
           eq_refl).
Defined.

Lemma nil_row_has_nil : ~ Forall is_Some (ShareProofs nil_row).
Proof. intros H. apply Forall_cons in H as [[x Hx] _]. discriminate. Defined.

(** On a proof whose one row is nil, with a row root and a share for it,
    [Validate] panics without calling a verifier. *)
Lemma Validate_nil_row_panics :
  Validate accept_all rows_accepted nil_row dataRoot (world_of nil_row dataRoot)
  = (Panicked nil_pointer_dereference, world_of nil_row dataRoot).
Proof.
  exact (Validate_nil_row accept_all rows_accepted nil_row dataRoot
           (world_of nil_row dataRoot) nil_row_has_nil).
Defined.
(** ** The p2p codec: facts *)

(** ** The varint helpers: facts *)

Lemma sovTypes_log2 (x : Z) : 0 <= x -> sovTypes x = Z.log2 x / 7 + 1.
Proof.
  intros Hx. unfold sovTypes, Len64.
  destruct (Z.eqb_spec (Z.lor x 1) 0) as [H0|_].
  { apply Z.lor_eq_0_iff in H0 as [_ H1]. discriminate. }
  rewrite Z.log2_lor by lia.
  change (Z.log2 1) with 0. rewrite Z.max_l by apply Z.log2_nonneg.
  replace (Z.log2 x + 1 + 6) with (Z.log2 x + 1 * 7) by lia.
  by rewrite Z.div_add by lia.
Qed.

Lemma sovTypes_small (x : Z) : 0 <= x < 2 ^ 7 -> sovTypes x = 1.
Proof.
  intros Hx. rewrite sovTypes_log2 by lia.
  destruct (Z.eq_dec x 0) as [->|Hne]; [done|].
  assert (Z.log2 x < 7) by (apply Z.log2_lt_pow2; lia).
  pose proof (Z.log2_nonneg x). rewrite Z.div_small; lia.
Qed.

Lemma sovTypes_step (x : Z) :
  2 ^ 7 <= x -> sovTypes x = 1 + sovTypes (Z.shiftr x 7).
Proof.
  intros Hx.
  assert (0 <= Z.shiftr x 7) by (apply Z.shiftr_nonneg; lia).
  rewrite !sovTypes_log2 by lia.
  rewrite Z.log2_shiftr by lia.
  assert (7 <= Z.log2 x) by (apply Z.log2_le_pow2; lia).
  rewrite Z.max_r by lia.
  replace (Z.log2 x) with ((Z.log2 x - 7) + 1 * 7) at 1 by lia.
  rewrite Z.div_add by lia. lia.
Qed.

Lemma log2_shiftr_fuel (fuel : nat) (v : Z) :
  2 ^ 7 <= v -> (Z.to_nat (Z.log2 v) <= S fuel)%nat ->
  (Z.to_nat (Z.log2 (Z.shiftr v 7)) <= fuel)%nat.
Proof.
  intros Hv Hf. rewrite Z.log2_shiftr by lia.
  assert (7 <= Z.log2 v) by (apply Z.log2_le_pow2; lia). lia.
Qed.

Lemma log2_fuel_zero (v : Z) : (Z.to_nat (Z.log2 v) <= 0)%nat -> v < 2 ^ 7.
Proof.
  intros Hf. destruct (Z.lt_ge_cases v (2 ^ 7)) as [|Hge]; [done|].
  assert (7 <= Z.log2 v) by (apply Z.log2_le_pow2; lia). lia.
Qed.

(** [sovTypes] counts the seven-bit groups of a [uint64]. *)
Lemma sovTypes_range (x : Z) :
  is_uint64 x ->
  1 <= sovTypes x <= 10
  /\ x < 2 ^ (7 * sovTypes x)
  /\ (1 < sovTypes x -> 2 ^ (7 * (sovTypes x - 1)) <= x).
Proof.
  intros [H0 H64]. rewrite sovTypes_log2 by done.
  pose proof (Z.log2_nonneg x) as Hl.
  pose proof (Z.div_pos (Z.log2 x) 7 Hl ltac:(lia)) as Hq.
  pose proof (Z.mul_div_le (Z.log2 x) 7 ltac:(lia)) as Hle.
  pose proof (Z.mul_succ_div_gt (Z.log2 x) 7 ltac:(lia)) as Hgt.
  destruct (Z.eq_dec x 0) as [->|Hne].
  { change (Z.log2 0 / 7) with 0. split; [lia|]. split; [done|lia]. }
  destruct (Z.log2_spec x ltac:(lia)) as [Hlo Hhi].
  assert (Z.log2 x < 64) by (apply Z.log2_lt_pow2; lia).
  split; [|split].
  - split; [lia|]. assert (Z.log2 x / 7 < 10); [|lia].
    apply Z.div_lt_upper_bound; lia.
  - eapply Z.lt_le_trans; [exact Hhi|].
    apply Z.pow_le_mono_r; lia.
  - intros _. eapply Z.le_trans; [|exact Hlo].
    apply Z.pow_le_mono_r; lia.
Qed.

(** Bytes and bits. *)
Lemma land_127 (v : Z) : 0 <= v -> 0 <= Z.land v 127 < 2 ^ 7.
Proof.
  intros Hv. change 127 with (Z.ones 7). rewrite Z.land_ones by lia.
  apply Z.mod_pos_bound. lia.
Qed.

Lemma lor_128 (x : Z) : 0 <= x < 2 ^ 7 -> Z.lor x 128 = x + 128.
Proof.
  intros Hx. pose proof (Z.add_lor_land x 128) as H.
  assert (Z.land x 128 = 0) as H0; [|lia].
  apply Z.bits_inj'. intros n Hn. rewrite Z.land_spec, Z.bits_0.
  destruct (Z.eq_dec n 7) as [->|Hne].
  - rewrite (Z.bits_above_log2 x 7); [done|lia|].
    destruct (Z.eq_dec x 0) as [->|]; [simpl; lia|].
    apply Z.log2_lt_pow2; lia.
  - replace (Z.testbit 128 n) with false; [apply andb_false_r|].
    change 128 with (2 ^ 7). symmetry. apply Z.pow2_bits_false. lia.
Qed.

Lemma continuation_byte (v : Z) :
  0 <= v ->
  2 ^ 7 <= uint8 (Z.lor (Z.land v 127) 128) < 2 ^ 8
  /\ Z.land (uint8 (Z.lor (Z.land v 127) 128)) 127 = Z.land v 127.
Proof.
  intros Hv. pose proof (land_127 v Hv) as Hl.
  rewrite lor_128 by done. unfold uint8.
  rewrite Z.mod_small by lia. split; [lia|].
  rewrite <- lor_128 by done.
  rewrite Z.land_lor_distr_l, <- Z.land_assoc.
  change (Z.land 127 127) with 127. change (Z.land 128 127) with 0.
  apply Z.lor_0_r.
Qed.

Lemma last_byte (v : Z) :
  0 <= v < 2 ^ 7 -> uint8 v = v /\ Z.land v 127 = v.
Proof.
  intros Hv. unfold uint8. rewrite Z.mod_small by lia. split; [done|].
  change 127 with (Z.ones 7). rewrite Z.land_ones by lia.
  apply Z.mod_small. lia.
Qed.

Lemma split_low_bits (v : Z) :
  Z.lor (Z.land v 127) (Z.shiftl (Z.shiftr v 7) 7) = v.
Proof.
  change 127 with (Z.ones 7). rewrite <- Z.ldiff_ones_r by lia.
  apply Z.bits_inj'. intros n Hn.
  rewrite Z.lor_spec, Z.land_spec, Z.ldiff_spec.
  destruct (Z.testbit v n), (Z.testbit (Z.ones 7) n); done.
Qed.

Lemma uint64_shl_small (x s : Z) :
  0 <= x -> 0 <= s -> x * 2 ^ s < 2 ^ 64 -> uint64_shl x s = Z.shiftl x s.
Proof.
  intros Hx Hs Hlt. unfold uint64_shl. rewrite Z.shiftl_mul_pow2 by done.
  apply Z.mod_small. split; [|done]. apply Z.mul_nonneg_nonneg; lia.
Qed.

Lemma varint_bytes_length (fuel : nat) :
  forall v, 0 <= v -> (Z.to_nat (Z.log2 v) <= fuel)%nat ->
  Z.of_nat (length (varint_bytes fuel v)) = sovTypes v.
Proof.
  induction fuel as [|fuel IH]; intros v Hv Hf.
  - simpl. rewrite sovTypes_small; [done|]. split; [done|by apply log2_fuel_zero].
  - cbn [varint_bytes].
    destruct (Z.geb_spec v (2 ^ 7)) as [Hge|Hlt].
    + cbn [length]. rewrite Nat2Z.inj_succ, IH, (sovTypes_step v); try lia.
      * apply Z.shiftr_nonneg; lia.
      * by apply log2_shiftr_fuel.
    + simpl. rewrite sovTypes_small; [done|lia].
Qed.

Lemma varint_length (v : Z) :
  0 <= v -> Z.of_nat (length (varint v)) = sovTypes v.
Proof. intros Hv. by apply varint_bytes_length. Qed.

Lemma varint_bytes_are_bytes (fuel : nat) :
  forall v, 0 <= v -> Forall is_byte (varint_bytes fuel v).
Proof.
  assert (forall z, is_byte (uint8 z)) as Hb.
  { intros z. unfold is_byte, uint8. apply Z.mod_pos_bound. lia. }
  induction fuel as [|fuel IH]; intros v Hv; cbn [varint_bytes].
  - constructor; [apply Hb|constructor].
  - destruct (_ >=? _); [|constructor; [apply Hb|constructor]].
    constructor; [apply Hb|]. apply IH, Z.shiftr_nonneg. lia.
Qed.

Lemma store_at (pre post : list Z) (old b : Z) :
  store (pre ++ old :: post) (Z.of_nat (length pre)) b = Done (pre ++ b :: post).
Proof.
  unfold store. rewrite length_app. cbn [length].
  replace ((0 <=? Z.of_nat (length pre))
           && (Z.of_nat (length pre) <? Z.of_nat (length pre + S (length post))))
    with true by (symmetry; rewrite andb_true_iff, Z.leb_le, Z.ltb_lt; lia).
  f_equal. rewrite Nat2Z.id, insert_app_r_alt by lia.
  by rewrite Nat.sub_diag.
Qed.

Lemma load_at (pre post : list Z) (b : Z) :
  load (pre ++ b :: post) (Z.of_nat (length pre)) = Done b.
Proof.
  unfold load.
  replace (0 <=? Z.of_nat (length pre)) with true by (symmetry; apply Z.leb_le; lia).
  by rewrite Nat2Z.id, list_lookup_middle.
Qed.

(** The loop of [encodeVarintTypes] and the store that follows it write the
    bytes of the varint over what was there. *)
Lemma encodeVarintTypes_loop_writes (fuel : nat) :
  forall v pre olds post,
    0 <= v ->
    (Z.to_nat (Z.log2 v) <= fuel)%nat ->
    length olds = length (varint_bytes fuel v) ->
    encodeVarintTypes_loop fuel (pre ++ olds ++ post) (Z.of_nat (length pre)) v
    ≫= (fun '(dAtA, offset, v) => store dAtA offset (uint8 v))
    = Done (pre ++ varint_bytes fuel v ++ post).
Proof.
  induction fuel as [|fuel IH]; intros v pre olds post Hv Hf Hlen.
  - cbn [varint_bytes length] in *. destruct olds as [|old [|]]; try discriminate.
    cbn [encodeVarintTypes_loop mbind run_mbind run_bind app]. apply store_at.
  - cbn [varint_bytes encodeVarintTypes_loop] in *.
    destruct (Z.geb_spec v (2 ^ 7)) as [Hge|Hlt].
    + destruct olds as [|old olds]; [discriminate|]. cbn [length app] in *.
      rewrite store_at. cbn [mbind run_mbind run_bind].
      replace (Z.of_nat (length pre) + 1)
        with (Z.of_nat (length (pre ++ [uint8 (Z.lor (Z.land v 127) 128)])))
        by (rewrite length_app; simpl; lia).
      rewrite (cons_middle _ pre), app_assoc.
      rewrite IH; [by rewrite <- app_assoc| | |lia].
      * apply Z.shiftr_nonneg. lia.
      * by apply log2_shiftr_fuel.
    + destruct olds as [|old [|]]; try discriminate.
      cbn [mbind run_mbind run_bind app]. apply store_at.
Qed.

(** With room for the varint before [offset], [encodeVarintTypes] writes it
    there, leaves the rest of the buffer as it was, and returns where the
    varint starts. *)
Lemma encodeVarintTypes_writes (dAtA : list Z) (offset v : Z) :
  0 <= v ->
  sovTypes v <= offset <= Z.of_nat (length dAtA) ->
  encodeVarintTypes dAtA offset v
  = Done (take (Z.to_nat (offset - sovTypes v)) dAtA
            ++ varint v ++ drop (Z.to_nat offset) dAtA,
          offset - sovTypes v).
Proof.
  intros Hv Hoff. pose proof (varint_length v Hv) as Hlen.
  set (a := Z.to_nat (offset - sovTypes v)).
  set (n := length (varint v)) in *.
  assert (Z.of_nat a = offset - sovTypes v) as Ha by (unfold a; lia).
  assert (Z.to_nat offset = (a + n)%nat) as Hoff' by lia.
  assert (a + n <= length dAtA)%nat as Hfit by lia.
  assert (length (take n (drop a dAtA))
          = length (varint_bytes (Z.to_nat (Z.log2 v)) v)) as Hn.
  { rewrite length_take_le; [done|]. rewrite length_drop. lia. }
  clearbody a n.
  assert (dAtA = take a dAtA ++ take n (drop a dAtA) ++ drop (Z.to_nat offset) dAtA)
    as Hsplit.
  { by rewrite Hoff', <- drop_drop, !take_drop. }
  unfold encodeVarintTypes.
  pose proof (encodeVarintTypes_loop_writes (Z.to_nat (Z.log2 v)) v
                (take a dAtA) (take n (drop a dAtA)) (drop (Z.to_nat offset) dAtA)
                Hv (le_n _)) as Hloop.
  rewrite (length_take_le dAtA a) in Hloop by lia.
  rewrite Ha, <- Hsplit in Hloop.
  destruct (encodeVarintTypes_loop _ dAtA _ v) as [[[d o] v']|f];
    cbn [mbind run_mbind run_bind] in *.
  - by rewrite (Hloop Hn).
  - specialize (Hloop Hn). discriminate.
Qed.

(** Without that room the first store is at a negative index: a panic. *)
Lemma encodeVarintTypes_panics (dAtA : list Z) (offset v : Z) :
  offset < sovTypes v ->
  encodeVarintTypes dAtA offset v
  = Fault (index_fault (offset - sovTypes v) (length dAtA)).
Proof.
  intros Hoff. unfold encodeVarintTypes.
  assert (forall b, store dAtA (offset - sovTypes v) b
                    = Fault (index_fault (offset - sovTypes v) (length dAtA))) as Hst.
  { intros b. unfold store.
    destruct (Z.leb_spec 0 (offset - sovTypes v)); [lia|done]. }
  destruct (Z.to_nat (Z.log2 v)) as [|fuel]; cbn [encodeVarintTypes_loop].
  - cbn [mbind run_mbind run_bind]. by rewrite Hst.
  - destruct (_ >=? _); cbn [mbind run_mbind run_bind]; by rewrite Hst.
Qed.

Lemma shifts_are_shifts_from : shifts = shifts_from 0 10.
Proof. reflexivity. Qed.

(** Reading back what [encodeVarintTypes] wrote: the loop that accumulates a
    [uint64] ors [v], shifted, into what it has, and stops after the
    varint. *)
Lemma read_uint64_varint (fuel : nat) :
  forall v shift n pre post x,
    0 <= v -> 0 <= shift ->
    v * 2 ^ shift < 2 ^ 64 ->
    (Z.to_nat (Z.log2 v) <= fuel)%nat ->
    (length (varint_bytes fuel v) <= n)%nat ->
    read_uint64 (shifts_from shift n) (pre ++ varint_bytes fuel v ++ post)
      (Z.of_nat (length pre)) x
    = Done (Z.lor x (Z.shiftl v shift),
            Z.of_nat (length pre + length (varint_bytes fuel v)), None).
Proof.
  assert (forall (v : Z) (pre post : list Z) shift rest x,
            0 <= v < 2 ^ 7 -> 0 <= shift -> v * 2 ^ shift < 2 ^ 64 ->
            read_uint64 (shift :: rest) (pre ++ [uint8 v] ++ post)
              (Z.of_nat (length pre)) x
            = Done (Z.lor x (Z.shiftl v shift), Z.of_nat (length pre + 1), None))
    as Hlast.
  { intros v pre post shift rest x Hv Hs Hlt.
    destruct (last_byte v Hv) as [Hu Hl]. rewrite Hu.
    cbn [read_uint64 app].
    destruct (Z.geb_spec (Z.of_nat (length pre))
                (Z.of_nat (length (pre ++ v :: post)))) as [Hge|_].
    { rewrite length_app in Hge. simpl in Hge. lia. }
    rewrite load_at. cbn [mbind run_mbind run_bind mret run_mret].
    rewrite Hl, uint64_shl_small by lia.
    destruct (Z.ltb_spec v 128); [|lia].
    do 3 f_equal. lia. }
  induction fuel as [|fuel IH]; intros v shift n pre post x Hv Hs Hlt Hf Hn.
  - cbn [varint_bytes length] in *. destruct n as [|n]; [lia|].
    cbn [shifts_from]. apply Hlast; try done.
    split; [done|by apply log2_fuel_zero].
  - cbn [varint_bytes] in *.
    destruct (Z.geb_spec v (2 ^ 7)) as [Hge|Hsmall].
    2:{ destruct n as [|n]; [simpl in Hn; lia|]. cbn [shifts_from length].
        apply Hlast; try done; lia. }
    destruct n as [|n]; [simpl in Hn; lia|].
    destruct (continuation_byte v Hv) as [Hb Hland].
    set (b := uint8 (Z.lor (Z.land v 127) 128)) in *.
    cbn [shifts_from read_uint64 app length] in *.
    destruct (Z.geb_spec (Z.of_nat (length pre))
                (Z.of_nat (length (pre ++ b :: varint_bytes fuel (Z.shiftr v 7) ++ post))))
      as [Hge'|_].
    { rewrite length_app in Hge'. simpl in Hge'. lia. }
    rewrite load_at. cbn [mbind run_mbind run_bind].
    destruct (Z.ltb_spec b 128); [lia|].
    rewrite Hland.
    pose proof (land_127 v Hv) as Hl.
    assert (0 < 2 ^ shift) by (apply Z.pow_pos_nonneg; lia).
    rewrite uint64_shl_small by (try lia; nia).
    replace (Z.of_nat (length pre) + 1) with (Z.of_nat (length (pre ++ [b])))
      by (rewrite length_app; simpl; lia).
    rewrite (cons_middle b pre), app_assoc.
    assert (0 <= Z.shiftr v 7) as Hv' by (apply Z.shiftr_nonneg; lia).
    rewrite IH; try done; try lia.
    + assert (Z.lor (Z.lor x (Z.shiftl (Z.land v 127) shift))
                     (Z.shiftl (Z.shiftr v 7) (shift + 7))
              = Z.lor x (Z.shiftl v shift)) as ->.
      { rewrite <- Z.lor_assoc. f_equal.
        rewrite (Z.add_comm shift 7), <- Z.shiftl_shiftl, <- Z.shiftl_lor by lia.
        by rewrite split_low_bits. }
      rewrite length_app. cbn [length]. do 3 f_equal. lia.
    + rewrite Z.shiftr_div_pow2 by lia. rewrite Z.pow_add_r by lia.
      pose proof (Z.mul_div_le v (2 ^ 7) ltac:(lia)). nia.
    + by apply log2_shiftr_fuel.
Qed.

Lemma field_bytes_length (tag v : Z) :
  0 <= v ->
  Z.of_nat (length (field_bytes tag v))
  = if negb (v =? 0) then 1 + sovTypes v else 0.
Proof.
  intros Hv. unfold field_bytes. destruct (v =? 0); [done|].
  cbn [length negb]. rewrite Nat2Z.inj_succ, varint_length; lia.
Qed.

Lemma encoding_length (m : ProtocolVersion) :
  well_typed m -> Z.of_nat (length (encoding m)) = ProtocolVersion_Size m.
Proof.
  intros ([HP _] & [HB _] & [HA _]). unfold encoding, ProtocolVersion_Size.
  rewrite !length_app, !Nat2Z.inj_add, !field_bytes_length by done.
  destruct (negb (P2P m =? 0)), (negb (Block m =? 0)), (negb (App m =? 0)); lia.
Qed.

(** One field of [MarshalToSizedBuffer]: on a buffer whose bytes from [i] on
    are written already, it puts the field just before them. *)
Lemma put_field (room written : list Z) (tag v : Z) :
  0 <= v ->
  (length (field_bytes tag v) <= length room)%nat ->
  (if negb (v =? 0) then
     '(dAtA, i) ← encodeVarintTypes (room ++ written) (Z.of_nat (length room)) v;
     dAtA ← store dAtA (i - 1) tag;
     mret (dAtA, i - 1)
   else mret (room ++ written, Z.of_nat (length room)))
  = Done (take (length room - length (field_bytes tag v)) room
            ++ field_bytes tag v ++ written,
          Z.of_nat (length room - length (field_bytes tag v))).
Proof.
  intros Hv Hroom. pose proof (field_bytes_length tag v Hv) as Hlen.
  unfold field_bytes in *. destruct (Z.eqb_spec v 0) as [->|Hne]; cbn [negb] in *.
  { cbn [length app]. by rewrite Nat.sub_0_r, firstn_all. }
  cbn [length] in *. pose proof (varint_length v Hv) as Hvar.
  rewrite encodeVarintTypes_writes by (try done; rewrite length_app; lia).
  cbn [mbind run_mbind run_bind mret run_mret].
  rewrite Nat2Z.id, drop_app_length.
  set (k := (length room - S (length (varint v)))%nat).
  replace (Z.to_nat (Z.of_nat (length room) - sovTypes v)) with (S k) by lia.
  rewrite take_app_le by lia.
  destruct (lookup_lt_is_Some_2 room k) as [old Hold]; [lia|].
  rewrite (take_S_r _ _ _ Hold), <- app_assoc. cbn [app].
  replace (Z.of_nat (length room) - sovTypes v - 1)
    with (Z.of_nat (length (take k room)))
    by (rewrite length_take_le; lia).
  rewrite store_at. by rewrite length_take_le by lia.
Qed.

Lemma slice_to_all (dAtA : list Z) (n : Z) :
  n = Z.of_nat (length dAtA) -> slice_to dAtA n = Done dAtA.
Proof.
  intros ->. unfold slice_to.
  replace ((0 <=? Z.of_nat (length dAtA))
           && (Z.of_nat (length dAtA) <=? Z.of_nat (length dAtA)))
    with true by (symmetry; rewrite andb_true_iff, !Z.leb_le; lia).
  by rewrite Nat2Z.id, firstn_all.
Qed.

(** [Marshal] returns the three fields, in the order of their numbers. *)
Lemma ProtocolVersion_Marshal_encoding (m : ProtocolVersion) :
  well_typed m -> ProtocolVersion_Marshal m = Done (encoding m, None).
Proof.
  intros Hm. pose proof (encoding_length m Hm) as Hsize.
  destruct Hm as ([HP _] & [HB _] & [HA _]).
  unfold ProtocolVersion_Marshal. rewrite <- Hsize, Nat2Z.id.
  rewrite slice_to_all by (by rewrite length_replicate).
  cbn [mbind run_mbind run_bind]. unfold ProtocolVersion_MarshalToSizedBuffer.
  cbv zeta. unfold encoding in *. rewrite !length_app in *.
  set (fP := field_bytes 8 (P2P m)) in *.
  set (fB := field_bytes 16 (Block m)) in *.
  set (fA := field_bytes 24 (App m)) in *.
  rewrite length_replicate.
  pose proof (put_field (replicate (length fP + (length fB + length fA)) 0) []
                24 (App m) HA) as HputA.
  rewrite app_nil_r, length_replicate in HputA.
  rewrite HputA by (fold fA; lia). clear HputA.
  cbn [mbind run_mbind run_bind]. rewrite take_replicate.
  replace (length fP + (length fB + length fA) - length (field_bytes 24 (App m)))%nat
    with (length fP + length fB)%nat by (fold fA; lia).
  rewrite Nat.min_l by lia. fold fA. rewrite app_nil_r.
  pose proof (put_field (replicate (length fP + length fB) 0) fA
                16 (Block m) HB) as HputB.
  rewrite length_replicate in HputB.
  rewrite HputB by (fold fB; lia). clear HputB.
  cbn [mbind run_mbind run_bind]. rewrite take_replicate.
  replace (length fP + length fB - length (field_bytes 16 (Block m)))%nat
    with (length fP) by (fold fB; lia).
  rewrite Nat.min_l by lia. fold fB.
  pose proof (put_field (replicate (length fP) 0) (fB ++ fA) 8 (P2P m) HP) as HputP.
  rewrite length_replicate in HputP.
  rewrite HputP by (fold fP; lia). clear HputP.
  cbn [mbind run_mbind run_bind mret run_mret]. fold fP.
  rewrite Nat.sub_diag. cbn [take replicate app].
  rewrite slice_to_all by (rewrite !length_app; lia).
  reflexivity.
Qed.

Lemma read_uint64_varint_from_0 (v : Z) (pre post : list Z) :
  is_uint64 v ->
  read_uint64 shifts (pre ++ varint v ++ post) (Z.of_nat (length pre)) 0
  = Done (v, Z.of_nat (length pre + length (varint v)), None).
Proof.
  intros [Hv H64].
  pose proof (varint_length v Hv) as Hlen.
  pose proof (sovTypes_range v (conj Hv H64)) as [[_ Hs10] _].
  rewrite shifts_are_shifts_from. unfold varint.
  rewrite read_uint64_varint; try done; try lia.
  fold (varint v). lia.
Qed.

Lemma read_tag (tag : Z) (pre post : list Z) :
  0 <= tag < 2 ^ 7 ->
  read_uint64 shifts (pre ++ tag :: post) (Z.of_nat (length pre)) 0
  = Done (tag, Z.of_nat (length pre) + 1, None).
Proof.
  intros Htag. unfold shifts. cbn [read_uint64].
  destruct (Z.geb_spec (Z.of_nat (length pre))
              (Z.of_nat (length (pre ++ tag :: post)))) as [Hge|_].
  { rewrite length_app in Hge. simpl in Hge. lia. }
  rewrite load_at. cbn [mbind run_mbind run_bind mret run_mret].
  destruct (last_byte tag Htag) as [_ Hl]. rewrite Hl.
  destruct (Z.ltb_spec tag 128); [|lia].
  unfold uint64_shl. rewrite Z.shiftl_0_r, Z.mod_small by lia. done.
Qed.

Lemma ProtocolVersion_Unmarshal_loop_end (fuel : nat) (m : ProtocolVersion)
    (dAtA : list Z) :
  ProtocolVersion_Unmarshal_loop fuel m dAtA (Z.of_nat (length dAtA))
  = Done (m, None).
Proof.
  destruct fuel; cbn [ProtocolVersion_Unmarshal_loop].
  - destruct (Z.gtb_spec (Z.of_nat (length dAtA)) (Z.of_nat (length dAtA))); [lia|done].
  - destruct (Z.ltb_spec (Z.of_nat (length dAtA)) (Z.of_nat (length dAtA))); [lia|].
    destruct (Z.gtb_spec (Z.of_nat (length dAtA)) (Z.of_nat (length dAtA))); [lia|done].
Qed.

(** Decoding one field that the encoder wrote: nothing to do when the field
    was zero, else one turn of the loop, which stores the value. *)
Lemma ProtocolVersion_Unmarshal_field (k : Z) (fuel : nat) (m : ProtocolVersion)
    (pre post : list Z) (v : Z) :
  k = 1 \/ k = 2 \/ k = 3 ->
  is_uint64 v ->
  (v <> 0 -> (1 <= fuel)%nat) ->
  ProtocolVersion_Unmarshal_loop fuel m (pre ++ field_bytes (8 * k) v ++ post)
    (Z.of_nat (length pre))
  = ProtocolVersion_Unmarshal_loop
      (if v =? 0 then fuel else pred fuel)
      (if v =? 0 then m
       else mkProtocolVersion (if k =? 1 then v else P2P m)
                              (if k =? 2 then v else Block m)
                              (if k =? 3 then v else App m))
      (pre ++ field_bytes (8 * k) v ++ post)
      (Z.of_nat (length (pre ++ field_bytes (8 * k) v))).
Proof.
  intros Hk Hv Hfuel. unfold field_bytes.
  destruct (Z.eqb_spec v 0) as [->|Hne].
  { by rewrite app_nil_r. }
  destruct fuel as [|fuel]; [specialize (Hfuel Hne); lia|]. cbn [pred app].
  cbn [ProtocolVersion_Unmarshal_loop].
  destruct (Z.ltb_spec (Z.of_nat (length pre))
              (Z.of_nat (length (pre ++ 8 * k :: varint v ++ post)))) as [_|Hge].
  2:{ rewrite length_app in Hge. simpl in Hge. lia. }
  unfold ProtocolVersion_Unmarshal_turn.
  rewrite read_tag by lia. cbn [mbind run_mbind run_bind].
  replace (Z.of_nat (length pre) + 1) with (Z.of_nat (length (pre ++ [8 * k])))
    by (rewrite length_app; simpl; lia).
  rewrite (cons_middle (8 * k) pre), app_assoc.
  rewrite read_uint64_varint_from_0 by done.
  cbn [mbind run_mbind run_bind].
  destruct Hk as [-> | [-> | ->]].
  - change (Z.land (8 * 1) 7) with 0. change (wrap32 (Z.shiftr (8 * 1) 3)) with 1.
    cbn [Z.eqb Z.leb Z.compare Pos.compare Pos.compare_cont Pos.eqb negb].
    f_equal; rewrite <- ?app_assoc, ?length_app; simpl; try done; lia.
  - change (Z.land (8 * 2) 7) with 0. change (wrap32 (Z.shiftr (8 * 2) 3)) with 2.
    cbn [Z.eqb Z.leb Z.compare Pos.compare Pos.compare_cont Pos.eqb negb].
    f_equal; rewrite <- ?app_assoc, ?length_app; simpl; try done; lia.
  - change (Z.land (8 * 3) 7) with 0. change (wrap32 (Z.shiftr (8 * 3) 3)) with 3.
    cbn [Z.eqb Z.leb Z.compare Pos.compare Pos.compare_cont Pos.eqb negb].
    f_equal; rewrite <- ?app_assoc, ?length_app; simpl; try done; lia.
Qed.

Lemma varint_nonempty (v : Z) : (1 <= length (varint v))%nat.
Proof.
  unfold varint. destruct (Z.to_nat (Z.log2 v)); cbn [varint_bytes].
  - simpl. lia.
  - destruct (_ >=? _); simpl; lia.
Qed.

(** Decoding what [Marshal] returned stores every field that was not zero
    and leaves the others as they were. *)
Lemma ProtocolVersion_Unmarshal_encoding (m0 m : ProtocolVersion) :
  well_typed m ->
  ProtocolVersion_Unmarshal m0 (encoding m) = Done (overlay m0 m, None).
Proof.
  intros (HP & HB & HA). unfold ProtocolVersion_Unmarshal, encoding.
  set (fP := field_bytes 8 (P2P m)).
  set (fB := field_bytes 16 (Block m)).
  set (fA := field_bytes 24 (App m)).
  assert (P2P m <> 0 -> (2 <= length fP)%nat) as HlP.
  { intros Hne. unfold fP, field_bytes. destruct (Z.eqb_spec (P2P m) 0); [done|].
    pose proof (varint_nonempty (P2P m)). simpl. lia. }
  assert (Block m <> 0 -> (2 <= length fB)%nat) as HlB.
  { intros Hne. unfold fB, field_bytes. destruct (Z.eqb_spec (Block m) 0); [done|].
    pose proof (varint_nonempty (Block m)). simpl. lia. }
  assert (App m <> 0 -> (2 <= length fA)%nat) as HlA.
  { intros Hne. unfold fA, field_bytes. destruct (Z.eqb_spec (App m) 0); [done|].
    pose proof (varint_nonempty (App m)). simpl. lia. }
  rewrite !length_app.
  pose proof (ProtocolVersion_Unmarshal_field 1
                (length fP + (length fB + length fA)) m0 [] (fB ++ fA) (P2P m)
                ltac:(auto) HP) as H1.
  change (8 * 1) with 8 in H1. fold fP in H1. cbn [app length] in H1.
  change (Z.of_nat 0) with 0 in H1.
  rewrite H1 by (intros Hne; specialize (HlP Hne); lia). clear H1.
  set (f1 := if P2P m =? 0 then _ else _).
  set (m1 := if P2P m =? 0 then _ else _).
  pose proof (ProtocolVersion_Unmarshal_field 2 f1 m1 fP fA (Block m)
                ltac:(auto) HB) as H2.
  change (8 * 2) with 16 in H2. fold fB in H2.
  rewrite H2.
  2:{ intros Hne. specialize (HlB Hne). unfold f1.
      destruct (Z.eqb_spec (P2P m) 0) as [?|HnP]; try specialize (HlP HnP); lia. }
  clear H2.
  set (f2 := if Block m =? 0 then _ else _).
  set (m2 := if Block m =? 0 then _ else _).
  pose proof (ProtocolVersion_Unmarshal_field 3 f2 m2 (fP ++ fB) [] (App m)
                ltac:(auto) HA) as H3.
  change (8 * 3) with 24 in H3. fold fA in H3.
  rewrite app_nil_r, <- !app_assoc in H3. rewrite H3.
  2:{ intros Hne. specialize (HlA Hne). unfold f2, f1.
      destruct (Z.eqb_spec (P2P m) 0) as [?|HnP];
        destruct (Z.eqb_spec (Block m) 0) as [?|HnB];
        try specialize (HlP HnP); try specialize (HlB HnB); lia. }
  clear H3. rewrite ProtocolVersion_Unmarshal_loop_end.
  unfold overlay, m2, m1. destruct m0 as [p0 b0 a0]. cbn [P2P Block App].
  destruct (P2P m =? 0), (Block m =? 0), (App m =? 0); reflexivity.
Qed.

(** ** The decoder reads within bounds *)

Lemma load_in_range (dAtA : list Z) (i : Z) :
  0 <= i < Z.of_nat (length dAtA) -> exists b, load dAtA i = Done b.
Proof.
  intros Hi. unfold load.
  destruct (Z.leb_spec 0 i); [|lia].
  destruct (lookup_lt_is_Some_2 dAtA (Z.to_nat i)) as [b ->]; [lia|by exists b].
Qed.

Lemma read_uint64_returns (sh : list Z) (dAtA : list Z) :
  forall iNdEx x,
    0 <= iNdEx ->
    exists x' iNdEx' err,
      read_uint64 sh dAtA iNdEx x = Done (x', iNdEx', err)
      /\ iNdEx <= iNdEx'
      /\ (err = None -> iNdEx < iNdEx' <= Z.of_nat (length dAtA)).
Proof.
  induction sh as [|shift rest IH]; intros iNdEx x Hi; cbn [read_uint64].
  - eexists _, _, _. split; [done|]. split; [lia|discriminate].
  - destruct (Z.geb_spec iNdEx (Z.of_nat (length dAtA))) as [Hge|Hlt].
    { eexists _, _, _. split; [done|]. split; [lia|discriminate]. }
    destruct (load_in_range dAtA iNdEx) as [b ->]; [lia|].
    cbn [mbind run_mbind run_bind].
    destruct (b <? 128).
    + eexists _, _, _. split; [done|]. lia.
    + destruct (IH (iNdEx + 1) (Z.lor x (uint64_shl (Z.land b 127) shift)))
        as (x' & i' & err & -> & Hle & Herr); [lia|].
      eexists _, _, _. split; [done|]. split; [lia|]. intros He. specialize (Herr He). lia.
Qed.

Lemma skip_varint_returns (sh : list Z) (dAtA : list Z) :
  forall iNdEx,
    0 <= iNdEx ->
    exists iNdEx' err,
      skip_varint sh dAtA iNdEx = Done (iNdEx', err)
      /\ iNdEx <= iNdEx'
      /\ (err = None -> iNdEx < iNdEx' <= Z.of_nat (length dAtA)).
Proof.
  induction sh as [|shift rest IH]; intros iNdEx Hi; cbn [skip_varint].
  - eexists _, _. split; [done|]. split; [lia|discriminate].
  - destruct (Z.geb_spec iNdEx (Z.of_nat (length dAtA))) as [Hge|Hlt].
    { eexists _, _. split; [done|]. split; [lia|discriminate]. }
    replace (iNdEx + 1 - 1) with iNdEx by lia.
    destruct (load_in_range dAtA iNdEx) as [b ->]; [lia|].
    cbn [mbind run_mbind run_bind].
    destruct (b <? 128).
    + eexists _, _. split; [done|]. lia.
    + destruct (IH (iNdEx + 1)) as (i' & err & -> & Hle & Herr); [lia|].
      eexists _, _. split; [done|]. split; [lia|]. intros He. specialize (Herr He). lia.
Qed.

Lemma wrap64_range (z : Z) : - 2 ^ 63 <= wrap64 z < 2 ^ 63.
Proof.
  unfold wrap64. pose proof (Z.mod_pos_bound (z + 2 ^ 63) (2 ^ 64) ltac:(lia)). lia.
Qed.

Lemma land_upper_bound (p q : Z) : 0 <= p -> 0 <= Z.land p q <= p.
Proof.
  intros Hp. split; [apply Z.land_nonneg; by left|].
  pose proof (Z.add_lor_land (Z.ldiff p q) (Z.land p q)) as Hadd.
  rewrite Z.lor_ldiff_and in Hadd.
  assert (Z.land (Z.ldiff p q) (Z.land p q) = 0) as H0.
  { apply Z.bits_inj'. intros n Hn.
    rewrite !Z.land_spec, Z.ldiff_spec, Z.bits_0.
    destruct (Z.testbit p n), (Z.testbit q n); done. }
  assert (0 <= Z.ldiff p q) by (apply Z.ldiff_nonneg; by left).
  lia.
Qed.

(** [|] on [int] values gives an [int] value. *)
Lemma lor_int_range (a b : Z) :
  - 2 ^ 63 <= a < 2 ^ 63 -> - 2 ^ 63 <= b < 2 ^ 63 ->
  - 2 ^ 63 <= Z.lor a b < 2 ^ 63.
Proof.
  intros Ha Hb.
  assert (forall a b, - 2 ^ 63 <= a < 0 -> - 2 ^ 63 <= Z.lor a b < 0) as Hneg.
  { intros a' b' Ha'. split; [|apply Z.lor_neg; left; lia].
    pose proof (Z.lnot_lor a' b') as Hl.
    pose proof (land_upper_bound (Z.lnot a') (Z.lnot b')) as Hu.
    rewrite !Z.lnot_eq_pred_opp in *. lia. }
  destruct (Z.lt_ge_cases a 0) as [Ha0|Ha0].
  { pose proof (Hneg a b ltac:(lia)). lia. }
  destruct (Z.lt_ge_cases b 0) as [Hb0|Hb0].
  { pose proof (Hneg b a ltac:(lia)). rewrite Z.lor_comm. lia. }
  assert (0 <= Z.lor a b) by (apply Z.lor_nonneg; lia).
  split; [lia|].
  destruct (Z.eq_dec (Z.lor a b) 0) as [->|Hne]; [lia|].
  apply Z.log2_lt_pow2; [lia|]. rewrite Z.log2_lor by lia.
  destruct (Z.eq_dec a 0) as [->|]; destruct (Z.eq_dec b 0) as [->|];
    rewrite ?Z.lor_0_l, ?Z.lor_0_r in *; try done;
    apply Z.max_lub_lt; try (apply Z.log2_lt_pow2; lia); simpl; lia.
Qed.

Lemma read_length_returns (sh : list Z) (dAtA : list Z) :
  forall iNdEx x,
    0 <= iNdEx ->
    - 2 ^ 63 <= x < 2 ^ 63 ->
    exists x' iNdEx' err,
      read_length sh dAtA iNdEx x = Done (x', iNdEx', err)
      /\ iNdEx <= iNdEx'
      /\ - 2 ^ 63 <= x' < 2 ^ 63
      /\ (err = None -> iNdEx < iNdEx' <= Z.of_nat (length dAtA)).
Proof.
  induction sh as [|shift rest IH]; intros iNdEx x Hi Hx; cbn [read_length].
  - eexists _, _, _. split; [done|]. split; [lia|]. split; [done|discriminate].
  - destruct (Z.geb_spec iNdEx (Z.of_nat (length dAtA))) as [Hge|Hlt].
    { eexists _, _, _. split; [done|]. split; [lia|]. split; [done|discriminate]. }
    destruct (load_in_range dAtA iNdEx) as [b ->]; [lia|].
    cbn [mbind run_mbind run_bind].
    pose proof (lor_int_range x (int_shl (Z.land b 127) shift) Hx
                  (wrap64_range _)) as Hx'.
    destruct (b <? 128).
    + eexists _, _, _. split; [done|]. lia.
    + destruct (IH (iNdEx + 1) (Z.lor x (int_shl (Z.land b 127) shift)))
        as (x' & i' & err & -> & Hle & Hr & Herr); [lia|done|].
      eexists _, _, _. split; [done|]. split; [lia|]. split; [done|].
      intros He. specialize (Herr He). lia.
Qed.

(** An [int] sum of two values that are not negative, when it is not
    negative either, is the sum: it did not wrap around. *)
Lemma int_add_nonneg (a b : Z) :
  0 <= a < 2 ^ 63 -> 0 <= b < 2 ^ 63 -> 0 <= int_add a b -> int_add a b = a + b.
Proof.
  unfold int_add, wrap64. intros Ha Hb Hsum.
  destruct (Z.lt_ge_cases (a + b) (2 ^ 63)) as [Hlt|Hge].
  - rewrite Z.mod_small; lia.
  - replace (a + b + 2 ^ 63) with ((a + b - 2 ^ 63) + 1 * 2 ^ 64) in * by lia.
    rewrite Z.mod_add in * by lia. rewrite Z.mod_small in * by lia. lia.
Qed.

(** One turn of the loop of [skipTypes] never panics, and when it goes on or
    returns a count the index has moved forward. *)
Lemma skipTypes_loop_returns (fuel : nat) (dAtA : list Z) :
  forall iNdEx depth,
    0 <= iNdEx ->
    exists n err,
      skipTypes_loop fuel dAtA iNdEx depth = Done (n, err)
      /\ (Z.of_nat (length dAtA) < 2 ^ 63 -> err = None -> iNdEx < n < 2 ^ 63).
Proof.
  induction fuel as [|fuel IH]; intros iNdEx depth Hi; cbn [skipTypes_loop].
  { eexists _, _. split; [done|discriminate]. }
  destruct (Z.ltb_spec iNdEx (Z.of_nat (length dAtA))) as [Hlt|Hge].
  2:{ eexists _, _. split; [done|discriminate]. }
  unfold skipTypes_turn.
  destruct (read_uint64_returns shifts dAtA iNdEx 0 Hi)
    as (wire & i1 & err1 & -> & Hle1 & Herr1).
  cbn [mbind run_mbind run_bind].
  destruct err1 as [e|]; [eexists _, _; split; [done|discriminate]|].
  specialize (Herr1 eq_refl).
  assert (forall i2 depth2 (err2 : option codec_error),
            (Z.of_nat (length dAtA) < 2 ^ 63 -> err2 = None -> i2 < 0 \/ i1 <= i2 < 2 ^ 63) ->
            exists n err,
              match err2 with
              | Some err => mret (0, Some err)
              | None =>
                  if i2 <? 0 then mret (0, Some ErrInvalidLengthTypes)
                  else if depth2 =? 0 then mret (i2, None)
                       else skipTypes_loop fuel dAtA i2 depth2
              end = Done (n, err)
              /\ (Z.of_nat (length dAtA) < 2 ^ 63 -> err = None -> iNdEx < n < 2 ^ 63))
    as Hrest.
  { intros i2 depth2 [e|] H2; [eexists _, _; split; [done|discriminate]|].
    destruct (Z.ltb_spec i2 0) as [Hneg|Hpos];
      [eexists _, _; split; [done|discriminate]|].
    destruct (depth2 =? 0).
    - eexists _, _. split; [done|]. intros Hl _.
      destruct (H2 Hl eq_refl); lia.
    - destruct (IH i2 depth2 Hpos) as (n & err & -> & Hn).
      eexists _, _. split; [done|]. intros Hl He.
      specialize (Hn Hl He). destruct (H2 Hl eq_refl); lia. }
  assert (forall k, 0 <= k < 2 ^ 62 ->
            Z.of_nat (length dAtA) < 2 ^ 63 ->
            int_add i1 k < 0 \/ i1 <= int_add i1 k < 2 ^ 63) as Hadd.
  { intros k Hk Hl. pose proof (wrap64_range (i1 + k)) as Hr.
    destruct (Z.lt_ge_cases (int_add i1 k) 0) as [|Hnn]; [by left|right].
    pose proof (int_add_nonneg i1 k ltac:(lia) ltac:(lia) Hnn) as Heq.
    unfold int_add in *. lia. }
  destruct (Z.land wire 7 =? 0).
  { destruct (skip_varint_returns shifts dAtA i1) as (i2 & err2 & -> & Hle2 & Herr2);
      [lia|].
    cbn [mbind run_mbind run_bind mret run_mret]. apply Hrest.
    intros Hl He. specialize (Herr2 He). right. lia. }
  destruct (Z.land wire 7 =? 1).
  { cbn [mbind run_mbind run_bind mret run_mret].
    apply (Hrest (int_add i1 8) depth None).
    intros Hl _. apply Hadd; [lia|done]. }
  destruct (Z.land wire 7 =? 2).
  { destruct (read_length_returns shifts dAtA i1 0)
      as (len & i2 & err2 & -> & Hle2 & Hlen & Herr2); [lia|lia|].
    cbn [mbind run_mbind run_bind mret run_mret].
    destruct err2 as [e|]; cbn [mbind run_mbind run_bind mret run_mret];
      [eexists _, _; split; [done|discriminate]|].
    specialize (Herr2 eq_refl).
    destruct (Z.ltb_spec len 0) as [Hneg|Hpos];
      cbn [mbind run_mbind run_bind mret run_mret];
      [eexists _, _; split; [done|discriminate]|].
    apply (Hrest (int_add i2 len) depth None). intros Hl _.
    pose proof (wrap64_range (i2 + len)) as Hr.
    destruct (Z.lt_ge_cases (int_add i2 len) 0) as [|Hnn]; [by left|right].
    pose proof (int_add_nonneg i2 len ltac:(lia) ltac:(lia) Hnn) as Heq.
    unfold int_add in *. lia. }
  destruct (Z.land wire 7 =? 3).
  { cbn [mbind run_mbind run_bind mret run_mret].
    apply (Hrest i1 (int_add depth 1) None).
    intros Hl _. right. lia. }
  destruct (Z.land wire 7 =? 4).
  { destruct (depth =? 0); cbn [mbind run_mbind run_bind mret run_mret];
      [eexists _, _; split; [done|discriminate]|].
    apply (Hrest i1 (int_add depth (-1)) None). intros Hl _. right. lia. }
  destruct (Z.land wire 7 =? 5).
  { cbn [mbind run_mbind run_bind mret run_mret].
    apply (Hrest (int_add i1 4) depth None).
    intros Hl _. apply Hadd; [lia|done]. }
  cbn [mbind run_mbind run_bind mret run_mret].
  eexists _, _. split; [done|discriminate].
Qed.

(** [ProtocolVersion.Unmarshal] reads within bounds, whatever the input. *)
Lemma ProtocolVersion_Unmarshal_loop_returns (fuel : nat) (dAtA : list Z) :
  forall m iNdEx,
    0 <= iNdEx ->
    exists m' err, ProtocolVersion_Unmarshal_loop fuel m dAtA iNdEx = Done (m', err).
Proof.
  induction fuel as [|fuel IH]; intros m iNdEx Hi; cbn [ProtocolVersion_Unmarshal_loop].
  { destruct (iNdEx >? _); eexists _, _; done. }
  destruct (Z.ltb_spec iNdEx (Z.of_nat (length dAtA))) as [Hlt|Hge].
  2:{ destruct (iNdEx >? _); eexists _, _; done. }
  unfold ProtocolVersion_Unmarshal_turn. cbv zeta.
  destruct (read_uint64_returns shifts dAtA iNdEx 0 Hi)
    as (wire & i1 & err1 & -> & Hle1 & Herr1).
  cbn [mbind run_mbind run_bind].
  destruct err1 as [e|]; [eexists _, _; done|].
  destruct (Z.land wire 7 =? 4); [eexists _, _; done|].
  destruct (wrap32 (Z.shiftr wire 3) <=? 0); [eexists _, _; done|].
  assert (forall (set : Z -> ProtocolVersion),
            exists m' err,
              ('(x, iNdEx, err) ← read_uint64 shifts dAtA i1 0;
               match err with
               | Some err => mret (set x, Some err)
               | None => ProtocolVersion_Unmarshal_loop fuel (set x) dAtA iNdEx
               end) = Done (m', err)) as Hfield.
  { intros set.
    destruct (read_uint64_returns shifts dAtA i1 0 ltac:(lia))
      as (x & i2 & err2 & -> & Hle2 & _).
    cbn [mbind run_mbind run_bind].
    destruct err2 as [e|]; [eexists _, _; done|]. apply IH. lia. }
  destruct (wrap32 (Z.shiftr wire 3) =? 1).
  { destruct (negb _); [eexists _, _; done|].
    apply (Hfield (fun x => mkProtocolVersion x (Block m) (App m))). }
  destruct (wrap32 (Z.shiftr wire 3) =? 2).
  { destruct (negb _); [eexists _, _; done|].
    apply (Hfield (fun x => mkProtocolVersion (P2P m) x (App m))). }
  destruct (wrap32 (Z.shiftr wire 3) =? 3).
  { destruct (negb _); [eexists _, _; done|].
    apply (Hfield (fun x => mkProtocolVersion (P2P m) (Block m) x)). }
  unfold slice_from.
  replace ((0 <=? iNdEx) && (iNdEx <=? Z.of_nat (length dAtA))) with true
    by (symmetry; rewrite andb_true_iff, !Z.leb_le; lia).
  cbn [mbind run_mbind run_bind]. unfold skipTypes.
  destruct (skipTypes_loop_returns (length (drop (Z.to_nat iNdEx) dAtA))
              (drop (Z.to_nat iNdEx) dAtA) 0 0 ltac:(lia))
    as (skippy & err & -> & _).
  cbn [mbind run_mbind run_bind].
  destruct err as [e|]; [eexists _, _; done|].
  destruct (skippy <? 0); [eexists _, _; done|]. cbn [orb].
  destruct (Z.ltb_spec (int_add iNdEx skippy) 0); [eexists _, _; done|].
  destruct (_ >? _); [eexists _, _; done|].
  by apply IH.
Qed.

(** *** The fuel of the loops is never used up *)

(** A turn of the loop of [skipTypes] goes on only at a later index. *)
Lemma skipTypes_turn_ext (again1 again2 : Z -> Z -> run (Z * option codec_error))
    (dAtA : list Z) (iNdEx depth : Z) :
  0 <= iNdEx ->
  Z.of_nat (length dAtA) < 2 ^ 63 ->
  (forall i d, iNdEx < i -> again1 i d = again2 i d) ->
  skipTypes_turn again1 dAtA iNdEx depth = skipTypes_turn again2 dAtA iNdEx depth.
Proof.
  intros Hi Hl Hagain. unfold skipTypes_turn.
  destruct (read_uint64_returns shifts dAtA iNdEx 0 Hi)
    as (wire & i1 & err1 & -> & Hle1 & Herr1).
  cbn [mbind run_mbind run_bind].
  destruct err1 as [e|]; [done|]. specialize (Herr1 eq_refl).
  assert (forall i2 depth2 (err2 : option codec_error),
            (err2 = None -> i2 < 0 \/ i1 <= i2) ->
            match err2 with
            | Some err => mret (0, Some err)
            | None =>
                if i2 <? 0 then mret (0, Some ErrInvalidLengthTypes)
                else if depth2 =? 0 then mret (i2, None)
                     else again1 i2 depth2
            end
            = match err2 with
              | Some err => mret (0, Some err)
              | None =>
                  if i2 <? 0 then mret (0, Some ErrInvalidLengthTypes)
                  else if depth2 =? 0 then mret (i2, None)
                       else again2 i2 depth2
              end) as Hrest.
  { intros i2 depth2 [e|] H2; [done|].
    destruct (Z.ltb_spec i2 0) as [Hneg|Hpos]; [done|].
    destruct (depth2 =? 0); [done|].
    apply Hagain. destruct (H2 eq_refl); lia. }
  assert (forall k, 0 <= k < 2 ^ 62 ->
            int_add i1 k < 0 \/ i1 <= int_add i1 k) as Hadd.
  { intros k Hk. pose proof (wrap64_range (i1 + k)) as Hr.
    destruct (Z.lt_ge_cases (int_add i1 k) 0) as [|Hnn]; [by left|right].
    pose proof (int_add_nonneg i1 k ltac:(lia) ltac:(lia) Hnn) as Heq.
    unfold int_add in *. lia. }
  destruct (Z.land wire 7 =? 0).
  { destruct (skip_varint_returns shifts dAtA i1) as (i2 & err2 & -> & Hle2 & Herr2);
      [lia|].
    cbn [mbind run_mbind run_bind mret run_mret]. apply Hrest.
    intros He. right. lia. }
  destruct (Z.land wire 7 =? 1).
  { cbn [mbind run_mbind run_bind mret run_mret].
    apply (Hrest (int_add i1 8) depth None). intros _. apply Hadd. lia. }
  destruct (Z.land wire 7 =? 2).
  { destruct (read_length_returns shifts dAtA i1 0)
      as (len & i2 & err2 & -> & Hle2 & Hlen & Herr2); [lia|lia|].
    cbn [mbind run_mbind run_bind mret run_mret].
    destruct err2 as [e|]; cbn [mbind run_mbind run_bind mret run_mret]; [done|].
    specialize (Herr2 eq_refl).
    destruct (Z.ltb_spec len 0) as [Hneg|Hpos];
      cbn [mbind run_mbind run_bind mret run_mret]; [done|].
    apply (Hrest (int_add i2 len) depth None). intros _.
    destruct (Z.lt_ge_cases (int_add i2 len) 0) as [|Hnn]; [by left|right].
    pose proof (int_add_nonneg i2 len ltac:(lia) ltac:(lia) Hnn) as Heq.
    unfold int_add in *. lia. }
  destruct (Z.land wire 7 =? 3).
  { cbn [mbind run_mbind run_bind mret run_mret].
    apply (Hrest i1 (int_add depth 1) None). intros _. right. lia. }
  destruct (Z.land wire 7 =? 4).
  { destruct (depth =? 0); cbn [mbind run_mbind run_bind mret run_mret]; [done|].
    apply (Hrest i1 (int_add depth (-1)) None). intros _. right. lia. }
  destruct (Z.land wire 7 =? 5).
  { cbn [mbind run_mbind run_bind mret run_mret].
    apply (Hrest (int_add i1 4) depth None). intros _. apply Hadd. lia. }
  done.
Qed.

(** With fuel for every byte that is left, the loop of [skipTypes] does not
    depend on the fuel. *)
Lemma skipTypes_loop_fuel (dAtA : list Z) (fuel1 : nat) :
  forall fuel2 iNdEx depth,
    Z.of_nat (length dAtA) < 2 ^ 63 ->
    0 <= iNdEx ->
    Z.of_nat (length dAtA) - iNdEx <= Z.of_nat fuel1 ->
    Z.of_nat (length dAtA) - iNdEx <= Z.of_nat fuel2 ->
    skipTypes_loop fuel1 dAtA iNdEx depth = skipTypes_loop fuel2 dAtA iNdEx depth.
Proof.
  induction fuel1 as [|fuel1 IH]; intros fuel2 iNdEx depth Hl Hi H1 H2.
  - destruct fuel2 as [|fuel2]; cbn [skipTypes_loop]; [done|].
    destruct (Z.ltb_spec iNdEx (Z.of_nat (length dAtA))); [lia|done].
  - destruct fuel2 as [|fuel2]; cbn [skipTypes_loop];
      destruct (Z.ltb_spec iNdEx (Z.of_nat (length dAtA))); try done; try lia.
    apply skipTypes_turn_ext; try done.
    intros i d Hlt. apply IH; lia.
Qed.

(** A turn of the loop of [ProtocolVersion.Unmarshal] goes on only at a later
    index. *)
Lemma ProtocolVersion_Unmarshal_turn_ext
    (again1 again2 : ProtocolVersion -> Z -> run (ProtocolVersion * option codec_error))
    (m : ProtocolVersion) (dAtA : list Z) (iNdEx : Z) :
  0 <= iNdEx < Z.of_nat (length dAtA) ->
  Z.of_nat (length dAtA) < 2 ^ 63 ->
  (forall m' i, iNdEx < i -> again1 m' i = again2 m' i) ->
  ProtocolVersion_Unmarshal_turn again1 m dAtA iNdEx
  = ProtocolVersion_Unmarshal_turn again2 m dAtA iNdEx.
Proof.
  intros Hi Hl Hagain. unfold ProtocolVersion_Unmarshal_turn. cbv zeta.
  destruct (read_uint64_returns shifts dAtA iNdEx 0 ltac:(lia))
    as (wire & i1 & err1 & -> & Hle1 & Herr1).
  cbn [mbind run_mbind run_bind].
  destruct err1 as [e|]; [done|]. specialize (Herr1 eq_refl).
  destruct (Z.land wire 7 =? 4); [done|].
  destruct (wrap32 (Z.shiftr wire 3) <=? 0); [done|].
  assert (forall (set : Z -> ProtocolVersion),
            ('(x, iNdEx, err) ← read_uint64 shifts dAtA i1 0;
             match err with
             | Some err => mret (set x, Some err)
             | None => again1 (set x) iNdEx
             end)
            = ('(x, iNdEx, err) ← read_uint64 shifts dAtA i1 0;
               match err with
               | Some err => mret (set x, Some err)
               | None => again2 (set x) iNdEx
               end)) as Hfield.
  { intros set.
    destruct (read_uint64_returns shifts dAtA i1 0 ltac:(lia))
      as (x & i2 & err2 & -> & Hle2 & _).
    cbn [mbind run_mbind run_bind].
    destruct err2 as [e|]; [done|]. apply Hagain. lia. }
  destruct (wrap32 (Z.shiftr wire 3) =? 1).
  { destruct (negb _); [done|].
    apply (Hfield (fun x => mkProtocolVersion x (Block m) (App m))). }
  destruct (wrap32 (Z.shiftr wire 3) =? 2).
  { destruct (negb _); [done|].
    apply (Hfield (fun x => mkProtocolVersion (P2P m) x (App m))). }
  destruct (wrap32 (Z.shiftr wire 3) =? 3).
  { destruct (negb _); [done|].
    apply (Hfield (fun x => mkProtocolVersion (P2P m) (Block m) x)). }
  unfold slice_from.
  replace ((0 <=? iNdEx) && (iNdEx <=? Z.of_nat (length dAtA))) with true
    by (symmetry; rewrite andb_true_iff, !Z.leb_le; lia).
  cbn [mbind run_mbind run_bind]. unfold skipTypes.
  destruct (skipTypes_loop_returns (length (drop (Z.to_nat iNdEx) dAtA))
              (drop (Z.to_nat iNdEx) dAtA) 0 0 ltac:(lia))
    as (skippy & err & -> & Hskip).
  cbn [mbind run_mbind run_bind].
  destruct err as [e|]; [done|].
  rewrite length_drop in Hskip. specialize (Hskip ltac:(lia) eq_refl).
  destruct (Z.ltb_spec skippy 0); [done|]. cbn [orb].
  destruct (Z.ltb_spec (int_add iNdEx skippy) 0) as [|Hnn]; [done|].
  destruct (_ >? _); [done|].
  apply Hagain.
  pose proof (int_add_nonneg iNdEx skippy ltac:(lia) ltac:(lia) Hnn). lia.
Qed.

(** With fuel for every byte that is left, the loop of
    [ProtocolVersion.Unmarshal] does not depend on the fuel. *)
Lemma ProtocolVersion_Unmarshal_loop_fuel (dAtA : list Z) (fuel1 : nat) :
  forall fuel2 m iNdEx,
    Z.of_nat (length dAtA) < 2 ^ 63 ->
    0 <= iNdEx ->
    Z.of_nat (length dAtA) - iNdEx <= Z.of_nat fuel1 ->
    Z.of_nat (length dAtA) - iNdEx <= Z.of_nat fuel2 ->
    ProtocolVersion_Unmarshal_loop fuel1 m dAtA iNdEx
    = ProtocolVersion_Unmarshal_loop fuel2 m dAtA iNdEx.
Proof.
  induction fuel1 as [|fuel1 IH]; intros fuel2 m iNdEx Hl Hi H1 H2.
  - destruct fuel2 as [|fuel2]; cbn [ProtocolVersion_Unmarshal_loop]; [done|].
    destruct (Z.ltb_spec iNdEx (Z.of_nat (length dAtA))); [lia|done].
  - destruct fuel2 as [|fuel2]; cbn [ProtocolVersion_Unmarshal_loop];
      destruct (Z.ltb_spec iNdEx (Z.of_nat (length dAtA))); try done; try lia.
    apply ProtocolVersion_Unmarshal_turn_ext; try done; try lia.
    intros m' i Hlt. apply IH; lia.
Qed.

(** *** The encoder fills its buffer from the end *)

Lemma put_field_at (room olds written : list Z) (tag v i : Z) :
  0 <= v ->
  length olds = length (field_bytes tag v) ->
  i = Z.of_nat (length room + length olds) ->
  (if negb (v =? 0) then
     '(dAtA, i) ← encodeVarintTypes (room ++ olds ++ written) i v;
     dAtA ← store dAtA (i - 1) tag;
     mret (dAtA, i - 1)
   else mret (room ++ olds ++ written, i))
  = Done (room ++ field_bytes tag v ++ written, Z.of_nat (length room)).
Proof.
  intros Hv Holds ->. rewrite <- length_app.
  pose proof (put_field (room ++ olds) written tag v Hv) as Hput.
  rewrite <- app_assoc in Hput. rewrite Hput by (rewrite length_app; lia).
  rewrite length_app, <- Holds.
  replace (length room + length olds - length olds)%nat with (length room) by lia.
  by rewrite take_app_length.
Qed.

Lemma put_field_no_room (room written : list Z) (tag v : Z) :
  0 <= v ->
  (length room < length (field_bytes tag v))%nat ->
  exists f,
    (if negb (v =? 0) then
       '(dAtA, i) ← encodeVarintTypes (room ++ written) (Z.of_nat (length room)) v;
       dAtA ← store dAtA (i - 1) tag;
       mret (dAtA, i - 1)
     else mret (room ++ written, Z.of_nat (length room)))
    = Fault f.
Proof.
  intros Hv Hroom. pose proof (field_bytes_length tag v Hv) as Hlen.
  unfold field_bytes in *. destruct (Z.eqb_spec v 0) as [->|Hne]; cbn [negb] in *.
  { cbn [length] in Hroom. lia. }
  destruct (Z.lt_ge_cases (Z.of_nat (length room)) (sovTypes v)) as [Hlt|Hge].
  { rewrite encodeVarintTypes_panics by done. by eexists. }
  rewrite encodeVarintTypes_writes by (try done; rewrite length_app; lia).
  cbn [mbind run_mbind run_bind]. unfold store.
  replace (0 <=? Z.of_nat (length room) - sovTypes v - 1) with false
    by (symmetry; apply Z.leb_gt; lia).
  by eexists.
Qed.

(** In a buffer with room for the message, [MarshalToSizedBuffer] writes the
    fields at the end and leaves what is before them. *)
Lemma ProtocolVersion_MarshalToSizedBuffer_fills (m : ProtocolVersion)
    (front olds : list Z) :
  well_typed m ->
  length olds = length (encoding m) ->
  ProtocolVersion_MarshalToSizedBuffer m (front ++ olds)
  = Done (front ++ encoding m, ProtocolVersion_Size m, None).
Proof.
  intros Hm Holds. pose proof (encoding_length m Hm) as Hsize.
  destruct Hm as ([HP _] & [HB _] & [HA _]).
  unfold encoding in *. rewrite !length_app in *.
  set (fP := field_bytes 8 (P2P m)) in *.
  set (fB := field_bytes 16 (Block m)) in *.
  set (fA := field_bytes 24 (App m)) in *.
  assert (exists oP oB oA, olds = oP ++ oB ++ oA /\ length oP = length fP
                           /\ length oB = length fB /\ length oA = length fA)
    as (oP & oB & oA & -> & HlP & HlB & HlA).
  { exists (take (length fP) olds), (take (length fB) (drop (length fP) olds)),
      (drop (length fB) (drop (length fP) olds)).
    rewrite !take_drop, !length_take, !length_drop. repeat split; lia. }
  unfold ProtocolVersion_MarshalToSizedBuffer. cbv zeta.
  replace (front ++ oP ++ oB ++ oA) with ((front ++ oP ++ oB) ++ oA ++ [])
    by (by rewrite app_nil_r, <- !app_assoc).
  rewrite (put_field_at (front ++ oP ++ oB) oA [] 24 (App m) _ HA HlA)
    by (rewrite !length_app; simpl; lia).
  cbn [mbind run_mbind run_bind]. fold fA. rewrite app_nil_r.
  replace ((front ++ oP ++ oB) ++ fA) with ((front ++ oP) ++ oB ++ fA)
    by (by rewrite <- !app_assoc).
  rewrite (put_field_at (front ++ oP) oB fA 16 (Block m) _ HB HlB)
    by (rewrite !length_app; lia).
  cbn [mbind run_mbind run_bind]. fold fB.
  rewrite <- (app_assoc front oP (fB ++ fA)).
  rewrite (put_field_at front oP (fB ++ fA) 8 (P2P m) _ HP HlP)
    by (rewrite ?length_app; lia).
  cbn [mbind run_mbind run_bind mret run_mret]. fold fP.
  unfold mret, run_mret. do 3 f_equal. rewrite <- Hsize, !length_app. lia.
Qed.

(** In a buffer without room for the message, it panics. *)
Lemma ProtocolVersion_MarshalToSizedBuffer_short (m : ProtocolVersion)
    (dAtA : list Z) :
  well_typed m ->
  (length dAtA < length (encoding m))%nat ->
  exists f, ProtocolVersion_MarshalToSizedBuffer m dAtA = Fault f.
Proof.
  intros ([HP _] & [HB _] & [HA _]) Hshort.
  unfold encoding in *. rewrite !length_app in *.
  set (fP := field_bytes 8 (P2P m)) in *.
  set (fB := field_bytes 16 (Block m)) in *.
  set (fA := field_bytes 24 (App m)) in *.
  unfold ProtocolVersion_MarshalToSizedBuffer. cbv zeta.
  destruct (Nat.lt_ge_cases (length dAtA) (length fA)) as [HltA|HgeA].
  { destruct (put_field_no_room dAtA [] 24 (App m) HA HltA) as [f Hf].
    rewrite app_nil_r in Hf. rewrite Hf. by exists f. }
  pose proof (put_field dAtA [] 24 (App m) HA HgeA) as HputA.
  rewrite !app_nil_r in HputA. rewrite HputA. clear HputA.
  cbn [mbind run_mbind run_bind]. fold fA.
  set (room1 := take (length dAtA - length fA) dAtA).
  assert (length room1 = (length dAtA - length fA)%nat) as Hl1
    by (unfold room1; rewrite length_take; lia).
  rewrite <- Hl1.
  destruct (Nat.lt_ge_cases (length room1) (length fB)) as [HltB|HgeB].
  { destruct (put_field_no_room room1 fA 16 (Block m) HB HltB) as [f ->]. by exists f. }
  rewrite (put_field room1 fA 16 (Block m) HB HgeB).
  cbn [mbind run_mbind run_bind]. fold fB.
  set (room2 := take (length room1 - length fB) room1).
  assert (length room2 = (length room1 - length fB)%nat) as Hl2
    by (unfold room2; rewrite length_take; lia).
  rewrite <- Hl2.
  destruct (put_field_no_room room2 (fB ++ fA) 8 (P2P m) HP ltac:(fold fP; lia))
    as [f ->].
  by exists f.
Qed.

(** *** Decoding inside a longer input *)

Lemma load_embed (pre mid post : list Z) (i b : Z) :
  load mid i = Done b ->
  0 <= i < Z.of_nat (length mid)
  /\ load (pre ++ mid ++ post) (Z.of_nat (length pre) + i) = Done b.
Proof.
  unfold load. intros Hload.
  destruct (Z.leb_spec 0 i) as [Hi|Hi]; [|done].
  destruct (mid !! Z.to_nat i) as [b'|] eqn:Hmid; [|done].
  injection Hload as ->.
  pose proof (lookup_lt_Some _ _ _ Hmid) as Hlt.
  split; [lia|].
  destruct (Z.leb_spec 0 (Z.of_nat (length pre) + i)); [|lia].
  replace (Z.to_nat (Z.of_nat (length pre) + i))
    with (length pre + Z.to_nat i)%nat by lia.
  rewrite lookup_app_r by lia.
  replace (length pre + Z.to_nat i - length pre)%nat with (Z.to_nat i) by lia.
  by rewrite lookup_app_l, Hmid by lia.
Qed.

Lemma read_uint64_embed (sh : list Z) (pre mid post : list Z) :
  forall i x x' i',
    read_uint64 sh mid i x = Done (x', i', None) ->
    0 <= i /\ i < i' <= Z.of_nat (length mid)
    /\ read_uint64 sh (pre ++ mid ++ post) (Z.of_nat (length pre) + i) x
       = Done (x', Z.of_nat (length pre) + i', None).
Proof.
  induction sh as [|shift rest IH]; intros i x x' i'; cbn [read_uint64]; [done|].
  destruct (Z.geb_spec i (Z.of_nat (length mid))) as [Hge|Hlt]; [done|].
  destruct (load mid i) as [b|f] eqn:Hload; [|done].
  destruct (load_embed pre mid post i b Hload) as [Hi Hload'].
  cbn [mbind run_mbind run_bind]. intros Hread.
  destruct (Z.geb_spec (Z.of_nat (length pre) + i)
              (Z.of_nat (length (pre ++ mid ++ post)))) as [Hge'|_].
  { rewrite !length_app in Hge'. lia. }
  rewrite Hload'. cbn [mbind run_mbind run_bind].
  destruct (b <? 128).
  - injection Hread as <- <-. split; [lia|]. split; [lia|]. do 3 f_equal. lia.
  - destruct (IH _ _ _ _ Hread) as (_ & Hlt' & Hrest). split; [lia|]. split; [lia|].
    rewrite <- Hrest. f_equal. lia.
Qed.

Lemma skip_varint_embed (sh : list Z) (pre mid post : list Z) :
  forall i i',
    skip_varint sh mid i = Done (i', None) ->
    0 <= i /\ i < i' <= Z.of_nat (length mid)
    /\ skip_varint sh (pre ++ mid ++ post) (Z.of_nat (length pre) + i)
       = Done (Z.of_nat (length pre) + i', None).
Proof.
  induction sh as [|shift rest IH]; intros i i'; cbn [skip_varint]; [done|].
  destruct (Z.geb_spec i (Z.of_nat (length mid))) as [Hge|Hlt]; [done|].
  replace (i + 1 - 1) with i by lia.
  replace (Z.of_nat (length pre) + i + 1 - 1) with (Z.of_nat (length pre) + i) by lia.
  destruct (load mid i) as [b|f] eqn:Hload; [|done].
  destruct (load_embed pre mid post i b Hload) as [Hi Hload'].
  cbn [mbind run_mbind run_bind]. intros Hread.
  destruct (Z.geb_spec (Z.of_nat (length pre) + i)
              (Z.of_nat (length (pre ++ mid ++ post)))) as [Hge'|_].
  { rewrite !length_app in Hge'. lia. }
  rewrite Hload'. cbn [mbind run_mbind run_bind].
  destruct (b <? 128).
  - injection Hread as <-. split; [lia|]. split; [lia|]. do 2 f_equal. lia.
  - destruct (IH _ _ Hread) as (_ & Hlt' & Hrest). split; [lia|]. split; [lia|].
    rewrite <- Hrest. f_equal. lia.
Qed.

Lemma read_length_embed (sh : list Z) (pre mid post : list Z) :
  forall i x x' i',
    read_length sh mid i x = Done (x', i', None) ->
    0 <= i /\ i < i' <= Z.of_nat (length mid)
    /\ read_length sh (pre ++ mid ++ post) (Z.of_nat (length pre) + i) x
       = Done (x', Z.of_nat (length pre) + i', None).
Proof.
  induction sh as [|shift rest IH]; intros i x x' i'; cbn [read_length]; [done|].
  destruct (Z.geb_spec i (Z.of_nat (length mid))) as [Hge|Hlt]; [done|].
  destruct (load mid i) as [b|f] eqn:Hload; [|done].
  destruct (load_embed pre mid post i b Hload) as [Hi Hload'].
  cbn [mbind run_mbind run_bind]. intros Hread.
  destruct (Z.geb_spec (Z.of_nat (length pre) + i)
              (Z.of_nat (length (pre ++ mid ++ post)))) as [Hge'|_].
  { rewrite !length_app in Hge'. lia. }
  rewrite Hload'. cbn [mbind run_mbind run_bind].
  destruct (b <? 128).
  - injection Hread as <- <-. split; [lia|]. split; [lia|]. do 3 f_equal. lia.
  - destruct (IH _ _ _ _ Hread) as (_ & Hlt' & Hrest). split; [lia|]. split; [lia|].
    rewrite <- Hrest. f_equal. lia.
Qed.

Lemma read_uint64_prefix (sh : list Z) (s post : list Z) (i x x' i' : Z) :
  read_uint64 sh s i x = Done (x', i', None) ->
  0 <= i /\ i < i' <= Z.of_nat (length s)
  /\ read_uint64 sh (s ++ post) i x = Done (x', i', None).
Proof. intros Hread. exact (read_uint64_embed sh [] s post _ _ _ _ Hread). Qed.

Lemma skip_varint_prefix (sh : list Z) (s post : list Z) (i i' : Z) :
  skip_varint sh s i = Done (i', None) ->
  0 <= i /\ i < i' <= Z.of_nat (length s)
  /\ skip_varint sh (s ++ post) i = Done (i', None).
Proof. intros Hread. exact (skip_varint_embed sh [] s post _ _ Hread). Qed.

Lemma read_length_prefix (sh : list Z) (s post : list Z) (i x x' i' : Z) :
  read_length sh s i x = Done (x', i', None) ->
  0 <= i /\ i < i' <= Z.of_nat (length s)
  /\ read_length sh (s ++ post) i x = Done (x', i', None).
Proof. intros Hread. exact (read_length_embed sh [] s post _ _ _ _ Hread). Qed.

Lemma skipTypes_turn_prefix (again1 again2 : Z -> Z -> run (Z * option codec_error))
    (s post : list Z) (i d n : Z) :
  Z.of_nat (length s) < 2 ^ 63 ->
  (forall i2 d2 n', i < i2 ->
     again1 i2 d2 = Done (n', None) -> again2 i2 d2 = Done (n', None)) ->
  skipTypes_turn again1 s i d = Done (n, None) ->
  skipTypes_turn again2 (s ++ post) i d = Done (n, None).
Proof.
  intros Hl Hagain. unfold skipTypes_turn.
  destruct (read_uint64 shifts s i 0) as [[[wire i1] err1]|f] eqn:Hwire; [|done].
  cbn [mbind run_mbind run_bind].
  destruct err1 as [e|]; [done|].
  destruct (read_uint64_prefix shifts s post _ _ _ _ Hwire) as (Hi0 & Hi1 & ->).
  cbn [mbind run_mbind run_bind].
  assert (forall i2 d2,
            (0 <= i2 -> i < i2) ->
            (if i2 <? 0 then mret (0, Some ErrInvalidLengthTypes)
             else if d2 =? 0 then mret (i2, None) else again1 i2 d2)
            = Done (n, None) ->
            (if i2 <? 0 then mret (0, Some ErrInvalidLengthTypes)
             else if d2 =? 0 then mret (i2, None) else again2 i2 d2)
            = Done (n, None)) as Hrest.
  { intros i2 d2 H2.
    destruct (Z.ltb_spec i2 0) as [Hneg|Hpos]; [done|].
    destruct (d2 =? 0); [done|]. apply Hagain. by apply H2. }
  assert (forall k, 0 <= k < 2 ^ 62 -> 0 <= int_add i1 k -> i < int_add i1 k) as Hadd.
  { intros k Hk Hnn.
    pose proof (int_add_nonneg i1 k ltac:(lia) ltac:(lia) Hnn) as Heq. lia. }
  destruct (Z.land wire 7 =? 0).
  { destruct (skip_varint shifts s i1) as [[i2 err2]|f] eqn:Hskip; [|done].
    cbn [mbind run_mbind run_bind mret run_mret].
    destruct err2 as [e|]; [done|].
    destruct (skip_varint_prefix shifts s post _ _ Hskip) as (_ & Hi2 & ->).
    cbn [mbind run_mbind run_bind mret run_mret].
    apply Hrest. lia. }
  destruct (Z.land wire 7 =? 1).
  { cbn [mbind run_mbind run_bind mret run_mret].
    apply Hrest. apply Hadd. lia. }
  destruct (Z.land wire 7 =? 2).
  { destruct (read_length shifts s i1 0) as [[[len i2] err2]|f] eqn:Hlen; [|done].
    cbn [mbind run_mbind run_bind mret run_mret].
    destruct err2 as [e|]; [done|].
    destruct (read_length_prefix shifts s post _ _ _ _ Hlen) as (_ & Hi2 & ->).
    cbn [mbind run_mbind run_bind mret run_mret].
    destruct (read_length_returns shifts s i1 0 ltac:(lia) ltac:(lia))
      as (len0 & i20 & err20 & Heq & _ & Hrange & _).
    rewrite Hlen in Heq. injection Heq as <- <- <-.
    destruct (Z.ltb_spec len 0) as [Hneg|Hpos];
      cbn [mbind run_mbind run_bind mret run_mret]; [done|].
    apply Hrest. intros Hnn.
    pose proof (int_add_nonneg i2 len ltac:(lia) ltac:(lia) Hnn) as Heq. lia. }
  destruct (Z.land wire 7 =? 3).
  { cbn [mbind run_mbind run_bind mret run_mret]. apply Hrest. lia. }
  destruct (Z.land wire 7 =? 4).
  { destruct (d =? 0); cbn [mbind run_mbind run_bind mret run_mret]; [done|].
    apply Hrest. lia. }
  destruct (Z.land wire 7 =? 5).
  { cbn [mbind run_mbind run_bind mret run_mret]. apply Hrest. apply Hadd. lia. }
  done.
Qed.

Lemma skipTypes_loop_prefix (s post : list Z) (fuel1 : nat) :
  forall fuel2 i d n,
    Z.of_nat (length (s ++ post)) < 2 ^ 63 ->
    Z.of_nat (length (s ++ post)) - i <= Z.of_nat fuel2 ->
    skipTypes_loop fuel1 s i d = Done (n, None) ->
    skipTypes_loop fuel2 (s ++ post) i d = Done (n, None).
Proof.
  induction fuel1 as [|fuel1 IH]; intros fuel2 i d n Hl H2; cbn [skipTypes_loop];
    [done|].
  destruct (Z.ltb_spec i (Z.of_nat (length s))) as [Hlt|Hge]; [|done].
  rewrite length_app in *.
  destruct fuel2 as [|fuel2]; [lia|]. cbn [skipTypes_loop].
  destruct (Z.ltb_spec i (Z.of_nat (length (s ++ post)))) as [_|Hge'].
  2:{ rewrite length_app in Hge'. lia. }
  apply skipTypes_turn_prefix; [lia|].
  intros i2 d2 n' Hi2. apply IH; rewrite ?length_app; lia.
Qed.

(** What [skipTypes] steps over in an input that it accepts, it steps over
    when more bytes follow. *)
Lemma skipTypes_prefix (s post : list Z) (n : Z) :
  Z.of_nat (length (s ++ post)) < 2 ^ 63 ->
  skipTypes s = Done (n, None) ->
  skipTypes (s ++ post) = Done (n, None).
Proof.
  intros Hl. unfold skipTypes. apply skipTypes_loop_prefix; [done|lia].
Qed.

Lemma slice_from_embed (pre mid post : list Z) (i : Z) :
  0 <= i <= Z.of_nat (length mid) ->
  slice_from mid i = Done (drop (Z.to_nat i) mid)
  /\ slice_from (pre ++ mid ++ post) (Z.of_nat (length pre) + i)
     = Done (drop (Z.to_nat i) mid ++ post).
Proof.
  intros Hi. unfold slice_from.
  replace ((0 <=? i) && (i <=? Z.of_nat (length mid))) with true
    by (symmetry; rewrite andb_true_iff, !Z.leb_le; lia).
  replace ((0 <=? Z.of_nat (length pre) + i)
           && (Z.of_nat (length pre) + i <=? Z.of_nat (length (pre ++ mid ++ post))))
    with true
    by (symmetry; rewrite andb_true_iff, !Z.leb_le, !length_app; lia).
  split; [done|]. f_equal.
  replace (Z.to_nat (Z.of_nat (length pre) + i))
    with (length pre + Z.to_nat i)%nat by lia.
  rewrite drop_app_add'  by done.
  by rewrite drop_app_le by lia.
Qed.

(** A turn of the loop of [ProtocolVersion.Unmarshal] on an input that stands
    inside a longer one. *)
Lemma ProtocolVersion_Unmarshal_turn_embed
    (again1 again2 : ProtocolVersion -> Z -> run (ProtocolVersion * option codec_error))
    (final : ProtocolVersion -> run (ProtocolVersion * option codec_error))
    (pre mid post : list Z) (m : ProtocolVersion) (i : Z) :
  Z.of_nat (length (pre ++ mid ++ post)) < 2 ^ 63 ->
  (forall m2 i2 m', i < i2 ->
     again1 m2 i2 = Done (m', None) ->
     again2 m2 (Z.of_nat (length pre) + i2) = final m') ->
  forall m',
    ProtocolVersion_Unmarshal_turn again1 m mid i = Done (m', None) ->
    ProtocolVersion_Unmarshal_turn again2 m (pre ++ mid ++ post)
      (Z.of_nat (length pre) + i) = final m'.
Proof.
  intros Hl Hagain m'. unfold ProtocolVersion_Unmarshal_turn. cbv zeta.
  destruct (read_uint64 shifts mid i 0) as [[[wire i1] err1]|f] eqn:Hwire; [|done].
  cbn [mbind run_mbind run_bind].
  destruct err1 as [e|]; [done|].
  destruct (read_uint64_embed shifts pre mid post _ _ _ _ Hwire) as (Hi0 & Hi1 & ->).
  cbn [mbind run_mbind run_bind].
  destruct (Z.land wire 7 =? 4); [done|].
  destruct (wrap32 (Z.shiftr wire 3) <=? 0); [done|].
  assert (forall (set : Z -> ProtocolVersion),
            ('(x, iNdEx, err) ← read_uint64 shifts mid i1 0;
             match err with
             | Some err => mret (set x, Some err)
             | None => again1 (set x) iNdEx
             end) = Done (m', None) ->
            ('(x, iNdEx, err) ← read_uint64 shifts (pre ++ mid ++ post)
                                   (Z.of_nat (length pre) + i1) 0;
             match err with
             | Some err => mret (set x, Some err)
             | None => again2 (set x) iNdEx
             end) = final m') as Hfield.
  { intros set.
    destruct (read_uint64 shifts mid i1 0) as [[[x i2] err2]|f] eqn:Hx; [|done].
    cbn [mbind run_mbind run_bind].
    destruct err2 as [e|]; [done|].
    destruct (read_uint64_embed shifts pre mid post _ _ _ _ Hx) as (_ & Hi2 & ->).
    cbn [mbind run_mbind run_bind]. apply Hagain. lia. }
  destruct (wrap32 (Z.shiftr wire 3) =? 1).
  { destruct (negb _); [done|].
    apply (Hfield (fun x => mkProtocolVersion x (Block m) (App m))). }
  destruct (wrap32 (Z.shiftr wire 3) =? 2).
  { destruct (negb _); [done|].
    apply (Hfield (fun x => mkProtocolVersion (P2P m) x (App m))). }
  destruct (wrap32 (Z.shiftr wire 3) =? 3).
  { destruct (negb _); [done|].
    apply (Hfield (fun x => mkProtocolVersion (P2P m) (Block m) x)). }
  destruct (slice_from_embed pre mid post i ltac:(lia)) as [-> ->].
  cbn [mbind run_mbind run_bind].
  destruct (skipTypes (drop (Z.to_nat i) mid)) as [[skippy err]|f] eqn:Hskip; [|done].
  cbn [mbind run_mbind run_bind].
  destruct err as [e|]; [done|].
  rewrite !length_app in Hl.
  assert (Z.of_nat (length (drop (Z.to_nat i) mid ++ post)) < 2 ^ 63) as Hl'
    by (rewrite length_app, length_drop; lia).
  rewrite (skipTypes_prefix _ post _ Hl' Hskip).
  cbn [mbind run_mbind run_bind].
  unfold skipTypes in Hskip.
  destruct (skipTypes_loop_returns (length (drop (Z.to_nat i) mid))
              (drop (Z.to_nat i) mid) 0 0 ltac:(lia))
    as (skippy0 & err0 & Heq & Hn).
  rewrite Hskip in Heq. injection Heq as <- <-.
  rewrite length_drop in Hn. specialize (Hn ltac:(lia) eq_refl).
  destruct (Z.ltb_spec skippy 0) as [|_]; [lia|]. cbn [orb].
  destruct (Z.ltb_spec (int_add i skippy) 0) as [|Hnn]; [done|].
  pose proof (int_add_nonneg i skippy ltac:(lia) ltac:(lia) Hnn) as Hsum.
  destruct (Z.gtb_spec (int_add i skippy) (Z.of_nat (length mid))) as [|Hle]; [done|].
  assert (int_add (Z.of_nat (length pre) + i) skippy
          = Z.of_nat (length pre) + int_add i skippy) as ->.
  { rewrite Hsum. unfold int_add, wrap64. rewrite Z.mod_small; lia. }
  destruct (Z.ltb_spec (Z.of_nat (length pre) + int_add i skippy) 0) as [|_]; [lia|].
  destruct (Z.gtb_spec (Z.of_nat (length pre) + int_add i skippy)
              (Z.of_nat (length (pre ++ mid ++ post)))) as [Hgt|_].
  { rewrite !length_app in Hgt. lia. }
  apply Hagain. lia.
Qed.

Lemma ProtocolVersion_Unmarshal_loop_embed (pre mid post : list Z) (fuel1 : nat) :
  forall fuel2 m i m',
    Z.of_nat (length (pre ++ mid ++ post)) < 2 ^ 63 ->
    0 <= i ->
    Z.of_nat (length mid) - i <= Z.of_nat fuel1 ->
    Z.of_nat (length mid + length post) - i <= Z.of_nat fuel2 ->
    ProtocolVersion_Unmarshal_loop fuel1 m mid i = Done (m', None) ->
    ProtocolVersion_Unmarshal_loop fuel2 m (pre ++ mid ++ post)
      (Z.of_nat (length pre) + i)
    = ProtocolVersion_Unmarshal_loop (length post) m' (pre ++ mid ++ post)
        (Z.of_nat (length pre) + Z.of_nat (length mid)).
Proof.
  induction fuel1 as [|fuel1 IH]; intros fuel2 m i m' Hl Hi H1 H2.
  - cbn [ProtocolVersion_Unmarshal_loop].
    destruct (Z.gtb_spec i (Z.of_nat (length mid))); [done|].
    intros [= <-]. replace i with (Z.of_nat (length mid)) by lia.
    apply ProtocolVersion_Unmarshal_loop_fuel; rewrite ?length_app in *; lia.
  - cbn [ProtocolVersion_Unmarshal_loop].
    destruct (Z.ltb_spec i (Z.of_nat (length mid))) as [Hlt|Hge].
    2:{ destruct (Z.gtb_spec i (Z.of_nat (length mid))); [done|].
        intros [= <-]. replace i with (Z.of_nat (length mid)) by lia.
        apply ProtocolVersion_Unmarshal_loop_fuel; rewrite ?length_app in *; lia. }
    destruct fuel2 as [|fuel2]; [lia|].
    cbn [ProtocolVersion_Unmarshal_loop].
    destruct (Z.ltb_spec (Z.of_nat (length pre) + i)
                (Z.of_nat (length (pre ++ mid ++ post)))) as [_|Hge'].
    2:{ rewrite !length_app in Hge'. lia. }
    apply (ProtocolVersion_Unmarshal_turn_embed _ _
             (fun m' => ProtocolVersion_Unmarshal_loop (length post) m'
                          (pre ++ mid ++ post)
                          (Z.of_nat (length pre) + Z.of_nat (length mid))));
      [done|].
    intros m2 i2 m'' Hi2. apply IH; try done; lia.
Qed.


(** ** The p2p codec: what its callers can rely on *)

Lemma varint_are_bytes (v : Z) : 0 <= v -> Forall is_byte (varint v).
Proof. intros Hv. by apply varint_bytes_are_bytes. Qed.

Lemma encoding_are_bytes (m : ProtocolVersion) :
  well_typed m -> Forall is_byte (encoding m).
Proof.
  intros ([HP _] & [HB _] & [HA _]). unfold encoding, field_bytes.
  repeat apply Forall_app_2;
    match goal with
    | |- Forall _ (if ?c then _ else _) =>
        destruct c; [constructor|constructor; [unfold is_byte; lia|by apply varint_are_bytes]]
    end.
Qed.

Lemma ProtocolVersion_Size_range (m : ProtocolVersion) :
  well_typed m -> 0 <= ProtocolVersion_Size m <= 33.
Proof.
  intros (HP & HB & HA). unfold ProtocolVersion_Size.
  pose proof (sovTypes_range _ HP) as [? _].
  pose proof (sovTypes_range _ HB) as [? _].
  pose proof (sovTypes_range _ HA) as [? _].
  destruct (negb (P2P m =? 0)), (negb (Block m =? 0)), (negb (App m =? 0)); lia.
Qed.

Lemma overlay_no_version (m : ProtocolVersion) : overlay no_version m = m.
Proof.
  destruct m as [p b a]. unfold overlay. cbn [P2P Block App no_version].
  f_equal; match goal with |- (if ?x =? 0 then _ else _) = _ =>
                             by destruct (Z.eqb_spec x 0) end.
Qed.

(** X13. [sovTypes] is the number of seven-bit groups of a [uint64]: between
    1 and 10, enough to hold the value, and no more than needed. *)
Theorem sovTypes_bounds (x : Z) :
  is_uint64 x ->
  1 <= sovTypes x <= 10
  /\ x < 2 ^ (7 * sovTypes x)
  /\ (1 < sovTypes x -> 2 ^ (7 * (sovTypes x - 1)) <= x).
Proof. apply sovTypes_range. Qed.

(** X14. With room for it before [offset], [encodeVarintTypes] returns
    [offset - sovTypes v], changes the buffer only between that index and
    [offset], and writes there bytes from which the varint loop of the
    decoder reads [v] back, stopping at [offset]. *)
Theorem encodeVarintTypes_read_back (dAtA : list Z) (offset v : Z) :
  is_uint64 v ->
  sovTypes v <= offset <= Z.of_nat (length dAtA) ->
  exists dAtA',
    encodeVarintTypes dAtA offset v = Done (dAtA', offset - sovTypes v)
    /\ length dAtA' = length dAtA
    /\ take (Z.to_nat (offset - sovTypes v)) dAtA'
       = take (Z.to_nat (offset - sovTypes v)) dAtA
    /\ drop (Z.to_nat offset) dAtA' = drop (Z.to_nat offset) dAtA
    /\ read_uint64 shifts dAtA' (offset - sovTypes v) 0 = Done (v, offset, None).
Proof.
  intros [Hv H64] Hoff.
  pose proof (varint_length v Hv) as Hlen.
  pose proof (sovTypes_range v (conj Hv H64)) as [[Hs1 Hs10] _].
  eexists. split; [by apply encodeVarintTypes_writes|].
  set (a := Z.to_nat (offset - sovTypes v)).
  assert (length (take a dAtA) = a) as Ha by (apply length_take_le; lia).
  split; [|split; [|split]].
  - rewrite !length_app, length_drop. lia.
  - by rewrite take_app_length'.
  - rewrite app_assoc, drop_app_length'; [done|].
    rewrite length_app. lia.
  - rewrite shifts_are_shifts_from.
    replace (offset - sovTypes v) with (Z.of_nat (length (take a dAtA))) by lia.
    unfold varint. rewrite read_uint64_varint; try done; try lia.
    + rewrite Z.shiftl_0_r. do 3 f_equal. fold (varint v). lia.
    + fold (varint v). lia.
Qed.

(** X15. With fewer than [sovTypes v] bytes before an [offset] that is not
    so far below zero that the subtraction wraps around, [encodeVarintTypes]
    panics: its first store is at the negative index [offset - sovTypes v]. *)
Theorem encodeVarintTypes_no_room (dAtA : list Z) (offset v : Z) :
  - 2 ^ 63 <= offset - sovTypes v ->
  offset < sovTypes v ->
  encodeVarintTypes dAtA offset v
  = Fault (index_fault (offset - sovTypes v) (length dAtA)).
Proof. intros _. apply encodeVarintTypes_panics. Qed.

(** X16. [Marshal] returns, with a nil error, [Size()] bytes, at most 33 of
    them. *)
Theorem ProtocolVersion_Marshal_Size (m : ProtocolVersion) :
  well_typed m ->
  exists bz,
    ProtocolVersion_Marshal m = Done (bz, None)
    /\ Z.of_nat (length bz) = ProtocolVersion_Size m
    /\ ProtocolVersion_Size m <= 33
    /\ Forall is_byte bz.
Proof.
  intros Hm. exists (encoding m).
  split; [by apply ProtocolVersion_Marshal_encoding|].
  split; [by apply encoding_length|].
  split; [by apply ProtocolVersion_Size_range|by apply encoding_are_bytes].
Qed.

(** X17. In a buffer that has room, [MarshalToSizedBuffer] writes at the end
    the bytes that [Marshal] returns, leaves the bytes before them as they
    were, and returns [Size()] with a nil error. *)
Theorem ProtocolVersion_MarshalToSizedBuffer_room (m : ProtocolVersion)
    (dAtA : list Z) :
  well_typed m ->
  ProtocolVersion_Size m <= Z.of_nat (length dAtA) ->
  exists bz,
    ProtocolVersion_Marshal m = Done (bz, None)
    /\ ProtocolVersion_MarshalToSizedBuffer m dAtA
       = Done (take (Z.to_nat (Z.of_nat (length dAtA) - ProtocolVersion_Size m)) dAtA
                 ++ bz,
               ProtocolVersion_Size m, None).
Proof.
  intros Hm Hroom. exists (encoding m).
  split; [by apply ProtocolVersion_Marshal_encoding|].
  pose proof (encoding_length m Hm) as Hsize.
  set (k := Z.to_nat (Z.of_nat (length dAtA) - ProtocolVersion_Size m)).
  rewrite <- (take_drop k dAtA) at 1.
  apply ProtocolVersion_MarshalToSizedBuffer_fills; [done|].
  rewrite length_drop. lia.
Qed.

(** X18. In a buffer shorter than [Size()], [MarshalToSizedBuffer] panics. *)
Theorem ProtocolVersion_MarshalToSizedBuffer_panics (m : ProtocolVersion)
    (dAtA : list Z) :
  well_typed m ->
  Z.of_nat (length dAtA) < ProtocolVersion_Size m ->
  exists f, ProtocolVersion_MarshalToSizedBuffer m dAtA = Fault f.
Proof.
  intros Hm Hshort. apply ProtocolVersion_MarshalToSizedBuffer_short; [done|].
  pose proof (encoding_length m Hm). lia.
Qed.

(** X19. [MarshalTo] on a slice whose capacity is at least [Size()] puts the
    bytes that [Marshal] returns at the start of the backing array, leaves
    the rest of it and the length of the slice as they were, and returns
    [Size()] with a nil error. *)
Theorem ProtocolVersion_MarshalTo_Marshal (m : ProtocolVersion) (dAtA : slice Z) :
  well_typed m ->
  ProtocolVersion_Size m <= Z.of_nat (cap dAtA) ->
  exists bz dAtA',
    ProtocolVersion_Marshal m = Done (bz, None)
    /\ ProtocolVersion_MarshalTo m dAtA = Done (dAtA', ProtocolVersion_Size m, None)
    /\ items dAtA' ++ spare dAtA'
       = bz ++ drop (length bz) (items dAtA ++ spare dAtA)
    /\ len dAtA' = len dAtA.
Proof.
  intros Hm Hroom. pose proof (encoding_length m Hm) as Hsize.
  pose proof (ProtocolVersion_Size_range m Hm) as Hrange.
  unfold cap in Hroom. unfold ProtocolVersion_MarshalTo. cbv zeta.
  set (backing := items dAtA ++ spare dAtA) in *.
  exists (encoding m). eexists.
  split; [by apply ProtocolVersion_Marshal_encoding|].
  unfold slice_to.
  replace ((0 <=? ProtocolVersion_Size m)
           && (ProtocolVersion_Size m <=? Z.of_nat (length backing))) with true
    by (symmetry; rewrite andb_true_iff, !Z.leb_le; lia).
  cbn [mbind run_mbind run_bind].
  rewrite <- (app_nil_l (take _ backing)).
  rewrite ProtocolVersion_MarshalToSizedBuffer_fills
    by (try done; rewrite length_take; lia).
  cbn [mbind run_mbind run_bind mret run_mret app].
  split; [done|]. cbn [items spare]. rewrite take_drop.
  replace (Z.to_nat (ProtocolVersion_Size m)) with (length (encoding m)) by lia.
  split; [done|]. unfold len. cbn [items].
  rewrite length_take, length_app, length_drop.
  assert (length (items dAtA) <= length backing)%nat
    by (unfold backing; rewrite length_app; lia).
  lia.
Qed.

(** X20. Decoding what [Marshal] returns into a message [m0] gives [m0] with
    the fields of the encoded message that are not zero written over it: a
    zero field is not on the wire. Into the zero message, it gives the
    encoded message back. *)
Theorem ProtocolVersion_Marshal_Unmarshal (m0 m : ProtocolVersion) :
  well_typed m ->
  exists bz,
    ProtocolVersion_Marshal m = Done (bz, None)
    /\ ProtocolVersion_Unmarshal m0 bz = Done (overlay m0 m, None)
    /\ ProtocolVersion_Unmarshal no_version bz = Done (m, None).
Proof.
  intros Hm. exists (encoding m).
  split; [by apply ProtocolVersion_Marshal_encoding|].
  split; [by apply ProtocolVersion_Unmarshal_encoding|].
  rewrite ProtocolVersion_Unmarshal_encoding by done.
  by rewrite overlay_no_version.
Qed.

(** X21. Two messages that [Marshal] encodes to the same bytes are the same
    message. *)
Theorem ProtocolVersion_Marshal_injective (m1 m2 : ProtocolVersion) :
  well_typed m1 -> well_typed m2 ->
  ProtocolVersion_Marshal m1 = ProtocolVersion_Marshal m2 ->
  m1 = m2.
Proof.
  intros H1 H2 Heq.
  rewrite !ProtocolVersion_Marshal_encoding in Heq by done.
  injection Heq as Heq.
  pose proof (ProtocolVersion_Unmarshal_encoding no_version m1 H1) as Hd1.
  pose proof (ProtocolVersion_Unmarshal_encoding no_version m2 H2) as Hd2.
  rewrite Heq, Hd2, !overlay_no_version in Hd1. by injection Hd1.
Qed.

(** X22. [ProtocolVersion.Unmarshal] never panics: on every input it returns,
    with an error or without. *)
Theorem ProtocolVersion_Unmarshal_never_panics (m : ProtocolVersion)
    (dAtA : list Z) :
  exists m' err, ProtocolVersion_Unmarshal m dAtA = Done (m', err).
Proof. apply ProtocolVersion_Unmarshal_loop_returns. lia. Qed.

(** X23. [skipTypes] never panics, and a count that it returns with a nil
    error is at least 1. *)
Theorem skipTypes_never_panics (dAtA : list Z) :
  exists n err,
    skipTypes dAtA = Done (n, err)
    /\ (Z.of_nat (length dAtA) < 2 ^ 63 -> err = None -> 1 <= n < 2 ^ 63).
Proof.
  destruct (skipTypes_loop_returns (length dAtA) dAtA 0 0 ltac:(lia))
    as (n & err & Hskip & Hn).
  exists n, err. split; [done|]. intros Hl He. specialize (Hn Hl He). lia.
Qed.

(** X24. What [skipTypes] steps over at the start of an input that it
    accepts, it steps over when more bytes follow. *)
Theorem skipTypes_more_input (s post : list Z) (n : Z) :
  Z.of_nat (length (s ++ post)) < 2 ^ 63 ->
  skipTypes s = Done (n, None) ->
  skipTypes (s ++ post) = Done (n, None).
Proof. apply skipTypes_prefix. Qed.

(** X25. Decoding two inputs written one after the other, each of which
    decodes without error, is decoding the second into what the first
    gave. *)
Theorem ProtocolVersion_Unmarshal_concatenation (m0 m1 m2 : ProtocolVersion)
    (a b : list Z) :
  Z.of_nat (length (a ++ b)) < 2 ^ 63 ->
  ProtocolVersion_Unmarshal m0 a = Done (m1, None) ->
  ProtocolVersion_Unmarshal m1 b = Done (m2, None) ->
  ProtocolVersion_Unmarshal m0 (a ++ b) = Done (m2, None).
Proof.
  intros Hl Ha Hb. unfold ProtocolVersion_Unmarshal in *.
  pose proof (ProtocolVersion_Unmarshal_loop_embed [] a b (length a)
                (length (a ++ b)) m0 0 m1 Hl ltac:(lia) ltac:(lia)
                ltac:(rewrite length_app; lia) Ha) as Hfirst.
  cbn [app length Z.of_nat Z.add] in Hfirst.
  change (Z.of_nat 0 + 0) with 0 in Hfirst.
  rewrite Hfirst.
  pose proof (ProtocolVersion_Unmarshal_loop_embed a b [] (length b)
                (length b) m1 0 m2 ltac:(by rewrite app_nil_r) ltac:(lia)
                ltac:(lia) ltac:(simpl; lia) Hb) as Hsecond.
  rewrite app_nil_r in Hsecond.
  rewrite Z.add_0_r in Hsecond.
  change (Z.of_nat 0 + Z.of_nat (length a)) with (Z.of_nat (length a)).
  rewrite Hsecond. cbn [length].
  rewrite <- Nat2Z.inj_add, <- length_app.
  apply ProtocolVersion_Unmarshal_loop_end.
Qed.

(** *** The theorems at the sample messages *)

Lemma wide_version_well_typed : well_typed wide_version.
Proof. unfold well_typed, is_uint64, wide_version. cbn [P2P Block App]. lia. Defined.

Lemma version_well_typed : well_typed version.
Proof. unfold well_typed, is_uint64, version. cbn [P2P Block App]. lia. Defined.

Lemma sovTypes_bounds_300 :
  1 <= sovTypes 300 <= 10
  /\ 300 < 2 ^ (7 * sovTypes 300)
  /\ (1 < sovTypes 300 -> 2 ^ (7 * (sovTypes 300 - 1)) <= 300).
Proof. apply (sovTypes_bounds 300). unfold is_uint64. lia. Defined.

Lemma encodeVarintTypes_read_back_300 :
  exists dAtA',
    encodeVarintTypes [7; 7; 7; 7] 3 300 = Done (dAtA', 3 - sovTypes 300)
    /\ length dAtA' = length [7; 7; 7; 7]
    /\ take (Z.to_nat (3 - sovTypes 300)) dAtA'
       = take (Z.to_nat (3 - sovTypes 300)) [7; 7; 7; 7]
    /\ drop (Z.to_nat 3) dAtA' = drop (Z.to_nat 3) [7; 7; 7; 7]
    /\ read_uint64 shifts dAtA' (3 - sovTypes 300) 0 = Done (300, 3, None).
Proof.
  apply (encodeVarintTypes_read_back [7; 7; 7; 7] 3 300).
  - unfold is_uint64. lia.
  - vm_compute. split; discriminate.
Defined.

Lemma encodeVarintTypes_no_room_300 :
  encodeVarintTypes [7] 1 300 = Fault (index_fault (1 - sovTypes 300) (length [7])).
Proof.
  apply (encodeVarintTypes_no_room [7] 1 300).
  - vm_compute. discriminate.
  - reflexivity.
Defined.

Lemma ProtocolVersion_Marshal_Size_wide_version :
  exists bz,
    ProtocolVersion_Marshal wide_version = Done (bz, None)
    /\ Z.of_nat (length bz) = ProtocolVersion_Size wide_version
    /\ ProtocolVersion_Size wide_version <= 33
    /\ Forall is_byte bz.
Proof.
  apply (ProtocolVersion_Marshal_Size wide_version). exact wide_version_well_typed.
Defined.

Lemma ProtocolVersion_MarshalToSizedBuffer_room_version :
  exists bz,
    ProtocolVersion_Marshal version = Done (bz, None)
    /\ ProtocolVersion_MarshalToSizedBuffer version [7; 7; 7; 7; 7; 7; 7; 7]
       = Done (take (Z.to_nat (Z.of_nat (length [7; 7; 7; 7; 7; 7; 7; 7])
                               - ProtocolVersion_Size version))
                 [7; 7; 7; 7; 7; 7; 7; 7] ++ bz,
               ProtocolVersion_Size version, None).
Proof.
  apply (ProtocolVersion_MarshalToSizedBuffer_room version [7; 7; 7; 7; 7; 7; 7; 7]).
  - exact version_well_typed.
  - vm_compute. discriminate.
Defined.

Lemma ProtocolVersion_MarshalToSizedBuffer_panics_version :
  exists f, ProtocolVersion_MarshalToSizedBuffer version [7; 7; 7; 7; 7] = Fault f.
Proof.
  apply (ProtocolVersion_MarshalToSizedBuffer_panics version [7; 7; 7; 7; 7]).
  - exact version_well_typed.
  - reflexivity.
Defined.

Lemma ProtocolVersion_MarshalTo_Marshal_version :
  exists bz dAtA',
    ProtocolVersion_Marshal version = Done (bz, None)
    /\ ProtocolVersion_MarshalTo version (mkSlice [7; 7] [7; 7; 7; 7; 7])
       = Done (dAtA', ProtocolVersion_Size version, None)
    /\ items dAtA' ++ spare dAtA'
       = bz ++ drop (length bz)
                 (items (mkSlice [7; 7] [7; 7; 7; 7; 7])
                  ++ spare (mkSlice [7; 7] [7; 7; 7; 7; 7]))
    /\ len dAtA' = len (mkSlice [7; 7] [7; 7; 7; 7; 7]).
Proof.
  apply (ProtocolVersion_MarshalTo_Marshal version (mkSlice [7; 7] [7; 7; 7; 7; 7])).
  - exact version_well_typed.
  - vm_compute. discriminate.
Defined.

Lemma ProtocolVersion_Marshal_Unmarshal_wide_version :
  exists bz,
    ProtocolVersion_Marshal wide_version = Done (bz, None)
    /\ ProtocolVersion_Unmarshal version bz = Done (overlay version wide_version, None)
    /\ ProtocolVersion_Unmarshal no_version bz = Done (wide_version, None).
Proof.
  apply (ProtocolVersion_Marshal_Unmarshal version wide_version).
  exact wide_version_well_typed.
Defined.

Lemma ProtocolVersion_Marshal_injective_version :
  mkProtocolVersion (4 + 4) 11 1 = version.
Proof.
  apply (ProtocolVersion_Marshal_injective (mkProtocolVersion (4 + 4) 11 1) version).
  - exact version_well_typed.
  - exact version_well_typed.
  - reflexivity.
Defined.

Lemma skipTypes_more_input_fixed64 :
  skipTypes ([33; 1; 2; 3; 4; 5; 6; 7; 8] ++ [8; 8]) = Done (9, None).
Proof.
  apply (skipTypes_more_input [33; 1; 2; 3; 4; 5; 6; 7; 8] [8; 8] 9).
  - vm_compute. reflexivity.
  - reflexivity.
Defined.

Lemma ProtocolVersion_Unmarshal_concatenation_version :
  ProtocolVersion_Unmarshal no_version ([8; 8; 24; 7] ++ [16; 11; 24; 1])
  = Done (version, None).
Proof.
  apply (ProtocolVersion_Unmarshal_concatenation no_version
           (mkProtocolVersion 8 0 7) version [8; 8; 24; 7] [16; 11; 24; 1]).
  - vm_compute. reflexivity.
  - reflexivity.
  - reflexivity.
Defined.

(** ** DefaultNodeInfoOther: facts *)

Lemma int_add_small (a b : Z) :
  - 2 ^ 63 <= a + b < 2 ^ 63 -> int_add a b = a + b.
Proof.
  intros H. unfold int_add, wrap64. rewrite Z.mod_small; lia.
Qed.

Lemma wrap64_small (z : Z) : - 2 ^ 63 <= z < 2 ^ 63 -> wrap64 z = z.
Proof. intros H. unfold wrap64. rewrite Z.mod_small; lia. Qed.

Lemma string_field_bytes_length (tag : Z) (s : list Z) :
  Z.of_nat (length (string_field_bytes tag s))
  = if Z.of_nat (length s) >? 0
    then 1 + Z.of_nat (length s) + sovTypes (Z.of_nat (length s))
    else 0.
Proof.
  unfold string_field_bytes. destruct (_ >? _); [|done].
  cbn [length]. rewrite length_app, Nat2Z.inj_succ, Nat2Z.inj_add.
  rewrite varint_length by lia. lia.
Qed.

Lemma sovTypes_of_len (n : nat) :
  Z.of_nat n < 2 ^ 63 -> 1 <= sovTypes (Z.of_nat n) <= 10.
Proof.
  intros Hn. apply sovTypes_range. unfold is_uint64. lia.
Qed.

Lemma other_encoding_length (m : DefaultNodeInfoOther) :
  fits_int m ->
  Z.of_nat (length (other_encoding m)) = DefaultNodeInfoOther_Size m.
Proof.
  unfold fits_int, other_encoding, DefaultNodeInfoOther_Size. intros Hm. cbv zeta.
  rewrite length_app, Nat2Z.inj_add, !string_field_bytes_length.
  pose proof (sovTypes_of_len (length (TxIndex m)) ltac:(lia)).
  pose proof (sovTypes_of_len (length (RPCAddress m)) ltac:(lia)).
  destruct (_ >? _), (_ >? _);
    repeat match goal with
           | |- context [int_add ?a ?b] => rewrite (int_add_small a b) by lia
           end; lia.
Qed.

Lemma copy_at_writes (room olds written s : list Z) :
  length olds = length s ->
  copy_at (room ++ olds ++ written) (Z.of_nat (length room)) s
  = Done (room ++ s ++ written).
Proof.
  intros Hlen. unfold copy_at, slice_from.
  replace ((0 <=? Z.of_nat (length room))
           && (Z.of_nat (length room) <=? Z.of_nat (length (room ++ olds ++ written))))
    with true
    by (symmetry; rewrite andb_true_iff, !Z.leb_le, !length_app; lia).
  cbn [mbind run_mbind run_bind mret run_mret].
  rewrite Nat2Z.id, drop_app_length, take_app_length.
  rewrite take_ge by (rewrite length_app; lia).
  by rewrite <- Hlen, drop_app_length.
Qed.

(** One field of [MarshalToSizedBuffer]: with room for it before what has
    been written, the field goes right before that. *)
Lemma put_string_field (room olds written : list Z) (tag : Z) (s : list Z) (i : Z) :
  Z.of_nat (length s) < 2 ^ 63 ->
  length olds = length (string_field_bytes tag s) ->
  i = Z.of_nat (length room + length olds) ->
  (if Z.of_nat (length s) >? 0 then
     dAtA ← copy_at (room ++ olds ++ written) (i - Z.of_nat (length s)) s;
     '(dAtA, i) ← encodeVarintTypes dAtA (i - Z.of_nat (length s))
                     (Z.of_nat (length s));
     dAtA ← store dAtA (i - 1) tag;
     mret (dAtA, i - 1)
   else mret (room ++ olds ++ written, i))
  = Done (room ++ string_field_bytes tag s ++ written, Z.of_nat (length room)).
Proof.
  intros Hs Holds ->. pose proof (string_field_bytes_length tag s) as Hlen.
  rewrite <- Holds in Hlen. unfold string_field_bytes in *.
  destruct (Z.gtb_spec (Z.of_nat (length s)) 0) as [Hpos|Hzero].
  2:{ destruct olds; [|discriminate]. cbn [length app].
      by rewrite Nat.add_0_r. }
  pose proof (sovTypes_of_len (length s) Hs) as Hsov.
  pose proof (varint_length (Z.of_nat (length s)) ltac:(lia)) as Hvar.
  set (v := varint (Z.of_nat (length s))) in *.
  assert (exists old oV oS, olds = old :: oV ++ oS /\ length oV = length v
                            /\ length oS = length s)
    as (old & oV & oS & -> & HlV & HlS).
  { destruct olds as [|old olds]; [simpl in Hlen; lia|].
    exists old, (take (length v) olds), (drop (length v) olds).
    cbn [length] in Hlen. rewrite take_drop, length_take, length_drop.
    repeat split; lia. }
  replace (room ++ (old :: oV ++ oS) ++ written)
    with ((room ++ old :: oV) ++ oS ++ written)
    by (rewrite <- !app_assoc; cbn [app]; by rewrite <- app_assoc).
  replace (Z.of_nat (length room + length (old :: oV ++ oS)) - Z.of_nat (length s))
    with (Z.of_nat (length (room ++ old :: oV)))
    by (rewrite !length_app; cbn [length]; rewrite length_app; lia).
  rewrite copy_at_writes by done.
  cbn [mbind run_mbind run_bind].
  rewrite encodeVarintTypes_writes
    by (rewrite ?length_app; cbn [length]; rewrite ?length_app; lia).
  cbn [mbind run_mbind run_bind].
  rewrite Nat2Z.id, drop_app_length.
  replace (Z.to_nat (Z.of_nat (length (room ++ old :: oV))
                     - sovTypes (Z.of_nat (length s))))
    with (length (room ++ [old]))
    by (rewrite !length_app; cbn [length]; lia).
  replace ((room ++ old :: oV) ++ s ++ written)
    with ((room ++ [old]) ++ oV ++ s ++ written)
    by (rewrite <- !app_assoc; done).
  rewrite take_app_length.
  replace (Z.of_nat (length (room ++ old :: oV))
           - sovTypes (Z.of_nat (length s)) - 1)
    with (Z.of_nat (length room))
    by (rewrite !length_app; cbn [length]; lia).
  rewrite <- (app_assoc room [old]). cbn [app].
  rewrite store_at. cbn [mbind run_mbind run_bind mret run_mret].
  fold v. do 2 f_equal. by rewrite <- !app_assoc.
Qed.

(** In a buffer with room for the message, [MarshalToSizedBuffer] writes the
    fields at the end and leaves what is before them. *)
Lemma DefaultNodeInfoOther_MarshalToSizedBuffer_fills (m : DefaultNodeInfoOther)
    (front olds : list Z) :
  fits_int m ->
  length olds = length (other_encoding m) ->
  DefaultNodeInfoOther_MarshalToSizedBuffer m (front ++ olds)
  = Done (front ++ other_encoding m, DefaultNodeInfoOther_Size m, None).
Proof.
  intros Hm Holds. pose proof (other_encoding_length m Hm) as Hsize.
  unfold fits_int in Hm.
  unfold other_encoding in *. rewrite !length_app in *.
  set (fT := string_field_bytes 10 (TxIndex m)) in *.
  set (fR := string_field_bytes 18 (RPCAddress m)) in *.
  assert (exists oT oR, olds = oT ++ oR /\ length oT = length fT
                        /\ length oR = length fR)
    as (oT & oR & -> & HlT & HlR).
  { exists (take (length fT) olds), (drop (length fT) olds).
    rewrite take_drop, length_take, length_drop. repeat split; lia. }
  unfold DefaultNodeInfoOther_MarshalToSizedBuffer. cbv zeta.
  replace (front ++ oT ++ oR) with ((front ++ oT) ++ oR ++ [])
    by (by rewrite app_nil_r, <- !app_assoc).
  rewrite (put_string_field (front ++ oT) oR [] 18 (RPCAddress m) _
             ltac:(lia) HlR)
    by (rewrite !length_app; simpl; lia).
  cbn [mbind run_mbind run_bind]. fold fR. rewrite app_nil_r.
  rewrite <- (app_assoc front oT fR).
  rewrite (put_string_field front oT fR 10 (TxIndex m) _ ltac:(lia) HlT)
    by (rewrite ?length_app; lia).
  cbn [mbind run_mbind run_bind]. fold fT.
  unfold mret, run_mret. do 3 f_equal. rewrite <- Hsize, !length_app. lia.
Qed.

(** [Marshal] returns the two fields, in the order of their numbers. *)
Lemma DefaultNodeInfoOther_Marshal_encoding (m : DefaultNodeInfoOther) :
  fits_int m -> DefaultNodeInfoOther_Marshal m = Done (other_encoding m, None).
Proof.
  intros Hm. pose proof (other_encoding_length m Hm) as Hsize.
  unfold DefaultNodeInfoOther_Marshal. cbv zeta. rewrite <- Hsize.
  destruct (Z.leb_spec 0 (Z.of_nat (length (other_encoding m)))); [|lia].
  cbn [mbind run_mbind run_bind]. rewrite Nat2Z.id.
  rewrite slice_to_all by (by rewrite length_replicate).
  cbn [mbind run_mbind run_bind].
  rewrite <- (app_nil_l (replicate _ _)).
  rewrite DefaultNodeInfoOther_MarshalToSizedBuffer_fills
    by (try done; by rewrite length_replicate).
  cbn [mbind run_mbind run_bind app].
  rewrite slice_to_all by (symmetry; done).
  reflexivity.
Qed.

(** The decoder reads back a string that the encoder framed. *)
Lemma read_string_at (pre s post : list Z) :
  Z.of_nat (length (pre ++ varint (Z.of_nat (length s)) ++ s ++ post)) < 2 ^ 63 ->
  read_string (pre ++ varint (Z.of_nat (length s)) ++ s ++ post)
    (Z.of_nat (length pre))
  = Done (s, Z.of_nat (length (pre ++ varint (Z.of_nat (length s)) ++ s)), None).
Proof.
  intros Hl. unfold read_string. cbv zeta.
  rewrite !length_app in Hl.
  rewrite read_uint64_varint_from_0 by (unfold is_uint64; lia).
  cbn [mbind run_mbind run_bind].
  set (v := varint (Z.of_nat (length s))) in *.
  rewrite wrap64_small by lia.
  destruct (Z.ltb_spec (Z.of_nat (length s)) 0); [lia|].
  rewrite int_add_small by lia.
  destruct (Z.ltb_spec (Z.of_nat (length pre + length v) + Z.of_nat (length s)) 0);
    [lia|].
  destruct (Z.gtb_spec (Z.of_nat (length pre + length v) + Z.of_nat (length s))
              (Z.of_nat (length (pre ++ v ++ s ++ post)))) as [Hgt|_].
  { rewrite !length_app in Hgt. lia. }
  unfold slice_range.
  replace ((0 <=? Z.of_nat (length pre + length v))
           && (Z.of_nat (length pre + length v)
               <=? Z.of_nat (length pre + length v) + Z.of_nat (length s))
           && (Z.of_nat (length pre + length v) + Z.of_nat (length s)
               <=? Z.of_nat (length (pre ++ v ++ s ++ post))))
    with true
    by (symmetry; rewrite !andb_true_iff, !Z.leb_le, !length_app; lia).
  cbn [mbind run_mbind run_bind mret run_mret].
  rewrite Nat2Z.id.
  replace (Z.to_nat (Z.of_nat (length pre + length v) + Z.of_nat (length s)
                     - Z.of_nat (length pre + length v)))
    with (length s) by lia.
  rewrite app_assoc, <- length_app, drop_app_length, take_app_length.
  do 3 f_equal. rewrite !length_app. lia.
Qed.

Lemma DefaultNodeInfoOther_Unmarshal_loop_end (fuel : nat) (m : DefaultNodeInfoOther)
    (dAtA : list Z) :
  DefaultNodeInfoOther_Unmarshal_loop fuel m dAtA (Z.of_nat (length dAtA))
  = Done (m, None).
Proof.
  destruct fuel; cbn [DefaultNodeInfoOther_Unmarshal_loop].
  - destruct (Z.gtb_spec (Z.of_nat (length dAtA)) (Z.of_nat (length dAtA))); [lia|done].
  - destruct (Z.ltb_spec (Z.of_nat (length dAtA)) (Z.of_nat (length dAtA))); [lia|].
    destruct (Z.gtb_spec (Z.of_nat (length dAtA)) (Z.of_nat (length dAtA))); [lia|done].
Qed.

(** Decoding one field that the encoder wrote: nothing to do when the string
    was empty, else one turn of the loop, which stores the string. *)
Lemma DefaultNodeInfoOther_Unmarshal_field (k : Z) (fuel : nat)
    (m : DefaultNodeInfoOther) (pre post : list Z) (s : list Z) :
  k = 1 \/ k = 2 ->
  Z.of_nat (length (pre ++ string_field_bytes (8 * k + 2) s ++ post)) < 2 ^ 63 ->
  (Z.of_nat (length s) > 0 -> (1 <= fuel)%nat) ->
  DefaultNodeInfoOther_Unmarshal_loop fuel m
    (pre ++ string_field_bytes (8 * k + 2) s ++ post) (Z.of_nat (length pre))
  = DefaultNodeInfoOther_Unmarshal_loop
      (if Z.of_nat (length s) >? 0 then pred fuel else fuel)
      (if Z.of_nat (length s) >? 0
       then mkDefaultNodeInfoOther (if k =? 1 then s else TxIndex m)
                                   (if k =? 2 then s else RPCAddress m)
       else m)
      (pre ++ string_field_bytes (8 * k + 2) s ++ post)
      (Z.of_nat (length (pre ++ string_field_bytes (8 * k + 2) s))).
Proof.
  intros Hk Hl Hfuel. unfold string_field_bytes in *.
  destruct (Z.gtb_spec (Z.of_nat (length s)) 0) as [Hpos|Hzero].
  2:{ by rewrite app_nil_r. }
  destruct fuel as [|fuel]; [specialize (Hfuel ltac:(lia)); lia|]. cbn [pred app] in *.
  cbn [DefaultNodeInfoOther_Unmarshal_loop].
  set (v := varint (Z.of_nat (length s))) in *.
  destruct (Z.ltb_spec (Z.of_nat (length pre))
              (Z.of_nat (length (pre ++ 8 * k + 2 :: (v ++ s) ++ post)))) as [_|Hge].
  2:{ rewrite length_app in Hge. simpl in Hge. lia. }
  unfold DefaultNodeInfoOther_Unmarshal_turn.
  rewrite read_tag by lia. cbn [mbind run_mbind run_bind].
  replace (Z.of_nat (length pre) + 1) with (Z.of_nat (length (pre ++ [8 * k + 2])))
    by (rewrite length_app; simpl; lia).
  rewrite (cons_middle (8 * k + 2) pre), app_assoc, <- (app_assoc v s post).
  unfold v. rewrite read_string_at.
  2:{ fold v. rewrite !length_app in *. cbn [length] in *.
      rewrite !length_app in *. lia. }
  fold v. cbn [mbind run_mbind run_bind].
  destruct Hk as [-> | ->].
  - change (Z.land (8 * 1 + 2) 7) with 2.
    change (wrap32 (Z.shiftr (8 * 1 + 2) 3)) with 1.
    cbn [Z.eqb Z.leb Z.compare Pos.compare Pos.compare_cont Pos.eqb negb].
    f_equal; rewrite <- ?app_assoc, ?length_app; simpl; try done;
      rewrite ?length_app; lia.
  - change (Z.land (8 * 2 + 2) 7) with 2.
    change (wrap32 (Z.shiftr (8 * 2 + 2) 3)) with 2.
    cbn [Z.eqb Z.leb Z.compare Pos.compare Pos.compare_cont Pos.eqb negb].
    f_equal; rewrite <- ?app_assoc, ?length_app; simpl; try done;
      rewrite ?length_app; lia.
Qed.

(** Decoding what [Marshal] returned stores every string that was not empty
    and leaves the others as they were. *)
Lemma DefaultNodeInfoOther_Unmarshal_encoding (m0 m : DefaultNodeInfoOther) :
  fits_int m ->
  DefaultNodeInfoOther_Unmarshal m0 (other_encoding m)
  = Done (other_overlay m0 m, None).
Proof.
  intros Hm. pose proof (other_encoding_length m Hm) as Hsize.
  unfold fits_int in Hm.
  assert (DefaultNodeInfoOther_Size m < 2 ^ 63) as Hsmall.
  { rewrite <- Hsize. unfold other_encoding.
    rewrite length_app, Nat2Z.inj_add, !string_field_bytes_length.
    pose proof (sovTypes_of_len (length (TxIndex m)) ltac:(lia)).
    pose proof (sovTypes_of_len (length (RPCAddress m)) ltac:(lia)).
    destruct (_ >? _), (_ >? _); lia. }
  rewrite <- Hsize in Hsmall.
  unfold DefaultNodeInfoOther_Unmarshal, other_encoding in *.
  set (fT := string_field_bytes 10 (TxIndex m)) in *.
  set (fR := string_field_bytes 18 (RPCAddress m)) in *.
  assert (Z.of_nat (length (TxIndex m)) > 0 -> (2 <= length fT)%nat) as HlT.
  { intros Hne. unfold fT, string_field_bytes.
    destruct (Z.gtb_spec (Z.of_nat (length (TxIndex m))) 0); [|lia].
    pose proof (varint_nonempty (Z.of_nat (length (TxIndex m)))).
    cbn [length]. rewrite length_app. lia. }
  assert (Z.of_nat (length (RPCAddress m)) > 0 -> (2 <= length fR)%nat) as HlR.
  { intros Hne. unfold fR, string_field_bytes.
    destruct (Z.gtb_spec (Z.of_nat (length (RPCAddress m))) 0); [|lia].
    pose proof (varint_nonempty (Z.of_nat (length (RPCAddress m)))).
    cbn [length]. rewrite length_app. lia. }
  rewrite length_app.
  pose proof (DefaultNodeInfoOther_Unmarshal_field 1 (length fT + length fR) m0
                [] fR (TxIndex m) ltac:(auto)) as H1.
  change (8 * 1 + 2) with 10 in H1. fold fT in H1. cbn [app length] in H1.
  change (Z.of_nat 0) with 0 in H1.
  rewrite H1 by (try done; intros Hne; specialize (HlT Hne); lia). clear H1.
  set (f1 := if _ >? 0 then _ else _).
  set (m1 := if _ >? 0 then _ else _).
  pose proof (DefaultNodeInfoOther_Unmarshal_field 2 f1 m1 fT [] (RPCAddress m)
                ltac:(auto)) as H2.
  change (8 * 2 + 2) with 18 in H2. fold fR in H2.
  rewrite app_nil_r in H2. rewrite H2.
  2:{ done. }
  2:{ intros Hne. specialize (HlR Hne). unfold f1.
      destruct (Z.gtb_spec (Z.of_nat (length (TxIndex m))) 0) as [HnT|?];
        try specialize (HlT ltac:(lia)); lia. }
  clear H2. rewrite DefaultNodeInfoOther_Unmarshal_loop_end.
  unfold other_overlay, m1. destruct m0 as [t0 r0]. cbn [TxIndex RPCAddress].
  destruct (_ >? 0), (_ >? 0); reflexivity.
Qed.

(** *** The decoder reads within bounds *)

Lemma read_string_returns (dAtA : list Z) (iNdEx : Z) :
  Z.of_nat (length dAtA) < 2 ^ 63 ->
  0 <= iNdEx ->
  exists s iNdEx' err,
    read_string dAtA iNdEx = Done (s, iNdEx', err)
    /\ (err = None -> iNdEx < iNdEx' <= Z.of_nat (length dAtA)).
Proof.
  intros Hl Hi. unfold read_string. cbv zeta.
  destruct (read_uint64_returns shifts dAtA iNdEx 0 Hi)
    as (stringLen & i1 & err1 & -> & Hle1 & Herr1).
  cbn [mbind run_mbind run_bind].
  destruct err1 as [e|]; [eexists _, _, _; split; [done|discriminate]|].
  specialize (Herr1 eq_refl).
  pose proof (wrap64_range stringLen) as Hrange.
  destruct (Z.ltb_spec (wrap64 stringLen) 0);
    [eexists _, _, _; split; [done|discriminate]|].
  destruct (Z.ltb_spec (int_add i1 (wrap64 stringLen)) 0) as [|Hnn];
    [eexists _, _, _; split; [done|discriminate]|].
  pose proof (int_add_nonneg i1 (wrap64 stringLen) ltac:(lia) ltac:(lia) Hnn) as Hsum.
  destruct (Z.gtb_spec (int_add i1 (wrap64 stringLen)) (Z.of_nat (length dAtA)));
    [eexists _, _, _; split; [done|discriminate]|].
  unfold slice_range.
  replace ((0 <=? i1) && (i1 <=? int_add i1 (wrap64 stringLen))
           && (int_add i1 (wrap64 stringLen) <=? Z.of_nat (length dAtA)))
    with true by (symmetry; rewrite !andb_true_iff, !Z.leb_le; lia).
  cbn [mbind run_mbind run_bind].
  eexists _, _, _. split; [done|]. lia.
Qed.

Lemma DefaultNodeInfoOther_Unmarshal_loop_returns (fuel : nat) (dAtA : list Z) :
  Z.of_nat (length dAtA) < 2 ^ 63 ->
  forall m iNdEx,
    0 <= iNdEx ->
    exists m' err,
      DefaultNodeInfoOther_Unmarshal_loop fuel m dAtA iNdEx = Done (m', err).
Proof.
  intros Hl.
  induction fuel as [|fuel IH]; intros m iNdEx Hi;
    cbn [DefaultNodeInfoOther_Unmarshal_loop].
  { destruct (iNdEx >? _); eexists _, _; done. }
  destruct (Z.ltb_spec iNdEx (Z.of_nat (length dAtA))) as [Hlt|Hge].
  2:{ destruct (iNdEx >? _); eexists _, _; done. }
  unfold DefaultNodeInfoOther_Unmarshal_turn. cbv zeta.
  destruct (read_uint64_returns shifts dAtA iNdEx 0 Hi)
    as (wire & i1 & err1 & -> & Hle1 & Herr1).
  cbn [mbind run_mbind run_bind].
  destruct err1 as [e|]; [eexists _, _; done|].
  destruct (Z.land wire 7 =? 4); [eexists _, _; done|].
  destruct (wrap32 (Z.shiftr wire 3) <=? 0); [eexists _, _; done|].
  assert (forall (set : list Z -> DefaultNodeInfoOther),
            exists m' err,
              ('(s, iNdEx, err) ← read_string dAtA i1;
               match err with
               | Some err => mret (m, Some err)
               | None => DefaultNodeInfoOther_Unmarshal_loop fuel (set s) dAtA iNdEx
               end) = Done (m', err)) as Hfield.
  { intros set.
    destruct (read_string_returns dAtA i1 Hl ltac:(lia))
      as (s & i2 & err2 & -> & Herr2).
    cbn [mbind run_mbind run_bind].
    destruct err2 as [e|]; [eexists _, _; done|]. apply IH.
    specialize (Herr2 eq_refl). lia. }
  destruct (wrap32 (Z.shiftr wire 3) =? 1).
  { destruct (negb _); [eexists _, _; done|].
    apply (Hfield (fun s => mkDefaultNodeInfoOther s (RPCAddress m))). }
  destruct (wrap32 (Z.shiftr wire 3) =? 2).
  { destruct (negb _); [eexists _, _; done|].
    apply (Hfield (fun s => mkDefaultNodeInfoOther (TxIndex m) s)). }
  unfold slice_from.
  replace ((0 <=? iNdEx) && (iNdEx <=? Z.of_nat (length dAtA))) with true
    by (symmetry; rewrite andb_true_iff, !Z.leb_le; lia).
  cbn [mbind run_mbind run_bind]. unfold skipTypes.
  destruct (skipTypes_loop_returns (length (drop (Z.to_nat iNdEx) dAtA))
              (drop (Z.to_nat iNdEx) dAtA) 0 0 ltac:(lia))
    as (skippy & err & -> & _).
  cbn [mbind run_mbind run_bind].
  destruct err as [e|]; [eexists _, _; done|].
  destruct (skippy <? 0); [eexists _, _; done|]. cbn [orb].
  destruct (Z.ltb_spec (int_add iNdEx skippy) 0); [eexists _, _; done|].
  destruct (_ >? _); [eexists _, _; done|].
  by apply IH.
Qed.

(** A turn of the loop of [DefaultNodeInfoOther.Unmarshal] goes on only at a
    later index. *)
Lemma DefaultNodeInfoOther_Unmarshal_turn_ext
    (again1 again2 : DefaultNodeInfoOther -> Z
                     -> run (DefaultNodeInfoOther * option codec_error))
    (m : DefaultNodeInfoOther) (dAtA : list Z) (iNdEx : Z) :
  0 <= iNdEx < Z.of_nat (length dAtA) ->
  Z.of_nat (length dAtA) < 2 ^ 63 ->
  (forall m' i, iNdEx < i -> again1 m' i = again2 m' i) ->
  DefaultNodeInfoOther_Unmarshal_turn again1 m dAtA iNdEx
  = DefaultNodeInfoOther_Unmarshal_turn again2 m dAtA iNdEx.
Proof.
  intros Hi Hl Hagain. unfold DefaultNodeInfoOther_Unmarshal_turn. cbv zeta.
  destruct (read_uint64_returns shifts dAtA iNdEx 0 ltac:(lia))
    as (wire & i1 & err1 & -> & Hle1 & Herr1).
  cbn [mbind run_mbind run_bind].
  destruct err1 as [e|]; [done|]. specialize (Herr1 eq_refl).
  destruct (Z.land wire 7 =? 4); [done|].
  destruct (wrap32 (Z.shiftr wire 3) <=? 0); [done|].
  assert (forall (set : list Z -> DefaultNodeInfoOther),
            ('(s, iNdEx, err) ← read_string dAtA i1;
             match err with
             | Some err => mret (m, Some err)
             | None => again1 (set s) iNdEx
             end)
            = ('(s, iNdEx, err) ← read_string dAtA i1;
               match err with
               | Some err => mret (m, Some err)
               | None => again2 (set s) iNdEx
               end)) as Hfield.
  { intros set.
    destruct (read_string_returns dAtA i1 Hl ltac:(lia))
      as (s & i2 & err2 & -> & Herr2).
    cbn [mbind run_mbind run_bind].
    destruct err2 as [e|]; [done|]. apply Hagain.
    specialize (Herr2 eq_refl). lia. }
  destruct (wrap32 (Z.shiftr wire 3) =? 1).
  { destruct (negb _); [done|].
    apply (Hfield (fun s => mkDefaultNodeInfoOther s (RPCAddress m))). }
  destruct (wrap32 (Z.shiftr wire 3) =? 2).
  { destruct (negb _); [done|].
    apply (Hfield (fun s => mkDefaultNodeInfoOther (TxIndex m) s)). }
  unfold slice_from.
  replace ((0 <=? iNdEx) && (iNdEx <=? Z.of_nat (length dAtA))) with true
    by (symmetry; rewrite andb_true_iff, !Z.leb_le; lia).
  cbn [mbind run_mbind run_bind]. unfold skipTypes.
  destruct (skipTypes_loop_returns (length (drop (Z.to_nat iNdEx) dAtA))
              (drop (Z.to_nat iNdEx) dAtA) 0 0 ltac:(lia))
    as (skippy & err & -> & Hskip).
  cbn [mbind run_mbind run_bind].
  destruct err as [e|]; [done|].
  rewrite length_drop in Hskip. specialize (Hskip ltac:(lia) eq_refl).
  destruct (Z.ltb_spec skippy 0); [done|]. cbn [orb].
  destruct (Z.ltb_spec (int_add iNdEx skippy) 0) as [|Hnn]; [done|].
  destruct (_ >? _); [done|].
  apply Hagain.
  pose proof (int_add_nonneg iNdEx skippy ltac:(lia) ltac:(lia) Hnn). lia.
Qed.

(** With fuel for every byte that is left, the loop of
    [DefaultNodeInfoOther.Unmarshal] does not depend on the fuel. *)
Lemma DefaultNodeInfoOther_Unmarshal_loop_fuel (dAtA : list Z) (fuel1 : nat) :
  forall fuel2 m iNdEx,
    Z.of_nat (length dAtA) < 2 ^ 63 ->
    0 <= iNdEx ->
    Z.of_nat (length dAtA) - iNdEx <= Z.of_nat fuel1 ->
    Z.of_nat (length dAtA) - iNdEx <= Z.of_nat fuel2 ->
    DefaultNodeInfoOther_Unmarshal_loop fuel1 m dAtA iNdEx
    = DefaultNodeInfoOther_Unmarshal_loop fuel2 m dAtA iNdEx.
Proof.
  induction fuel1 as [|fuel1 IH]; intros fuel2 m iNdEx Hl Hi H1 H2.
  - destruct fuel2 as [|fuel2]; cbn [DefaultNodeInfoOther_Unmarshal_loop]; [done|].
    destruct (Z.ltb_spec iNdEx (Z.of_nat (length dAtA))); [lia|done].
  - destruct fuel2 as [|fuel2]; cbn [DefaultNodeInfoOther_Unmarshal_loop];
      destruct (Z.ltb_spec iNdEx (Z.of_nat (length dAtA))); try done; try lia.
    apply DefaultNodeInfoOther_Unmarshal_turn_ext; try done; try lia.
    intros m' i Hlt. apply IH; lia.
Qed.

Lemma other_overlay_no_other (m : DefaultNodeInfoOther) : other_overlay no_other m = m.
Proof.
  destruct m as [t r]. unfold other_overlay. cbn [TxIndex RPCAddress no_other].
  f_equal.
  - destruct (Z.gtb_spec (Z.of_nat (length t)) 0); [done|]. destruct t; [done|].
    cbn [length] in *. lia.
  - destruct (Z.gtb_spec (Z.of_nat (length r)) 0); [done|]. destruct r; [done|].
    cbn [length] in *. lia.
Qed.

(** X26. [DefaultNodeInfoOther.Marshal] returns, with a nil error, [Size()]
    bytes. *)
Theorem DefaultNodeInfoOther_Marshal_Size (m : DefaultNodeInfoOther) :
  fits_int m ->
  exists bz,
    DefaultNodeInfoOther_Marshal m = Done (bz, None)
    /\ Z.of_nat (length bz) = DefaultNodeInfoOther_Size m.
Proof.
  intros Hm. exists (other_encoding m).
  split; [by apply DefaultNodeInfoOther_Marshal_encoding|by apply other_encoding_length].
Qed.

(** X27. Decoding what [DefaultNodeInfoOther.Marshal] returns into a message
    [m0] gives [m0] with the strings of the encoded message that are not
    empty written over it: an empty string is not on the wire. Into the
    empty message, it gives the encoded message back. *)
Theorem DefaultNodeInfoOther_Marshal_Unmarshal (m0 m : DefaultNodeInfoOther) :
  fits_int m ->
  exists bz,
    DefaultNodeInfoOther_Marshal m = Done (bz, None)
    /\ DefaultNodeInfoOther_Unmarshal m0 bz = Done (other_overlay m0 m, None)
    /\ DefaultNodeInfoOther_Unmarshal no_other bz = Done (m, None).
Proof.
  intros Hm. exists (other_encoding m).
  split; [by apply DefaultNodeInfoOther_Marshal_encoding|].
  split; [by apply DefaultNodeInfoOther_Unmarshal_encoding|].
  rewrite DefaultNodeInfoOther_Unmarshal_encoding by done.
  by rewrite other_overlay_no_other.
Qed.

(** X28. [DefaultNodeInfoOther.Unmarshal] never panics: the checks before
    [dAtA[iNdEx:postIndex]] keep the slice expression in range, also when the
    length on the wire is so large that the sum wraps around. *)
Theorem DefaultNodeInfoOther_Unmarshal_never_panics (m : DefaultNodeInfoOther)
    (dAtA : list Z) :
  Z.of_nat (length dAtA) < 2 ^ 63 ->
  exists m' err, DefaultNodeInfoOther_Unmarshal m dAtA = Done (m', err).
Proof.
  intros Hl. apply DefaultNodeInfoOther_Unmarshal_loop_returns; [done|lia].
Qed.

Lemma other_fits_int : fits_int other.
Proof. unfold fits_int, other. cbn [TxIndex RPCAddress length]. lia. Defined.

Lemma DefaultNodeInfoOther_Marshal_Size_other :
  exists bz,
    DefaultNodeInfoOther_Marshal other = Done (bz, None)
    /\ Z.of_nat (length bz) = DefaultNodeInfoOther_Size other.
Proof. apply (DefaultNodeInfoOther_Marshal_Size other). exact other_fits_int. Defined.

Lemma DefaultNodeInfoOther_Marshal_Unmarshal_other :
  exists bz,
    DefaultNodeInfoOther_Marshal other = Done (bz, None)
    /\ DefaultNodeInfoOther_Unmarshal (mkDefaultNodeInfoOther [107; 118] []) bz
       = Done (other_overlay (mkDefaultNodeInfoOther [107; 118] []) other, None)
    /\ DefaultNodeInfoOther_Unmarshal no_other bz = Done (other, None).
Proof.
  apply (DefaultNodeInfoOther_Marshal_Unmarshal
           (mkDefaultNodeInfoOther [107; 118] []) other).
  exact other_fits_int.
Defined.

Lemma DefaultNodeInfoOther_Unmarshal_never_panics_huge_length :
  exists m' err,
    DefaultNodeInfoOther_Unmarshal no_other
      [10; 255; 255; 255; 255; 255; 255; 255; 255; 127; 1] = Done (m', err).
Proof.
  apply (DefaultNodeInfoOther_Unmarshal_never_panics no_other
           [10; 255; 255; 255; 255; 255; 255; 255; 255; 127; 1]).
  vm_compute. reflexivity.
Defined.
